(** * A shallow embedding of the gollection hash table and hash set

    Source files: [dict/hash_dict.go] (the table, type [HashDict] over the
    inner record [hashMap]) and [hash_set.go] (the set adapter, of the
    root package, over that package's table [HashMap], which is not among
    the sources and is a parameter here, see [Table]).

    Conventions of the embedding.
    - A Go [int] is a [Z] (64 bits).  The only arithmetic that a caller can
      drive out of the 64-bit range directly is the doubling loop of
      [bucketsSizeFor], whose wrap-around is written out with [wrap].  Every
      other integer of the table is a slice length, an index into a slice,
      or a hash that is only compared and reduced with [%].
    - A slice is a [list]; an index expression that Go checks at run time is
      [at_] (read) or [upd] (write), which panic out of range.
    - A method mutates the record behind the [HashDict] pointer; here it
      takes the record and returns the new one.
    - A run of a method ends in one of three ways, see [outcome]. *)

From stdpp Require Import base list numbers option strings functions.
From Stdlib Require Import ZArith Lia.

Local Open Scope Z_scope.

(** ** Outcomes *)

(** [Done a]: the call returned [a].  [Panic]: a run-time panic (index out
    of range, integer division by zero).  [Diverge]: the loop ran out of
    the fuel of the model, which is chosen so that this only happens when
    the Go loop does not terminate. *)
Inductive outcome (A : Type) : Type :=
| Done (a : A)
| Panic
| Diverge.
Arguments Done {A} a.
Arguments Panic {A}.
Arguments Diverge {A}.

Definition obind {A B : Type} (m : outcome A) (f : A → outcome B) : outcome B :=
  match m with
  | Done a => f a
  | Panic => Panic
  | Diverge => Diverge
  end.

Global Instance outcome_bind : MBind outcome := λ A B f m, obind m f.
Global Instance outcome_ret : MRet outcome := @Done.

(** ** Slices *)

Definition len {A : Type} (l : list A) : Z := Z.of_nat (length l).

(** [l[i]] as an expression. *)
Definition at_ {A : Type} (l : list A) (i : Z) : outcome A :=
  if i <? 0 then Panic
  else match l !! Z.to_nat i with
       | Some x => Done x
       | None => Panic
       end.

(** [l[i] = x] as a statement. *)
Definition upd {A : Type} (l : list A) (i : Z) (x : A) : outcome (list A) :=
  if i <? 0 then Panic
  else if i <? len l then Done (<[Z.to_nat i := x]> l)
  else Panic.

(** [make([]T, n)] with every slot holding [x]: the zero value, or -1 for
    a bucket array, which the source fills with -1 in a loop right after
    the allocation.  A negative length panics. *)
Definition make {A : Type} (n : Z) (x : A) : outcome (list A) :=
  if n <? 0 then Panic else Done (replicate (Z.to_nat n) x).

(** [copy(dst, src)]: the first [min (len dst) (len src)] slots of [dst]
    are overwritten. *)
Definition copy {A : Type} (dst src : list A) : list A :=
  take (length dst) src ++ drop (length src) dst.

(** ** Zero values *)

Class Zero (A : Type) : Type := zero : A.
Global Instance Zero_Z : Zero Z := 0.
Global Instance Zero_unit : Zero unit := tt.

(** ** 64-bit wrap-around *)

Definition wrap (z : Z) : Z := (z + 2 ^ 63) mod 2 ^ 64 - 2 ^ 63.

(** [NumberHasher] at key type [int]: the conversion is the identity. *)
Definition NumberHasher (t : Z) : Z := t.

Definition defaultElementsSize : Z := 10.

(** The loop of [bucketsSizeFor]. *)
Fixpoint bucketsSizeFor_loop (fuel : nat) (bucketsSize size : Z) : outcome Z :=
  if bucketsSize <? size then
    match fuel with
    | O => Diverge
    | S fuel' => bucketsSizeFor_loop fuel' (wrap (bucketsSize * 2)) size
    end
  else Done bucketsSize.

(** From 16 the doubling either stops within 59 rounds or wraps to 0 and
    stays there ([bucketsSizeFor_loop_diverges]), so 64 rounds of fuel
    decide the loop. *)
Definition bucketsSizeFor (size : Z) : outcome Z :=
  bucketsSizeFor_loop 64 16 size.

(** ** The table *)

Section Table.
Context {K V : Type} `{EqDecision K} `{Zero K} `{Zero V}.

Record entry : Type := Entry {
  hash : Z;
  key : K;
  value : V;
  next : Z;
  alive : bool
}.

Global Instance Zero_entry : Zero entry :=
  {| hash := 0; key := zero; value := zero; next := 0; alive := false |}.

(** [loadFactor] is a [float64] in the source.  The only value ever
    stored in it is 1, and it is only compared with the conversion of an
    integer quotient, so it is kept as the integer it holds. *)
Record hashMap : Type := HashMap {
  buckets : list Z;
  entries : list entry;
  appendCount : Z;
  freeCount : Z;
  freeSize : Z;
  hasher : K → Z;
  loadFactor : Z
}.

Definition set_buckets (d : hashMap) (b : list Z) : hashMap :=
  {| buckets := b; entries := entries d; appendCount := appendCount d;
     freeCount := freeCount d; freeSize := freeSize d;
     hasher := hasher d; loadFactor := loadFactor d |}.

Definition set_entries (d : hashMap) (e : list entry) : hashMap :=
  {| buckets := buckets d; entries := e; appendCount := appendCount d;
     freeCount := freeCount d; freeSize := freeSize d;
     hasher := hasher d; loadFactor := loadFactor d |}.

Definition set_appendCount (d : hashMap) (n : Z) : hashMap :=
  {| buckets := buckets d; entries := entries d; appendCount := n;
     freeCount := freeCount d; freeSize := freeSize d;
     hasher := hasher d; loadFactor := loadFactor d |}.

Definition set_freeCount (d : hashMap) (n : Z) : hashMap :=
  {| buckets := buckets d; entries := entries d; appendCount := appendCount d;
     freeCount := n; freeSize := freeSize d;
     hasher := hasher d; loadFactor := loadFactor d |}.

Definition set_freeSize (d : hashMap) (n : Z) : hashMap :=
  {| buckets := buckets d; entries := entries d; appendCount := appendCount d;
     freeCount := freeCount d; freeSize := n;
     hasher := hasher d; loadFactor := loadFactor d |}.

Definition set_next (e : entry) (n : Z) : entry :=
  {| hash := hash e; key := key e; value := value e; next := n; alive := alive e |}.

Definition set_value (e : entry) (v : V) : entry :=
  {| hash := hash e; key := key e; value := v; next := next e; alive := alive e |}.

(** [MakeHashDict] *)
Definition MakeHashDict (hasher : K → Z) (capacity : Z) : outcome hashMap :=
  let size := capacity in
  n ← bucketsSizeFor size;
  buckets ← make n (-1);
  let size := if size <? defaultElementsSize then defaultElementsSize else size in
  entries ← make size (zero : entry);
  Done {| buckets := buckets; entries := entries; appendCount := 0;
          freeCount := 0; freeSize := 0; hasher := hasher; loadFactor := 1 |}.

(** [HashDict.index]: Go's [%] truncates towards zero ([Z.rem]) and
    panics on a zero divisor. *)
Definition index (d : hashMap) (hash : Z) : outcome Z :=
  if len (buckets d) =? 0 then Panic
  else Done (Z.rem hash (len (buckets d))).

(** [HashDict.Size] *)
Definition Size (d : hashMap) : Z := appendCount d - freeSize d + 1.

(** [HashDict.IsEmpty] *)
Definition IsEmpty (d : hashMap) : bool := Size d =? 0.

(** The chain walk shared by [TryGet], [Put], [GetAndPut] and [Remove]:
    [for i := buckets[index]; i >= 0; i = entries[i].next], leaving the
    loop at the first entry with the hash and the key looked for.  [last]
    is the variable that [Remove] declares as [-1] before its loop; the
    loop never assigns it, so the walk hands it on as it is.  The slice is
    not written during the walk, so a walk of more than [length entries]
    steps visits an index twice and never ends: the callers give
    [S (length entries)] rounds of fuel. *)
Fixpoint chain_find (fuel : nat) (es : list entry) (h : Z) (k : K)
    (last i : Z) : outcome (option (Z * Z * entry)) :=
  if i <? 0 then Done None
  else match fuel with
       | O => Diverge
       | S fuel' =>
           item ← at_ es i;
           if (hash item =? h) && bool_decide (key item = k)
           then Done (Some (last, i, item))
           else chain_find fuel' es h k last (next item)
       end.

Definition lookup_chain (d : hashMap) (h : Z) (k : K) (idx : Z)
    : outcome (option (Z * Z * entry)) :=
  head ← at_ (buckets d) idx;
  chain_find (S (length (entries d))) (entries d) h k (-1) head.

(** [HashDict.TryGet] *)
Definition TryGet (d : hashMap) (k : K) : outcome (option V) :=
  let h := hasher d k in
  idx ← index d h;
  r ← lookup_chain d h k idx;
  match r with
  | Some (_, _, item) => Done (Some (value item))
  | None => Done None
  end.

(** [HashDict.Contains] *)
Definition Contains (d : hashMap) (k : K) : outcome bool :=
  r ← TryGet d k; Done (bool_decide (is_Some r)).

(** The rehash loop of [grow]: [for i, v := range entries].  Slot [i] is
    read in round [i] and only slot [i] is written in round [i]. *)
Fixpoint rehash (n : nat) (i : Z) (newBucketsSize : Z)
    (es : list entry) (newBuckets : list Z) : outcome (list entry * list Z) :=
  match n with
  | O => Done (es, newBuckets)
  | S n' =>
      v ← at_ es i;
      if alive v then
        let bucket := Z.rem (hash v) newBucketsSize in
        head ← at_ newBuckets bucket;
        es' ← upd es i (set_next v head);
        newBuckets' ← upd newBuckets bucket i;
        rehash n' (i + 1) newBucketsSize es' newBuckets'
      else rehash n' (i + 1) newBucketsSize es newBuckets
  end.

(** [HashDict.grow].  [float64(newSize/bucketsSize) > loadFactor]
    compares the truncated integer quotient. *)
Definition grow (d : hashMap) (newSize : Z) : outcome hashMap :=
  let entriesSize := len (entries d) in
  let bucketsSize := len (buckets d) in
  d1 ← (if bucketsSize =? 0 then Panic
        else if loadFactor d <? Z.quot newSize bucketsSize then
          let newBucketsSize := bucketsSize * 2 in
          newBuckets ← make newBucketsSize (-1);
          '(es, nb) ← rehash (length (entries d)) 0 newBucketsSize
                        (entries d) newBuckets;
          Done (set_buckets (set_entries d es) nb)
        else Done d);
  if entriesSize <? newSize then
    newEntries ← make (entriesSize + Z.shiftl entriesSize 1) (zero : entry);
    Done (set_entries d1 (copy newEntries (entries d1)))
  else Done d1.

(** The slot a new key gets, in [Put] and [GetAndPut]. *)
Definition take_slot (d : hashMap) : outcome (Z * hashMap) :=
  if 0 <? freeSize d then
    let bucket := freeCount d in
    e ← at_ (entries d) (freeCount d);
    Done (bucket, set_freeSize (set_freeCount d (next e)) (freeSize d - 1))
  else
    d1 ← grow d (Size d + 1);
    Done (appendCount d1, set_appendCount d1 (appendCount d1 + 1)).

(** The tail of [Put] and [GetAndPut] on a new key; [index] is the value
    computed before [grow]. *)
Definition link_new (d : hashMap) (idx bucket : Z) (h : Z) (k : K) (v : V)
    : outcome hashMap :=
  head ← at_ (buckets d) idx;
  let newItem := {| hash := h; key := k; value := v; next := head; alive := true |} in
  es ← upd (entries d) bucket newItem;
  bs ← upd (buckets d) idx bucket;
  Done (set_buckets (set_entries d es) bs).

(** [HashDict.Put] *)
Definition Put (d : hashMap) (k : K) (v : V) : outcome (hashMap * option V) :=
  let h := hasher d k in
  idx ← index d h;
  r ← lookup_chain d h k idx;
  match r with
  | Some (_, i, item) =>
      es ← upd (entries d) i (set_value item v);
      Done (set_entries d es, Some (value item))
  | None =>
      '(bucket, d1) ← take_slot d;
      d2 ← link_new d1 idx bucket h k v;
      Done (d2, None)
  end.

(** [HashDict.GetAndPut].  The callback [set] is a Go closure: it can read
    the table it is called on and it can panic, so it gets the table as it
    is at the call and returns an outcome.  On a key that is found it is
    called before the slot is written; on a new key it is called after
    [grow] and [appendCount++] and before the new slot is written.  A
    callback that writes the table itself is not modelled. *)
Definition GetAndPut (d : hashMap) (k : K) (set : hashMap → option V → outcome V)
    : outcome (hashMap * (V * option V)) :=
  let h := hasher d k in
  idx ← index d h;
  r ← lookup_chain d h k idx;
  match r with
  | Some (_, i, item) =>
      newValue ← set d (Some (value item));
      es ← upd (entries d) i (set_value item newValue);
      Done (set_entries d es, (newValue, Some (value item)))
  | None =>
      '(bucket, d1) ← take_slot d;
      newValue ← set d1 None;
      d2 ← link_new d1 idx bucket h k newValue;
      Done (d2, (newValue, None))
  end.

(** A callback that is a function of the previous value alone: it does
    not look at the table and it returns. *)
Definition pure_callback (set : option V → V) : hashMap → option V → outcome V :=
  λ _ r, Done (set r).

(** [HashDict.Remove].  [last] comes out of the walk as the [-1] it was
    declared with, so the second branch of the test on it is never taken;
    it is kept as the source has it. *)
Definition Remove (d : hashMap) (k : K) : outcome (hashMap * option V) :=
  let h := hasher d k in
  idx ← index d h;
  r ← lookup_chain d h k idx;
  match r with
  | Some (last, i, item) =>
      d1 ← (if last <? 0 then
              e ← at_ (entries d) i;
              bs ← upd (buckets d) idx (next e);
              Done (set_buckets d bs)
            else
              item' ← at_ (entries d) last;
              e ← at_ (entries d) i;
              es ← upd (entries d) last (set_next item' (next e));
              Done (set_entries d es));
      let empty := {| hash := 0; key := zero; value := zero;
                      next := freeCount d1; alive := false |} in
      es ← upd (entries d1) i empty;
      let d2 := set_freeCount (set_entries d1 es) i in
      let d3 := set_freeCount d2 (freeCount d2 + 1) in
      Done (d3, Some (value item))
  | None => Done (d, None)
  end.

(** [HashDict.Clear] *)
Definition Clear (d : hashMap) : hashMap :=
  set_entries
    (set_buckets d (replicate (length (buckets d)) (-1)))
    (replicate (length (entries d)) (zero : entry)).

(** [hashMapIterator.Next] on the cursor [index] over the table [d]; the
    cursor moves by one each round, so [length entries] rounds of fuel
    reach the end. *)
Fixpoint Next_loop (fuel : nat) (index : Z) (es : list entry)
    : outcome (Z * option (K * V)) :=
  if index <? len es - 1 then
    match fuel with
    | O => Diverge
    | S fuel' =>
        let index := index + 1 in
        item ← at_ es index;
        if alive item then Done (index, Some (key item, value item))
        else Next_loop fuel' index es
    end
  else Done (index, None).

Definition Next (index : Z) (d : hashMap) : outcome (Z * option (K * V)) :=
  Next_loop (length (entries d)) index (entries d).

(** [HashDict.Iter]: the cursor starts at -1. *)
Definition Iter : Z := -1.

(** A full iteration: [Next] until it answers [None], the table not
    being written in between. *)
Fixpoint drain (fuel : nat) (index : Z) (d : hashMap) : outcome (list (K * V)) :=
  r ← Next index d;
  match r with
  | (_, None) => Done []
  | (index', Some p) =>
      match fuel with
      | O => Diverge
      | S fuel' => rest ← drain fuel' index' d; Done (p :: rest)
      end
  end.

Definition full_iteration (d : hashMap) : outcome (list (K * V)) :=
  drain (length (entries d)) Iter d.

End Table.

Arguments entry : clear implicits.
Arguments hashMap : clear implicits.

(** ** Operation sequences *)

Section Runs.
Context {K V : Type} `{EqDecision K} `{Zero K} `{Zero V}.

(** The mutating methods of the table.  In a sequence the callback of
    [GetAndPut] is a function of the previous value alone
    ([pure_callback]). *)
Inductive op : Type :=
| OpPut (k : K) (v : V)
| OpGetAndPut (k : K) (set : option V → V)
| OpRemove (k : K)
| OpClear.

Definition step (d : hashMap K V) (o : op) : outcome (hashMap K V) :=
  match o with
  | OpPut k v => '(d', _) ← Put d k v; Done d'
  | OpGetAndPut k set => '(d', _) ← GetAndPut d k (pure_callback set); Done d'
  | OpRemove k => '(d', _) ← Remove d k; Done d'
  | OpClear => Done (Clear d)
  end.

Fixpoint run (d : hashMap K V) (ops : list op) : outcome (hashMap K V) :=
  match ops with
  | [] => Done d
  | o :: ops' => d' ← step d o; run d' ops'
  end.

(** [PutAll] over a slice of pairs, as [HashDictOf] does after
    [MakeHashDict]. *)
Definition PutAll (d : hashMap K V) (elements : list (K * V)) : outcome (hashMap K V) :=
  run d (map (λ p, OpPut p.1 p.2) elements).

End Runs.

Arguments op : clear implicits.

(** ** The set adapter

    [hash_set.go] keeps the elements of a [HashSet[T]] in a
    [HashMap[T, Void]] of the root package, which it builds with
    [MakeHashMap].  Neither is among the sources: the table of
    [dict/hash_dict.go] is [dict.HashDict], of another package.  The table
    of the set is therefore a parameter: the set is defined over any table
    that has the methods [hash_set.go] calls.

    [table] is the type [HashMap[T, Void]].  An iterator of the table is a
    state of type [table_iterator], and [table_Next] reads the table the
    iterator was made from.  [table_fuel] is the fuel of a loop over an
    iterator of the table: a bound on the number of pairs it yields.
    [Clone] is left out: a table is a value here, and a copy of a value is
    the value. *)
Class Table (T : Type) : Type := {
  table : Type;
  table_iterator : Type;
  MakeHashMap : (T → Z) → Z → outcome table;
  table_Put : table → T → unit → outcome (table * option unit);
  table_Remove : table → T → outcome (table * option unit);
  table_Contains : table → T → outcome bool;
  table_Size : table → Z;
  table_IsEmpty : table → bool;
  table_Clear : table → outcome table;
  table_Iter : table → table_iterator;
  table_Next : table → table_iterator → outcome (table_iterator * option (T * unit));
  table_fuel : table → nat
}.

Section Set_adapter.
Context {T : Type} `{Zero T} `{Table T}.

(** The element is the key and [Void{}] the value. *)
Record HashSet : Type := { inner : table }.

(** [MakeHashSet] *)
Definition MakeHashSet (hasher : T → Z) (capacity : Z) : outcome HashSet :=
  d ← MakeHashMap hasher capacity; Done {| inner := d |}.

(** [HashSet.Put] *)
Definition HashSet_Put (a : HashSet) (element : T) : outcome (HashSet * bool) :=
  '(d, r) ← table_Put (inner a) element tt;
  Done ({| inner := d |}, bool_decide (is_Some r)).

(** [HashSet.Remove] *)
Definition HashSet_Remove (a : HashSet) (element : T) : outcome (HashSet * bool) :=
  '(d, r) ← table_Remove (inner a) element;
  Done ({| inner := d |}, bool_decide (is_Some r)).

(** [HashSet.Contains] *)
Definition HashSet_Contains (a : HashSet) (element : T) : outcome bool :=
  table_Contains (inner a) element.

(** [HashSet.Size] *)
Definition HashSet_Size (a : HashSet) : Z := table_Size (inner a).

(** [HashSet.IsEmpty] *)
Definition HashSet_IsEmpty (a : HashSet) : bool := table_IsEmpty (inner a).

(** [HashSet.Clear] *)
Definition HashSet_Clear (a : HashSet) : outcome HashSet :=
  d ← table_Clear (inner a); Done {| inner := d |}.

(** [HashSet.PutAll] over the items the collection's iterator yields, in
    that order; the answers of [Put] are dropped. *)
Fixpoint HashSet_PutAll (a : HashSet) (elements : list T) : outcome HashSet :=
  match elements with
  | [] => Done a
  | item :: rest => r ← HashSet_Put a item; HashSet_PutAll r.1 rest
  end.

(** [HashSetOf]: the capacity is the number of elements; the loop puts
    each element in turn, as [PutAll] does. *)
Definition HashSetOf (hasher : T → Z) (elements : list T) : outcome HashSet :=
  let size := len elements in
  set ← MakeHashSet hasher size;
  HashSet_PutAll set elements.

(** [HashSet.ContainsAll] over the items the collection's iterator yields:
    the loop returns at the first element that is not contained. *)
Fixpoint HashSet_ContainsAll (a : HashSet) (elements : list T) : outcome bool :=
  match elements with
  | [] => Done true
  | item :: rest =>
      b ← HashSet_Contains a item;
      if (b : bool) then HashSet_ContainsAll a rest else Done false
  end.

(** [hashSetIterator.Next]: the key of the pair the table's iterator
    yields. *)
Definition hashSetIterator_Next (it : table_iterator) (a : HashSet)
    : outcome (table_iterator * option T) :=
  '(it', item) ← table_Next (inner a) it;
  match item with
  | Some v => Done (it', Some v.1)
  | None => Done (it', None)
  end.

(** A loop over the set's iterator: [Next] until it answers [None]. *)
Fixpoint HashSet_drain (fuel : nat) (it : table_iterator) (a : HashSet)
    : outcome (list T) :=
  r ← hashSetIterator_Next it a;
  match r with
  | (_, None) => Done []
  | (it', Some x) =>
      match fuel with
      | O => Diverge
      | S fuel' => rest ← HashSet_drain fuel' it' a; Done (x :: rest)
      end
  end.

(** The same loop over the table's own iterator. *)
Fixpoint table_drain (fuel : nat) (it : table_iterator) (d : table)
    : outcome (list (T * unit)) :=
  r ← table_Next d it;
  match r with
  | (_, None) => Done []
  | (it', Some p) =>
      match fuel with
      | O => Diverge
      | S fuel' => rest ← table_drain fuel' it' d; Done (p :: rest)
      end
  end.

(** A full iteration over the set, from [HashSet.Iter]. *)
Definition HashSet_full_iteration (a : HashSet) : outcome (list T) :=
  HashSet_drain (table_fuel (inner a)) (table_Iter (inner a)) a.

(** [HashSet.ToSlice] *)
Definition HashSet_ToSlice (a : HashSet) : outcome (list T) :=
  arr ← make (HashSet_Size a) (zero : T);
  items ← HashSet_full_iteration a;
  Done (arr ++ items).

End Set_adapter.

Arguments HashSet T {_}.

(** The table of [dict/hash_dict.go] has the methods the set calls.  It is
    not the set's own table, which is the root package's [HashMap]; it
    serves as a table on which the methods of the set can be run. *)
Global Instance HashDict_Table {T : Type} `{EqDecision T} `{Zero T} : Table T := {|
  table := hashMap T unit;
  table_iterator := Z;
  MakeHashMap := MakeHashDict;
  table_Put := Put;
  table_Remove := Remove;
  table_Contains := Contains;
  table_Size := Size;
  table_IsEmpty := IsEmpty;
  table_Clear := λ d, Done (Clear d);
  table_Iter := λ _, Iter;
  table_Next := λ d index, Next index d;
  table_fuel := λ d, length (entries d)
|}.

(** ** A reference dictionary

    What a sequence of operations means for a caller: an association list
    with one pair per key, in order of first insertion. *)

Section Reference.
Context {K V : Type} `{EqDecision K}.

Fixpoint ref_get (m : list (K * V)) (k : K) : option V :=
  match m with
  | [] => None
  | (k', v) :: m' => if decide (k' = k) then Some v else ref_get m' k
  end.

Fixpoint ref_put (m : list (K * V)) (k : K) (v : V) : list (K * V) :=
  match m with
  | [] => [(k, v)]
  | (k', v') :: m' =>
      if decide (k' = k) then (k, v) :: m' else (k', v') :: ref_put m' k v
  end.

Definition ref_remove (m : list (K * V)) (k : K) : list (K * V) :=
  filter (λ p, p.1 ≠ k) m.

Definition ref_step (m : list (K * V)) (o : op K V) : list (K * V) :=
  match o with
  | OpPut k v => ref_put m k v
  | OpGetAndPut k set => ref_put m k (set (ref_get m k))
  | OpRemove k => ref_remove m k
  | OpClear => []
  end.

Definition ref_run (ops : list (op K V)) : list (K * V) :=
  foldl ref_step [] ops.

End Reference.

(** ** Concrete tables

    Tables with [int] keys and values under [NumberHasher], built the way a
    caller builds them: [MakeHashDict] with capacity 0, then a sequence of
    operations. *)

Definition fresh_dict : outcome (hashMap Z Z) := MakeHashDict NumberHasher 0.

(** [Put(n, 10*n)] for [n = from, ..., from + count - 1]. *)
Definition put_range (from count : nat) : list (op Z Z) :=
  map (λ n, OpPut (Z.of_nat n) (Z.of_nat n * 10)) (seq from count).

Definition dict_after (ops : list (op Z Z)) : outcome (hashMap Z Z) :=
  d ← fresh_dict; run d ops.

(** The pairs [(n, 10*n)] for [n < count]. *)
Definition pairs_upto (count : nat) : list (Z * Z) :=
  map (λ n, (Z.of_nat n, Z.of_nat n * 10)) (seq 0 count).

Definition fresh_set : outcome (HashSet Z) := MakeHashSet NumberHasher 0.

(** Two keys of one bucket, a key of another bucket, and the removal of
    the latter. *)
Definition colliding_ops : list (op Z Z) :=
  [OpPut 0 0; OpPut 16 160; OpPut 1 10; OpRemove 1].

(** ** Notions used in the statements *)

Definition is_pow2 (n : Z) : Prop := ∃ k, 0 ≤ k ∧ n = 2 ^ k.

(** [n] is the least power of two from 16 on that is not below
    [max capacity 0]. *)
Definition least_bucket_count (capacity n : Z) : Prop :=
  ∃ j, 4 ≤ j ∧ n = 2 ^ j ∧ Z.max capacity 0 ≤ n
       ∧ ∀ m, 4 ≤ m → Z.max capacity 0 ≤ 2 ^ m → n ≤ 2 ^ m.

(** The values the loop variable of [bucketsSizeFor] takes once [size] is
    above [2^62]. *)
Definition doubling_orbit (b : Z) : Prop :=
  (∃ k, 4 ≤ k ≤ 62 ∧ b = 2 ^ k) ∨ b = - 2 ^ 63 ∨ b = 0.

Section Notions.
Context {K V : Type}.
Implicit Types d : hashMap K V.
Implicit Types e : entry K V.

(** How an operation may change the number of buckets. *)
Definition same_or_doubled d d' : Prop :=
  len (buckets d') = len (buckets d) ∨ len (buckets d') = len (buckets d) * 2.

(** Two entries that differ at most in their [next] link. *)
Definition same_payload e e' : Prop :=
  hash e' = hash e ∧ key e' = key e ∧ value e' = value e ∧ alive e' = alive e.

(** The number of slots with [alive = true]. *)
Definition live_count d : Z :=
  len (filter (λ e, alive e = true) (entries d)).

(** The pairs of the live slots, in slot order. *)
Definition live_pairs d : list (K * V) :=
  map (λ e, (key e, value e)) (filter (λ e, alive e = true) (entries d)).

(** What [Next] answers with the cursor just before the slots [rest],
    the first of which has index [pos]. *)
Fixpoint first_live (pos : Z) (rest : list (entry K V)) : Z * option (K * V) :=
  match rest with
  | [] => (pos - 1, None)
  | e :: rest' =>
      if alive e then (pos, Some (key e, value e))
      else first_live (pos + 1) rest'
  end.

End Notions.

(** ** The string hasher

    [StringHasher] feeds the bytes of the key to Go's [fnv.New32a] and
    converts the 32-bit sum to [int]: from the offset basis, each byte is
    xored into the hash, which is then multiplied by the FNV prime modulo
    [2^32]. *)

Definition fnv_offset32 : Z := 2166136261.
Definition fnv_prime32 : Z := 16777619.

Definition fnv1a_step (h : Z) (c : Ascii.ascii) : Z :=
  (Z.lxor h (Z.of_N (Ascii.N_of_ascii c)) * fnv_prime32) mod 2 ^ 32.

Definition StringHasher (t : string) : Z :=
  fold_left fnv1a_step (String.list_ascii_of_string t) fnv_offset32.

Global Instance Zero_string : Zero string := String.EmptyString.

(** ** The other methods and constructors of the table *)

Section Table_more.
Context {K V : Type} `{EqDecision K} `{Zero K} `{Zero V}.

(** [HashDict.Get]: [panic(OutOfBounds)] when the key is not found. *)
Definition Get (d : hashMap K V) (k : K) : outcome V :=
  r ← TryGet d k;
  match r with
  | Some v => Done v
  | None => Panic
  end.

(** [HashDictOf]: the capacity is the number of elements; the loop puts
    each pair in turn, which is [PutAll] over the slice. *)
Definition HashDictOf (hasher : K → Z) (elements : list (K * V)) : outcome (hashMap K V) :=
  let size := len elements in
  dict ← MakeHashDict hasher size;
  PutAll dict elements.

(** [HashDict.ToSlice]: a slice of [Size()] zero pairs is made, and every
    pair of the iteration is appended to it ([ForEach], of the root package,
    calls its function on each item of a new iterator). *)
Definition ToSlice (d : hashMap K V) : outcome (list (K * V)) :=
  arr ← make (Size d) ((zero, zero) : K * V);
  items ← full_iteration d;
  Done (arr ++ items).

End Table_more.

(** [MakeNumberDict], [MakeStringDict], [NumberDictOf] and [StringDictOf]
    at key type [int] and [string]. *)
Definition MakeNumberDict {V : Type} `{Zero V} (capacity : Z) : outcome (hashMap Z V) :=
  MakeHashDict NumberHasher capacity.

Definition MakeStringDict {V : Type} `{Zero V} (capacity : Z) : outcome (hashMap string V) :=
  MakeHashDict StringHasher capacity.

Definition NumberDictOf {V : Type} `{Zero V} (elements : list (Z * V)) : outcome (hashMap Z V) :=
  HashDictOf NumberHasher elements.

Definition StringDictOf {V : Type} `{Zero V} (elements : list (string * V)) : outcome (hashMap string V) :=
  HashDictOf StringHasher elements.

(** ** Chains and the shape of a table

    The notions the proofs about sequences of operations are stated with. *)

Section Shape.
Context {K V : Type} `{EqDecision K}.
Implicit Types d : hashMap K V.
Implicit Types es : list (entry K V).

(** [is_chain es i l]: following the [next] links from slot [i] visits the
    slots [l] in this order, all of them live, and then meets a negative
    link. *)
Inductive is_chain es : Z → list Z → Prop :=
| is_chain_end i : i < 0 → is_chain es i []
| is_chain_step i e l :
    at_ es i = Done e → alive e = true → is_chain es (next e) l →
    is_chain es i (i :: l).

(** The first slot of [l] that holds the hash [h] and the key [k], with
    [last] as the walk hands it on. *)
Fixpoint find_in es (h : Z) (k : K) (last : Z) (l : list Z)
    : option (Z * Z * entry K V) :=
  match l with
  | [] => None
  | i :: l' =>
      match at_ es i with
      | Done e =>
          if (hash e =? h) && bool_decide (key e = k) then Some (last, i, e)
          else find_in es h k last l'
      | _ => None
      end
  end.

(** [shape d ch]: the table [d] is made of the chains [ch b], one per
    bucket [b].  No slot is in two chains or twice in one, every live slot
    is below [appendCount] and holds a hash that is not negative, a slot
    is left for the next append, and the free list is not in use. *)
Record shape d (ch : Z → list Z) : Prop := {
  shape_buckets : 0 < len (buckets d);
  shape_append : 0 ≤ appendCount d < len (entries d);
  shape_free : freeSize d = 0;
  shape_load : loadFactor d = 1;
  shape_chain : ∀ b head,
    at_ (buckets d) b = Done head → is_chain (entries d) head (ch b);
  shape_range : ∀ b, ¬ (0 ≤ b < len (buckets d)) → ch b = [];
  shape_live : ∀ i e,
    at_ (entries d) i = Done e → alive e = true →
    i < appendCount d ∧ 0 ≤ hash e;
  shape_nodup : ∀ b, NoDup (ch b);
  shape_disjoint : ∀ b1 b2 i, i ∈ ch b1 → i ∈ ch b2 → b1 = b2
}.

Definition well_shaped d : Prop := ∃ ch, shape d ch.

(** [refines d ch m]: on top of [shape], every live slot is in the chain of
    the bucket its hash selects now, holds the hash of its key, no two live
    slots hold the same key, and the live pairs in slot order are the
    association list [m]. *)
Record refines d (ch : Z → list Z) (m : list (K * V)) : Prop := {
  refines_shape : shape d ch;
  refines_bucket : ∀ b i e,
    i ∈ ch b → at_ (entries d) i = Done e →
    hash e = hasher d (key e) ∧ Z.rem (hash e) (len (buckets d)) = b;
  refines_complete : ∀ i e,
    at_ (entries d) i = Done e → alive e = true →
    i ∈ ch (Z.rem (hash e) (len (buckets d)));
  refines_keys : NoDup m.*1;
  refines_pairs : live_pairs d = m
}.

(** The hash of the key of an operation is not negative. *)
Definition op_hash_nonneg (h : K → Z) (o : op K V) : Prop :=
  match o with
  | OpPut k _ | OpGetAndPut k _ | OpRemove k => 0 ≤ h k
  | OpClear => True
  end.

(** The keys of the operations, in order. *)
Definition op_keys (ops : list (op K V)) : list K :=
  omap (λ o, match o with
             | OpPut k _ | OpGetAndPut k _ | OpRemove k => Some k
             | OpClear => None
             end) ops.

(** Among [n] buckets, no key of [keys] other than [k] falls into the
    bucket of [k]. *)
Definition alone_in_bucket (h : K → Z) (n : Z) (keys : list K) (k : K) : Prop :=
  Forall (λ k', k' = k ∨ Z.rem (h k') n ≠ Z.rem (h k) n) keys.

(** Every key that the operations remove is alone in its bucket among the
    keys [keys]. *)
Definition removes_alone (h : K → Z) (n : Z) (keys : list K)
    (ops : list (op K V)) : Prop :=
  Forall (λ o, match o with
               | OpRemove k => alone_in_bucket h n keys k
               | _ => True
               end) ops.

(** The result of a walk after the value of slot [i] has been replaced. *)
Definition with_value (i : Z) (v : V) (r : option (Z * Z * entry K V))
    : option (Z * Z * entry K V) :=
  match r with
  | Some (last, j, item) =>
      Some (last, j, if decide (j = i) then set_value item v else item)
  | None => None
  end.

(** The table after a new entry has been appended at slot [appendCount]
    and linked as the head of bucket [idx]. *)
Definition linked d (idx head h : Z) (k : K) (v : V) : hashMap K V :=
  set_buckets
    (set_entries (set_appendCount d (appendCount d + 1))
       (<[Z.to_nat (appendCount d) :=
            {| hash := h; key := k; value := v; next := head; alive := true |}]>
          (entries d)))
    (<[Z.to_nat idx := appendCount d]> (buckets d)).

(** The table after [Remove] has found the key in slot [i] of the chain of
    bucket [idx]: the bucket is pointed at the link of the slot, whatever
    comes before the slot in the chain, and the slot is cleared. *)
Definition after_Remove `{Zero K} `{Zero V} d (idx : Z) (i : Z)
    (item : entry K V) : hashMap K V :=
  set_freeCount
    (set_entries
       (set_buckets d (<[Z.to_nat idx := next item]> (buckets d)))
       (<[Z.to_nat i := {| hash := 0; key := zero; value := zero;
                           next := freeCount d; alive := false |}]>
          (entries d)))
    (i + 1).

(** The invariant of the rehash loop of [grow] before round [i]: the new
    buckets head chains [ch] over the slots below [i]. *)
Record rehashed es (nb : list Z) (ch : Z → list Z) (i : Z) : Prop := {
  rehashed_chain : ∀ b head, at_ nb b = Done head → is_chain es head (ch b);
  rehashed_range : ∀ b, ¬ (0 ≤ b < len nb) → ch b = [];
  rehashed_below : ∀ b j, j ∈ ch b → j < i;
  rehashed_nodup : ∀ b, NoDup (ch b);
  rehashed_disjoint : ∀ b1 b2 j, j ∈ ch b1 → j ∈ ch b2 → b1 = b2
}.

End Shape.

(** * Basic facts *)

Lemma bind_Done {A B : Type} (m : outcome A) (f : A → outcome B) (b : B) :
  (m ≫= f) = Done b → ∃ a, m = Done a ∧ f a = Done b.
Proof. destruct m; simpl; intros E; try discriminate. eauto. Qed.

(** Peel the binds of a hypothesis [H : ... = Done _]. *)
Tactic Notation "done_inv" hyp(H) "as" simple_intropattern(a) ident(E) :=
  apply bind_Done in H; destruct H as (a & E & H).

Lemma at_Done {A : Type} (l : list A) (i : Z) (x : A) :
  at_ l i = Done x ↔ 0 ≤ i ∧ l !! Z.to_nat i = Some x.
Proof.
  unfold at_. destruct (Z.ltb_spec i 0).
  - split; [discriminate | lia].
  - destruct (l !! Z.to_nat i) eqn:E; split; intros; try discriminate;
      try (destruct_and?; congruence).
    split; [lia | congruence].
Qed.

Lemma at_neg {A : Type} (l : list A) (i : Z) : i < 0 → at_ l i = Panic.
Proof. intros Hi. unfold at_. destruct (Z.ltb_spec i 0); [done | lia]. Qed.

Lemma upd_Done {A : Type} (l l' : list A) (i : Z) (x : A) :
  upd l i x = Done l' ↔ 0 ≤ i < len l ∧ l' = <[Z.to_nat i := x]> l.
Proof.
  unfold upd. destruct (Z.ltb_spec i 0).
  - split; [discriminate | lia].
  - destruct (Z.ltb_spec i (len l)); split; intros; try discriminate;
      try lia; destruct_and?; [split; [lia | congruence] | congruence].
Qed.

Lemma upd_length {A : Type} (l l' : list A) (i : Z) (x : A) :
  upd l i x = Done l' → length l' = length l.
Proof. intros [_ ->]%upd_Done. apply length_insert. Qed.

Lemma make_Done {A : Type} (n : Z) (x : A) (l : list A) :
  make n x = Done l ↔ 0 ≤ n ∧ l = replicate (Z.to_nat n) x.
Proof.
  unfold make. destruct (Z.ltb_spec n 0); split; intros; try discriminate;
    try lia; destruct_and?; [split; [lia | congruence] | congruence].
Qed.

Lemma len_replicate {A : Type} (n : Z) (x : A) :
  0 ≤ n → len (replicate (Z.to_nat n) x) = n.
Proof. intros. unfold len. rewrite length_replicate. lia. Qed.

Lemma wrap_small (z : Z) : - 2 ^ 63 ≤ z < 2 ^ 63 → wrap z = z.
Proof. intros. unfold wrap. rewrite Z.mod_small; lia. Qed.

Lemma at_range {A : Type} (l : list A) (i : Z) (x : A) :
  at_ l i = Done x → 0 ≤ i < len l.
Proof.
  intros [Hi Hl]%at_Done. apply lookup_lt_Some in Hl. unfold len. lia.
Qed.

Lemma upd_in_range {A : Type} (l : list A) (i : Z) (x : A) :
  0 ≤ i < len l → upd l i x = Done (<[Z.to_nat i := x]> l).
Proof. intros. by apply upd_Done. Qed.

Lemma len_insert {A : Type} (l : list A) (i : nat) (x : A) :
  len (<[i := x]> l) = len l.
Proof. unfold len. by rewrite length_insert. Qed.

Lemma len_app {A : Type} (l1 l2 : list A) : len (l1 ++ l2) = len l1 + len l2.
Proof. unfold len. rewrite length_app. lia. Qed.

Lemma len_cons {A : Type} (x : A) (l : list A) : len (x :: l) = 1 + len l.
Proof. unfold len. cbn [length]. lia. Qed.

Lemma len_nonneg {A : Type} (l : list A) : 0 ≤ len l.
Proof. unfold len. lia. Qed.

Lemma at_app_middle {A : Type} (pre rest : list A) (x : A) :
  at_ (pre ++ x :: rest) (len pre) = Done x.
Proof.
  apply at_Done. split; [apply len_nonneg|].
  unfold len. rewrite Nat2Z.id. by apply list_lookup_middle.
Qed.

(** * Construction: the size of the bucket array *)

Lemma pow2_le_inv (a b : Z) : 0 ≤ a → 0 ≤ b → 2 ^ a < 2 ^ b → a < b.
Proof. intros Ha Hb Hlt. apply (Z.pow_lt_mono_r_iff 2); lia. Qed.

Lemma pow2_double (k : Z) : 0 ≤ k → 2 ^ k * 2 = 2 ^ (k + 1).
Proof. intros. rewrite Z.pow_add_r by lia. lia. Qed.

(** The loop started at [2^k] stops at the first power of two that is not
    below [size]. *)
Lemma bucketsSizeFor_loop_stops (fuel : nat) (k size : Z) :
  4 ≤ k ≤ 62 → size ≤ 2 ^ 62 → 62 - k < Z.of_nat fuel →
  ∃ j, k ≤ j ≤ 62 ∧ bucketsSizeFor_loop fuel (2 ^ k) size = Done (2 ^ j)
       ∧ size ≤ 2 ^ j ∧ (j = k ∨ 2 ^ (j - 1) < size).
Proof.
  revert k. induction fuel as [|fuel IH]; intros k Hk Hsize Hfuel.
  - lia.
  - cbn [bucketsSizeFor_loop]. destruct (Z.ltb_spec (2 ^ k) size) as [Hlt|Hge].
    + assert (k < 62) by (apply pow2_le_inv; lia).
      assert (2 ^ (k + 1) ≤ 2 ^ 62) by (apply Z.pow_le_mono_r; lia).
      rewrite pow2_double, wrap_small by lia.
      destruct (IH (k + 1)) as (j & Hj & Hrun & Hle & Hmin); [lia..|].
      exists j. split; [lia|]. split; [done|]. split; [done|].
      right. destruct Hmin as [->|Hmin]; [|done].
      by replace (k + 1 - 1) with k by lia.
    + exists k. split; [lia|]. split; [done|]. split; [lia|]. by left.
Qed.

Lemma doubling_orbit_next (b : Z) :
  doubling_orbit b → doubling_orbit (wrap (b * 2)).
Proof.
  intros [(k & Hk & ->)|[->| ->]].
  - destruct (decide (k = 62)) as [->|Hne].
    + right; left. reflexivity.
    + left. exists (k + 1). split; [lia|].
      assert (2 ^ (k + 1) ≤ 2 ^ 62) by (apply Z.pow_le_mono_r; lia).
      rewrite pow2_double, wrap_small; lia.
  - right; right. reflexivity.
  - right; right. reflexivity.
Qed.

Lemma doubling_orbit_bound (b : Z) : doubling_orbit b → b ≤ 2 ^ 62.
Proof.
  intros [(k & Hk & ->)|[->| ->]]; [|lia..].
  apply Z.pow_le_mono_r; lia.
Qed.

(** Above [2^62] the doubling wraps to 0 and the loop never ends, whatever
    the fuel. *)
Lemma bucketsSizeFor_loop_diverges (fuel : nat) (b size : Z) :
  doubling_orbit b → 2 ^ 62 < size →
  bucketsSizeFor_loop fuel b size = Diverge.
Proof.
  revert b. induction fuel as [|fuel IH]; intros b Hb Hsize;
    cbn [bucketsSizeFor_loop]; pose proof (doubling_orbit_bound b Hb);
    destruct (Z.ltb_spec b size); try lia; [done|].
  apply IH; [by apply doubling_orbit_next | done].
Qed.

Lemma bucketsSizeFor_Done (size : Z) :
  size ≤ 2 ^ 62 →
  ∃ j, 4 ≤ j ≤ 62 ∧ bucketsSizeFor size = Done (2 ^ j)
       ∧ size ≤ 2 ^ j ∧ (j = 4 ∨ 2 ^ (j - 1) < size).
Proof.
  intros Hsize. unfold bucketsSizeFor.
  destruct (bucketsSizeFor_loop_stops 64 4 size) as (j & ? & ? & ? & ?);
    [lia..|].
  exists j. split; [lia|]. by repeat split.
Qed.

Lemma bucketsSizeFor_large (size : Z) :
  2 ^ 62 < size → bucketsSizeFor size = Diverge.
Proof.
  intros. apply bucketsSizeFor_loop_diverges; [|done].
  left. exists 4. split; [lia | reflexivity].
Qed.

Lemma least_bucket_count_pow2 (capacity n : Z) :
  least_bucket_count capacity n → is_pow2 n ∧ 16 ≤ n.
Proof.
  intros (j & Hj & -> & _). split; [exists j; split; [lia | done]|].
  change 16 with (2 ^ 4). apply Z.pow_le_mono_r; lia.
Qed.

Section Construction.
Context {K V : Type} `{EqDecision K} `{Zero K} `{Zero V}.

Lemma MakeHashDict_Done (hasher0 : K → Z) (capacity : Z) :
  capacity ≤ 2 ^ 62 →
  ∃ d : hashMap K V,
    MakeHashDict hasher0 capacity = Done d
    ∧ least_bucket_count capacity (len (buckets d))
    ∧ (∀ i b, buckets d !! i = Some b → b = -1)
    ∧ entries d = replicate (Z.to_nat (Z.max capacity 10)) zero
    ∧ appendCount d = 0 ∧ freeCount d = 0 ∧ freeSize d = 0
    ∧ hasher d = hasher0 ∧ loadFactor d = 1.
Proof.
  intros Hcap.
  destruct (bucketsSizeFor_Done capacity Hcap) as (j & Hj & Hrun & Hle & Hmin).
  assert (0 < 2 ^ j) by (apply Z.pow_pos_nonneg; lia).
  unfold MakeHashDict. rewrite Hrun. cbn [mbind outcome_bind obind].
  unfold make. destruct (Z.ltb_spec (2 ^ j) 0); [lia|].
  cbn [obind]. unfold defaultElementsSize.
  set (size := if capacity <? 10 then 10 else capacity).
  assert (size = Z.max capacity 10) as Hsz
    by (unfold size; destruct (Z.ltb_spec capacity 10); lia).
  destruct (Z.ltb_spec size 0); [lia|]. cbn [obind].
  eexists. split; [reflexivity|]. cbn.
  repeat split; try done.
  - exists j. rewrite len_replicate by lia. repeat split; try lia.
    intros m Hm Hcapm. destruct Hmin as [->|Hmin].
    + apply Z.pow_le_mono_r; lia.
    + assert (j - 1 < m) by (apply pow2_le_inv; lia).
      apply Z.pow_le_mono_r; lia.
  - intros i b [-> _]%lookup_replicate. done.
  - by rewrite Hsz.
Qed.

Lemma MakeHashDict_large (hasher0 : K → Z) (capacity : Z) :
  2 ^ 62 < capacity → MakeHashDict (V:=V) hasher0 capacity = Diverge.
Proof.
  intros. unfold MakeHashDict. by rewrite bucketsSizeFor_large.
Qed.

End Construction.

(** * The bucket array under the operations *)

Section Bucket_count.
Context {K V : Type} `{EqDecision K} `{Zero K} `{Zero V}.
Implicit Types d : hashMap K V.

Lemma rehash_length (n : nat) (i s : Z) (es es' : list (entry K V)) (nb nb' : list Z) :
  rehash n i s es nb = Done (es', nb') →
  length es' = length es ∧ length nb' = length nb.
Proof.
  revert i es nb. induction n as [|n IH]; intros i es nb Hrun; cbn [rehash] in Hrun.
  - by inversion Hrun.
  - done_inv Hrun as v Ev. destruct (alive v).
    + done_inv Hrun as hd Ehd. done_inv Hrun as es1 Ees. done_inv Hrun as nb1 Enb.
      apply IH in Hrun as [-> ->].
      split; eapply upd_length; eassumption.
    + by apply IH in Hrun.
Qed.

Lemma grow_buckets d d' (newSize : Z) :
  grow d newSize = Done d' → same_or_doubled d d'.
Proof.
  unfold grow. intros Hrun. done_inv Hrun as d1 Ed1.
  assert (same_or_doubled d d1) as Hsd.
  { destruct (len (buckets d) =? 0); [done|].
    destruct (loadFactor d <? _).
    - done_inv Ed1 as nb0 Emk. done_inv Ed1 as [es nb] Ere.
      inversion Ed1; subst d1. clear Ed1.
      apply make_Done in Emk as [Hpos ->].
      apply rehash_length in Ere as [_ Hnb].
      right. unfold len in *. cbn. rewrite Hnb, length_replicate. lia.
    - inversion Ed1; subst. by left. }
  destruct (len (entries d) <? newSize).
  - done_inv Hrun as ne Ene. inversion Hrun; subst d'. exact Hsd.
  - inversion Hrun; subst d'. exact Hsd.
Qed.

Lemma take_slot_buckets d d' (bucket : Z) :
  take_slot d = Done (bucket, d') → same_or_doubled d d'.
Proof.
  unfold take_slot. destruct (0 <? freeSize d); intros Hrun.
  - done_inv Hrun as e Ee. inversion Hrun; subst. by left.
  - done_inv Hrun as d1 Ed1. inversion Hrun; subst.
    apply grow_buckets in Ed1. exact Ed1.
Qed.

Lemma link_new_buckets d d' (idx bucket h : Z) (k : K) (v : V) :
  link_new d idx bucket h k v = Done d' → len (buckets d') = len (buckets d).
Proof.
  unfold link_new. intros Hrun.
  done_inv Hrun as hd Ehd. done_inv Hrun as es Ees. done_inv Hrun as bs Ebs.
  inversion Hrun; subst d'.
  cbn. unfold len. by rewrite (upd_length _ _ _ _ Ebs).
Qed.

Lemma Put_buckets d d' (k : K) (v : V) (r : option V) :
  Put d k v = Done (d', r) → same_or_doubled d d'.
Proof.
  unfold Put. intros Hrun.
  done_inv Hrun as idx Eidx. done_inv Hrun as [[[last i] item]|] Efind.
  - done_inv Hrun as es Ees. inversion Hrun; subst. by left.
  - done_inv Hrun as [bucket d1] Eslot. done_inv Hrun as d2 Elink.
    inversion Hrun; subst. apply take_slot_buckets in Eslot.
    apply link_new_buckets in Elink. unfold same_or_doubled in *. by rewrite Elink.
Qed.

Lemma GetAndPut_buckets d d' (k : K) (set : hashMap K V → option V → outcome V)
    (r : V * option V) :
  GetAndPut d k set = Done (d', r) → same_or_doubled d d'.
Proof.
  unfold GetAndPut. intros Hrun.
  done_inv Hrun as idx Eidx. done_inv Hrun as [[[last i] item]|] Efind.
  - done_inv Hrun as newValue Eset. done_inv Hrun as es Ees.
    inversion Hrun; subst. by left.
  - done_inv Hrun as [bucket d1] Eslot. done_inv Hrun as newValue Eset.
    done_inv Hrun as d2 Elink.
    inversion Hrun; subst. apply take_slot_buckets in Eslot.
    apply link_new_buckets in Elink. unfold same_or_doubled in *. by rewrite Elink.
Qed.

Lemma Remove_buckets d d' (k : K) (r : option V) :
  Remove d k = Done (d', r) → len (buckets d') = len (buckets d).
Proof.
  unfold Remove. intros Hrun.
  done_inv Hrun as idx Eidx. done_inv Hrun as [[[last i] item]|] Efind.
  - done_inv Hrun as d1 Ed1. done_inv Hrun as es Ees.
    inversion Hrun; subst. cbn.
    destruct (last <? 0).
    + done_inv Ed1 as e Ee. done_inv Ed1 as bs Ebs. inversion Ed1; subst. cbn.
      unfold len. by rewrite (upd_length _ _ _ _ Ebs).
    + done_inv Ed1 as e1 Ee1. done_inv Ed1 as e Ee. done_inv Ed1 as es1 Ees1.
      by inversion Ed1; subst.
  - by inversion Hrun; subst.
Qed.

Lemma Clear_buckets d : len (buckets (Clear d)) = len (buckets d).
Proof. unfold len. cbn. by rewrite length_replicate. Qed.

Lemma step_buckets d d' (o : op K V) :
  step d o = Done d' → same_or_doubled d d'.
Proof.
  destruct o as [k v|k set|k|]; cbn [step]; intros Hrun.
  - done_inv Hrun as [d1 r] E. inversion Hrun; subst.
    by eapply Put_buckets.
  - done_inv Hrun as [d1 r] E. inversion Hrun; subst.
    by eapply GetAndPut_buckets.
  - done_inv Hrun as [d1 r] E. inversion Hrun; subst.
    left. by eapply Remove_buckets.
  - inversion Hrun; subst. left. apply Clear_buckets.
Qed.

Lemma same_or_doubled_pow2 d d' :
  same_or_doubled d d' → is_pow2 (len (buckets d)) →
  is_pow2 (len (buckets d')) ∧ len (buckets d) ≤ len (buckets d').
Proof.
  intros [->| ->] (j & Hj & Hlen); rewrite Hlen.
  - split; [by exists j | lia].
  - assert (0 < 2 ^ j) by (apply Z.pow_pos_nonneg; lia).
    split; [|lia]. exists (j + 1). split; [lia|]. by apply pow2_double.
Qed.

Lemma run_buckets (ops : list (op K V)) d d' :
  run d ops = Done d' → is_pow2 (len (buckets d)) →
  is_pow2 (len (buckets d')) ∧ len (buckets d) ≤ len (buckets d').
Proof.
  revert d. induction ops as [|o ops IH]; intros d Hrun Hpow; cbn [run] in Hrun.
  - inversion Hrun; subst. split; [done | lia].
  - done_inv Hrun as d1 E. apply step_buckets in E.
    destruct (same_or_doubled_pow2 _ _ E Hpow) as [Hpow1 Hle1].
    destruct (IH _ Hrun Hpow1) as [Hpow2 Hle2]. split; [done | lia].
Qed.

(** C9. [MakeHashDict] gives the bucket array the least power of two that
    is at least [max capacity 0] and at least 16 (for every capacity up
    to [2^62]; above, the doubling loop of [bucketsSizeFor] never ends
    and no table is made, [MakeHashDict_large]).  After any sequence of
    [Put], [GetAndPut], [Remove] and [Clear] that returns, the number of
    buckets is still a power of two, and from any table reached on the
    way to any later one it has not become smaller. *)
Theorem bucket_count_power_of_two (hasher0 : K → Z) (capacity : Z) :
  capacity ≤ 2 ^ 62 →
  ∃ d : hashMap K V,
    MakeHashDict hasher0 capacity = Done d
    ∧ least_bucket_count capacity (len (buckets d))
    ∧ ∀ (ops1 ops2 : list (op K V)) d1 d2,
        run d ops1 = Done d1 → run d1 ops2 = Done d2 →
        is_pow2 (len (buckets d1)) ∧ is_pow2 (len (buckets d2))
        ∧ len (buckets d) ≤ len (buckets d1) ≤ len (buckets d2).
Proof.
  intros Hcap.
  destruct (MakeHashDict_Done (V:=V) hasher0 capacity Hcap) as (d & Hmk & Hleast & _).
  exists d. split; [done|]. split; [done|].
  intros ops1 ops2 d1 d2 Hrun1 Hrun2.
  destruct (least_bucket_count_pow2 _ _ Hleast) as [Hpow _].
  destruct (run_buckets _ _ _ Hrun1 Hpow) as [Hpow1 Hle1].
  destruct (run_buckets _ _ _ Hrun2 Hpow1) as [Hpow2 Hle2].
  repeat split; done.
Qed.

End Bucket_count.

(** The statement at capacity 21 under [NumberHasher]. *)
Lemma bucket_count_power_of_two_witness :
  21 ≤ 2 ^ 62
  ∧ ∃ d : hashMap Z Z,
      MakeHashDict NumberHasher 21 = Done d
      ∧ least_bucket_count 21 (len (buckets d))
      ∧ ∀ (ops1 ops2 : list (op Z Z)) d1 d2,
          run d ops1 = Done d1 → run d1 ops2 = Done d2 →
          is_pow2 (len (buckets d1)) ∧ is_pow2 (len (buckets d2))
          ∧ len (buckets d) ≤ len (buckets d1) ≤ len (buckets d2).
Proof.
  split; [vm_compute; discriminate|].
  apply (bucket_count_power_of_two NumberHasher 21).
  vm_compute; discriminate.
Defined.

(** * Keys with a negative hash *)

Section Negative_hash.
Context {K V : Type} `{EqDecision K} `{Zero K} `{Zero V}.
Implicit Types d : hashMap K V.

Lemma rem_negative (h n : Z) : h < 0 → 0 ≤ n → Z.rem h n ≠ 0 → Z.rem h n < 0.
Proof.
  intros Hh Hn Hnz. destruct (decide (n = 0)) as [->|Hn0].
  - by destruct h.
  - assert (Z.rem h n ≤ 0) by (apply Z.rem_nonpos; lia). lia.
Qed.

Lemma lookup_chain_negative d (h : Z) (k : K) (idx : Z) :
  idx < 0 → lookup_chain d h k idx = Panic.
Proof. intros Hi. unfold lookup_chain. by rewrite at_neg. Qed.

Lemma index_negative d (h : Z) :
  h < 0 → Z.rem h (len (buckets d)) ≠ 0 →
  index d h = Panic ∨ ∃ idx, index d h = Done idx ∧ idx < 0.
Proof.
  intros Hh Hnz. unfold index. destruct (len (buckets d) =? 0); [by left|].
  right. eexists. split; [done|]. apply rem_negative; [done| |done].
  unfold len. lia.
Qed.

(** C10, as amended.  For every table and every key whose hash is
    negative and not a multiple of the number of buckets, the remainder
    [hash % len(buckets)] is negative, and [TryGet], [Put], [GetAndPut],
    [Remove] and [Contains] on that key panic. *)
Theorem negative_index_panics d (k : K) (v : V)
    (set : hashMap K V → option V → outcome V) :
  hasher d k < 0 →
  Z.rem (hasher d k) (len (buckets d)) ≠ 0 →
  Z.rem (hasher d k) (len (buckets d)) < 0
  ∧ TryGet d k = Panic
  ∧ Put d k v = Panic
  ∧ GetAndPut d k set = Panic
  ∧ Remove d k = Panic
  ∧ Contains d k = Panic.
Proof.
  intros Hh Hnz. split.
  { apply rem_negative; [done| |done]. unfold len. lia. }
  assert (TryGet d k = Panic) as Hget.
  { unfold TryGet. destruct (index_negative d _ Hh Hnz) as [->|(idx & -> & Hidx)];
      [done|]. cbn. by rewrite lookup_chain_negative. }
  repeat split; [done|..].
  - unfold Put. destruct (index_negative d _ Hh Hnz) as [->|(idx & -> & Hidx)];
      [done|]. cbn. by rewrite lookup_chain_negative.
  - unfold GetAndPut. destruct (index_negative d _ Hh Hnz) as [->|(idx & -> & Hidx)];
      [done|]. cbn. by rewrite lookup_chain_negative.
  - unfold Remove. destruct (index_negative d _ Hh Hnz) as [->|(idx & -> & Hidx)];
      [done|]. cbn. by rewrite lookup_chain_negative.
  - unfold Contains. by rewrite Hget.
Qed.

End Negative_hash.

(** The amended statement at the key -1 of a new table. *)
Lemma negative_index_panics_witness :
  ∃ d : hashMap Z Z,
    fresh_dict = Done d
    ∧ hasher d (-1) < 0
    ∧ Z.rem (hasher d (-1)) (len (buckets d)) ≠ 0
    ∧ Z.rem (hasher d (-1)) (len (buckets d)) < 0
    ∧ TryGet d (-1) = Panic
    ∧ Put d (-1) 5 = Panic
    ∧ GetAndPut d (-1) (λ _ _, Done 5) = Panic
    ∧ Remove d (-1) = Panic
    ∧ Contains d (-1) = Panic.
Proof.
  eexists. split; [vm_compute; reflexivity|].
  split; [vm_compute; reflexivity|].
  split; [vm_compute; discriminate|].
  apply (negative_index_panics _ (-1) 5 (λ _ _, Done 5)).
  - vm_compute; reflexivity.
  - vm_compute; discriminate.
Defined.

(** C10, as stated, fails.  The key -16 has a negative hash under
    [NumberHasher], yet in a new table of 16 buckets its bucket index is 0:
    on that table the operations below return, and the key is stored and
    found. *)
Lemma negative_multiple_no_panic :
  ∃ d d' : hashMap Z Z,
    fresh_dict = Done d
    ∧ hasher d (-16) < 0
    ∧ index d (hasher d (-16)) = Done 0
    ∧ TryGet d (-16) = Done None
    ∧ Contains d (-16) = Done false
    ∧ Remove d (-16) = Done (d, None)
    ∧ Put d (-16) 7 = Done (d', None)
    ∧ GetAndPut d (-16) (λ _ _, Done 7) = Done (d', (7, None))
    ∧ TryGet d' (-16) = Done (Some 7).
Proof.
  do 2 eexists. split; [vm_compute; reflexivity|].
  split; [vm_compute; reflexivity|].
  repeat split; vm_compute; reflexivity.
Qed.

(** * The set adapter: what [Put] reports *)

Section Set_put.
Context {T : Type} `{Table T}.

(** [HashSet.Put] answers [true] exactly when the table's [Put] reported
    a previous value, whatever the table. *)
Lemma HashSet_Put_reports_previous (a a' : HashSet T) (element : T) (b : bool) :
  HashSet_Put a element = Done (a', b) →
  ∃ prev, table_Put (inner a) element tt = Done (inner a', prev)
          ∧ (b = true ↔ is_Some prev).
Proof.
  unfold HashSet_Put. intros Hrun. done_inv Hrun as [d r] E.
  inversion Hrun; subst. exists r. split; [done|].
  by rewrite bool_decide_eq_true.
Qed.

End Set_put.

(** C1 at a new set.  The first [Put(1)] adds the element and answers
    [false]; the second [Put(1)] adds nothing and answers [true]: the
    answer is the opposite of "newly added". *)
Theorem HashSet_Put_first_false_then_true :
  ∃ s0 s1 s2 : HashSet Z,
    fresh_set = Done s0
    ∧ HashSet_Contains s0 1 = Done false
    ∧ HashSet_Put s0 1 = Done (s1, false)
    ∧ HashSet_Contains s1 1 = Done true
    ∧ HashSet_Put s1 1 = Done (s2, true).
Proof.
  do 3 eexists. split; [vm_compute; reflexivity|].
  repeat split; vm_compute; reflexivity.
Qed.

(** * Size accounting *)

Section Size_facts.
Context {K V : Type} `{EqDecision K} `{Zero K} `{Zero V}.

(** Every table that [MakeHashDict] returns reports size 1. *)
Lemma Size_MakeHashDict (hasher0 : K → Z) (capacity : Z) (d : hashMap K V) :
  MakeHashDict hasher0 capacity = Done d → Size d = 1 ∧ IsEmpty d = false.
Proof.
  unfold MakeHashDict. intros Hrun.
  done_inv Hrun as n En. done_inv Hrun as bs Ebs. done_inv Hrun as es Ees.
  by inversion Hrun; subst.
Qed.

(** [Size] is never 0 as long as [freeSize ≤ appendCount]. *)
Lemma IsEmpty_false (d : hashMap K V) :
  freeSize d ≤ appendCount d → IsEmpty d = false.
Proof. intros. unfold IsEmpty, Size. apply Z.eqb_neq. lia. Qed.

End Size_facts.

(** C2 at a new table and after one [Put] and one [Remove].  The new table
    has no live entry and [appendCount - freeSize = 0], but [Size() = 1] and
    [IsEmpty()] is false.  After [Put(1, 10)] and [Remove(1)] there is again
    no live entry, but [Size() = 2]. *)
Theorem Size_off_by_one :
  ∃ d0 d2 : hashMap Z Z,
    fresh_dict = Done d0
    ∧ live_count d0 = 0 ∧ appendCount d0 - freeSize d0 = 0
    ∧ Size d0 = 1 ∧ IsEmpty d0 = false
    ∧ dict_after [OpPut 1 10; OpRemove 1] = Done d2
    ∧ live_count d2 = 0 ∧ appendCount d2 - freeSize d2 = 1
    ∧ Size d2 = 2 ∧ IsEmpty d2 = false.
Proof.
  do 2 eexists. split; [vm_compute; reflexivity|].
  do 4 (split; [vm_compute; reflexivity|]).
  split; [vm_compute; reflexivity|].
  repeat split; vm_compute; reflexivity.
Qed.

(** * Removal and the free list *)

Section Walk.
Context {K V : Type} `{EqDecision K} `{Zero K} `{Zero V}.
Implicit Types d : hashMap K V.

(** Where the walk stops: at a readable slot [i] holding the hash and the
    key; [last] is still the value the walk started with. *)
Lemma chain_find_Some (fuel : nat) (es : list (entry K V)) (h : Z) (k : K)
    (last0 i0 last i : Z) (item : entry K V) :
  chain_find fuel es h k last0 i0 = Done (Some (last, i, item)) →
  at_ es i = Done item ∧ hash item = h ∧ key item = k ∧ last = last0.
Proof.
  revert i0. induction fuel as [|fuel IH]; intros i0 Hrun;
    cbn [chain_find] in Hrun; destruct (i0 <? 0); try discriminate.
  done_inv Hrun as e Ee.
  destruct (Z.eqb_spec (hash e) h) as [Hh|Hh]; cbn [andb] in Hrun.
  - destruct (bool_decide_reflect (key e = k)) as [Hk|Hk].
    + by inversion Hrun; subst.
    + by apply IH in Hrun.
  - by apply IH in Hrun.
Qed.

(** [Remove] finds what [TryGet] finds: a key that [TryGet] does not
    find is not removed and the table is left as it is; a key that
    [TryGet] finds is removed with the value [TryGet] returns. *)
Lemma Remove_found_or_absent d (k : K) :
  (TryGet d k = Done None → Remove d k = Done (d, None))
  ∧ (∀ v, TryGet d k = Done (Some v) → ∃ d', Remove d k = Done (d', Some v)).
Proof.
  unfold TryGet, Remove. split.
  - intros Hget. done_inv Hget as idx Eidx. rewrite Eidx. cbn.
    done_inv Hget as [[[last i] item]|] Efind; [done|].
    by rewrite Efind.
  - intros v Hget. done_inv Hget as idx Eidx. rewrite Eidx. cbn.
    done_inv Hget as [[[last i] item]|] Efind; [|done].
    inversion Hget; subst v. clear Hget. rewrite Efind. cbn.
    unfold lookup_chain in Efind. done_inv Efind as head Ehead.
    apply chain_find_Some in Efind as (Hat & _ & _ & ->).
    pose proof (at_range _ _ _ Hat) as Hi.
    pose proof (at_range _ _ _ Ehead) as Hidx.
    change (-1 <? 0) with true. cbn match.
    rewrite Hat. cbn. rewrite upd_in_range by done. cbn.
    rewrite upd_in_range by done. cbn. eauto.
Qed.

(** What a successful [Remove] does to the bookkeeping: the free-list
    head [freeCount] becomes the freed slot's index plus one, the freed
    slot is cleared and linked to the old head, and the number of free
    slots [freeSize] and [appendCount] do not change. *)
Lemma Remove_bookkeeping d d' (k : K) (v : V) :
  Remove d k = Done (d', Some v) →
  ∃ i item,
    at_ (entries d) i = Done item ∧ key item = k ∧ value item = v
    ∧ at_ (entries d') i
      = Done {| hash := 0; key := zero; value := zero;
                next := freeCount d; alive := false |}
    ∧ freeCount d' = i + 1
    ∧ freeSize d' = freeSize d
    ∧ appendCount d' = appendCount d.
Proof.
  unfold Remove. intros Hrun.
  done_inv Hrun as idx Eidx. done_inv Hrun as [[[last i] item]|] Efind;
    [|by inversion Hrun].
  done_inv Hrun as d1 Ed1. done_inv Hrun as es Ees.
  inversion Hrun; subst d' v. clear Hrun. cbn.
  unfold lookup_chain in Efind. done_inv Efind as head Ehead.
  apply chain_find_Some in Efind as (Hat & _ & Hkey & _).
  apply upd_Done in Ees as [Hi ->].
  assert (freeCount d1 = freeCount d ∧ freeSize d1 = freeSize d
          ∧ appendCount d1 = appendCount d) as (Hfc & Hfs & Hac).
  { destruct (last <? 0).
    - done_inv Ed1 as e Ee. done_inv Ed1 as bs Ebs. by inversion Ed1; subst.
    - done_inv Ed1 as e1 Ee1. done_inv Ed1 as e Ee. done_inv Ed1 as es1 Ees1.
      by inversion Ed1; subst. }
  exists i, item. repeat split; try done.
  apply at_Done. split; [lia|].
  rewrite list_lookup_insert_eq by (unfold len in Hi; lia). by rewrite Hfc.
Qed.

End Walk.

(** C3 at a table holding the key 1 in slot 0.  [Remove(1)] returns the
    value, unlinks slot 0 and clears its key and value, but leaves the
    free-list head ([freeCount]) at 1, one past the freed slot, and the
    number of free slots ([freeSize]) at 0. *)
Theorem Remove_free_list_head_off :
  ∃ d1 d2 : hashMap Z Z,
    dict_after [OpPut 1 10] = Done d1
    ∧ entries d1 !! 0%nat
      = Some {| hash := 1; key := 1; value := 10; next := -1; alive := true |}
    ∧ buckets d1 !! 1%nat = Some 0
    ∧ freeCount d1 = 0 ∧ freeSize d1 = 0
    ∧ Remove d1 1 = Done (d2, Some 10)
    ∧ buckets d2 !! 1%nat = Some (-1)
    ∧ entries d2 !! 0%nat
      = Some {| hash := 0; key := 0; value := 0; next := 0; alive := false |}
    ∧ freeCount d2 = 1 ∧ freeSize d2 = 0.
Proof.
  do 2 eexists. split; [vm_compute; reflexivity|].
  do 4 (split; [vm_compute; reflexivity|]).
  split; [vm_compute; reflexivity|].
  repeat split; vm_compute; reflexivity.
Qed.

(** * Growth of the entry store *)

Section Growth.
Context {K V : Type} `{EqDecision K} `{Zero K} `{Zero V}.
Implicit Types d : hashMap K V.
Implicit Types e : entry K V.

Lemma same_payload_refl e : same_payload e e.
Proof. by repeat split. Qed.

Lemma same_payload_trans e1 e2 e3 :
  same_payload e1 e2 → same_payload e2 e3 → same_payload e1 e3.
Proof. unfold same_payload. intros (?&?&?&?) (?&?&?&?). repeat split; congruence. Qed.

(** The rehash writes [next] links only. *)
Lemma rehash_payload (n : nat) (i s : Z) (es es' : list (entry K V)) (nb nb' : list Z) :
  rehash n i s es nb = Done (es', nb') →
  ∀ j e, es !! j = Some e → ∃ e', es' !! j = Some e' ∧ same_payload e e'.
Proof.
  revert i es nb. induction n as [|n IH]; intros i es nb Hrun j e Hj;
    cbn [rehash] in Hrun.
  - inversion Hrun; subst. exists e. split; [done | apply same_payload_refl].
  - done_inv Hrun as v Ev. destruct (alive v) eqn:Halive.
    + done_inv Hrun as hd Ehd. done_inv Hrun as es1 Ees. done_inv Hrun as nb1 Enb.
      apply upd_Done in Ees as [Hi ->].
      apply at_Done in Ev as [_ Hv].
      destruct (decide (Z.to_nat i = j)) as [<-|Hne].
      * assert (e = v) as -> by congruence.
        destruct (IH _ _ _ Hrun (Z.to_nat i) (set_next v hd)) as (e' & He' & Hsame).
        { apply list_lookup_insert_eq. unfold len in Hi. lia. }
        exists e'. split; [done|].
        eapply same_payload_trans; [|exact Hsame]. by repeat split.
      * eapply IH; [exact Hrun|]. by rewrite list_lookup_insert_ne.
    + by eapply IH.
Qed.

Lemma copy_longer {A : Type} (n : nat) (x : A) (src : list A) :
  (length src ≤ n)%nat →
  copy (replicate n x) src = src ++ replicate (n - length src) x.
Proof.
  intros Hle. unfold copy. rewrite length_replicate, take_ge by done.
  by rewrite drop_replicate.
Qed.

(** [grow] on the entry store.  When [newSize] is above the length of the
    store, the new store is three times as long ([old + (old << 1)]), and
    every slot is found at its old index with its hash, key, value and
    liveness; its [next] link is as the rehash left it, and the whole slot
    is unchanged when the bucket array did not grow.  Otherwise the
    length is unchanged. *)
Lemma grow_entries d d' (newSize : Z) :
  grow d newSize = Done d' →
  (if len (entries d) <? newSize
   then len (entries d') = 3 * len (entries d)
   else len (entries d') = len (entries d))
  ∧ (∀ j e, entries d !! j = Some e →
            ∃ e', entries d' !! j = Some e' ∧ same_payload e e')
  ∧ (len (buckets d') = len (buckets d) →
     take (length (entries d)) (entries d') = entries d).
Proof.
  unfold grow. intros Hrun. done_inv Hrun as d1 Ed1.
  assert (length (entries d1) = length (entries d)
          ∧ (∀ j e, entries d !! j = Some e →
                    ∃ e', entries d1 !! j = Some e' ∧ same_payload e e')
          ∧ (len (buckets d1) = len (buckets d) → entries d1 = entries d)
          ∧ len (buckets d1) ≠ 0) as (Hlen & Hslots & Hsame & Hnz).
  { destruct (Z.eqb_spec (len (buckets d)) 0) as [|Hnz]; [done|].
    destruct (loadFactor d <? _).
    - done_inv Ed1 as nb0 Emk. done_inv Ed1 as [es nb] Ere.
      inversion Ed1; subst d1. clear Ed1. cbn.
      apply make_Done in Emk as [Hpos ->].
      pose proof (rehash_length _ _ _ _ _ _ _ Ere) as [Hes Hnb].
      split; [done|]. split; [by eapply rehash_payload|].
      unfold len in *. rewrite Hnb, length_replicate. split; lia.
    - inversion Ed1; subst d1. repeat split; try done.
      intros j e Hj. exists e. split; [done | apply same_payload_refl]. }
  assert (len (entries d1) = len (entries d)) as HlenZ
    by (unfold len; by rewrite Hlen).
  destruct (Z.ltb_spec (len (entries d)) newSize) as [Hlt|Hge].
  - done_inv Hrun as ne Ene. inversion Hrun; subst d'. clear Hrun. cbn.
    apply make_Done in Ene as [Hpos ->].
    rewrite Z.shiftl_mul_pow2 in * by lia.
    rewrite copy_longer by (rewrite Hlen; unfold len; lia).
    split; [|split].
    + unfold len in *. rewrite length_app, length_replicate, Hlen. lia.
    + intros j e Hj. destruct (Hslots j e Hj) as (e' & He' & Hp).
      exists e'. split; [|done]. by apply lookup_app_l_Some.
    + intros Hb. rewrite <- Hlen, take_app_length. by apply Hsame.
  - inversion Hrun; subst d'. clear Hrun.
    split; [done|]. split; [done|].
    intros Hb. rewrite Hsame by done. by rewrite firstn_all.
Qed.

End Growth.

(** C4 at a table of capacity 0 (10 slots).  After nine [Put]s of new keys
    nine slots are used and the store still has 10 slots; the tenth [Put],
    with slot 9 still unused, makes it 30 slots long, not 15, the first ten
    slots staying where they were. *)
Theorem grow_triples_entry_store :
  ∃ d9 d10 : hashMap Z Z,
    dict_after (put_range 0 9) = Done d9
    ∧ appendCount d9 = 9 ∧ len (entries d9) = 10
    ∧ step d9 (OpPut 9 90) = Done d10
    ∧ len (entries d10) = 30
    ∧ len (entries d10) ≠ len (entries d9) + len (entries d9) / 2
    ∧ take 9 (entries d10) = take 9 (entries d9).
Proof.
  do 2 eexists. split; [vm_compute; reflexivity|].
  do 2 (split; [vm_compute; reflexivity|]).
  split; [vm_compute; reflexivity|].
  split; [vm_compute; reflexivity|].
  split; [vm_compute; discriminate|].
  vm_compute; reflexivity.
Qed.

(** * Iteration *)

Section Iteration.
Context {K V : Type} `{EqDecision K} `{Zero K} `{Zero V}.
Implicit Types d : hashMap K V.
Implicit Types e : entry K V.

Lemma Next_loop_first_live (rest pre : list (entry K V)) (fuel : nat) :
  (length rest ≤ fuel)%nat →
  Next_loop fuel (len pre - 1) (pre ++ rest) = Done (first_live (len pre) rest).
Proof.
  revert pre fuel. induction rest as [|e rest IH]; intros pre fuel Hfuel.
  - rewrite app_nil_r. destruct fuel; cbn [Next_loop first_live];
      by rewrite Z.ltb_irrefl.
  - cbn [length] in Hfuel. destruct fuel as [|fuel]; [lia|].
    cbn [Next_loop first_live].
    destruct (Z.ltb_spec (len pre - 1) (len (pre ++ e :: rest) - 1)) as [_|Hge].
    2: { rewrite len_app, len_cons in Hge. pose proof (len_nonneg rest). lia. }
    replace (len pre - 1 + 1) with (len pre) by lia.
    rewrite at_app_middle. cbn. destruct (alive e); [done|].
    specialize (IH (pre ++ [e]) fuel).
    rewrite len_app, <- app_assoc in IH. cbn [app] in IH.
    change (len [e]) with 1 in IH.
    replace (len pre + 1 - 1) with (len pre) in IH by lia.
    apply IH. lia.
Qed.

(** [first_live] either finds no live slot, or splits the slots at the
    first live one. *)
Lemma first_live_cases (pos : Z) (rest : list (entry K V)) :
  (∃ j, first_live pos rest = (j, None)
        ∧ filter (λ e, alive e = true) rest = [])
  ∨ (∃ l1 e l2,
       rest = l1 ++ e :: l2
       ∧ first_live pos rest = (pos + len l1, Some (key e, value e))
       ∧ filter (λ e, alive e = true) rest
         = e :: filter (λ e, alive e = true) l2).
Proof.
  revert pos. induction rest as [|e rest IH]; intros pos; cbn [first_live].
  - left. by eexists.
  - destruct (alive e) eqn:Halive.
    + right. exists [], e, rest. rewrite filter_cons_True by done.
      repeat split; try done. f_equal. change (len []) with 0. lia.
    + rewrite filter_cons_False by congruence.
      destruct (IH (pos + 1)) as [(j & Hj & Hf)|(l1 & e1 & l2 & -> & Hj & Hf)].
      * left. by exists j.
      * right. exists (e :: l1), e1, l2. rewrite Hj, len_cons.
        repeat split; try done. f_equal. lia.
Qed.

Lemma drain_suffix (fuel : nat) d (pre rest : list (entry K V)) :
  entries d = pre ++ rest → (length rest ≤ fuel)%nat →
  drain fuel (len pre - 1) d
  = Done (map (λ e, (key e, value e)) (filter (λ e, alive e = true) rest)).
Proof.
  revert pre rest. induction fuel as [|fuel IH]; intros pre rest Hes Hfuel.
  - destruct rest; [|cbn in Hfuel; lia].
    cbn [drain]. unfold Next. rewrite Hes, Next_loop_first_live by (cbn; lia).
    done.
  - cbn [drain]. unfold Next. rewrite Hes.
    rewrite Next_loop_first_live by (rewrite length_app; lia).
    destruct (first_live_cases (len pre) rest)
      as [(j & -> & ->)|(l1 & e & l2 & -> & -> & ->)]; [done|].
    cbn. specialize (IH (pre ++ l1 ++ [e]) l2).
    rewrite !len_app in IH. change (len [e]) with 1 in IH.
    replace (len pre + (len l1 + 1) - 1) with (len pre + len l1) in IH by lia.
    rewrite IH; [done| |].
    + rewrite Hes, <- !app_assoc. done.
    + rewrite length_app in Hfuel. cbn in Hfuel. lia.
Qed.

(** A full iteration with a new iterator returns, and yields exactly the
    pairs of the live slots, each once, in ascending slot order. *)
Lemma full_iteration_live_pairs d : full_iteration d = Done (live_pairs d).
Proof.
  unfold full_iteration, Iter, live_pairs.
  change (-1) with (len (@nil (entry K V)) - 1).
  by apply drain_suffix.
Qed.

End Iteration.

(** C8 on a table built by [Put]s only.  After the keys 0..30 and a second
    [Put] of the key 30, 31 distinct keys have been put and none removed,
    but a full iteration yields 32 pairs, two of them for the key 30. *)
Theorem iteration_counts_key_twice :
  ∃ (d : hashMap Z Z) (l : list (Z * Z)),
    dict_after (put_range 0 31 ++ [OpPut 30 301]) = Done d
    ∧ full_iteration d = Done l
    ∧ l = live_pairs d
    ∧ length l = 32%nat
    ∧ length (ref_run (put_range 0 31 ++ [OpPut 30 301])) = 31%nat
    ∧ l !! 30%nat = Some (30, 300)
    ∧ l !! 31%nat = Some (30, 301).
Proof.
  do 2 eexists. split; [vm_compute; reflexivity|].
  split; [vm_compute; reflexivity|].
  repeat split; vm_compute; reflexivity.
Qed.

(** * Clear *)

Section Clear_facts.
Context {K V : Type} `{EqDecision K} `{Zero K} `{Zero V}.
Implicit Types d : hashMap K V.

Lemma live_pairs_Clear d : live_pairs (Clear d) = [].
Proof.
  unfold live_pairs. cbn. induction (length (entries d)) as [|n IH]; [done|].
  cbn [replicate]. rewrite filter_cons_False by (cbn; done). exact IH.
Qed.

(** [Clear] overwrites the two arrays in place and assigns nothing else. *)
Lemma Clear_spec d :
  buckets (Clear d) = replicate (length (buckets d)) (-1)
  ∧ entries (Clear d) = replicate (length (entries d)) zero
  ∧ len (buckets (Clear d)) = len (buckets d)
  ∧ len (entries (Clear d)) = len (entries d)
  ∧ appendCount (Clear d) = appendCount d
  ∧ freeCount (Clear d) = freeCount d
  ∧ freeSize (Clear d) = freeSize d
  ∧ Size (Clear d) = Size d
  ∧ full_iteration (Clear d) = Done [].
Proof.
  rewrite full_iteration_live_pairs, live_pairs_Clear.
  unfold len. cbn. rewrite !length_replicate. by repeat split.
Qed.

End Clear_facts.

(** C5 at a table holding one key.  [Clear()] empties the buckets and the
    entries and keeps both lengths, and an iteration yields nothing, but
    [appendCount] stays 1 and [Size()] stays 2. *)
Theorem Clear_keeps_bookkeeping :
  ∃ d1 : hashMap Z Z,
    dict_after [OpPut 1 10] = Done d1
    ∧ appendCount d1 = 1
    ∧ buckets (Clear d1) = replicate 16 (-1)
    ∧ entries (Clear d1) = replicate 10 zero
    ∧ len (buckets (Clear d1)) = len (buckets d1)
    ∧ len (entries (Clear d1)) = len (entries d1)
    ∧ full_iteration (Clear d1) = Done []
    ∧ appendCount (Clear d1) = 1
    ∧ Size (Clear d1) = 2.
Proof.
  eexists. split; [vm_compute; reflexivity|].
  repeat split; vm_compute; reflexivity.
Qed.

(** * Lookups after the bucket array has grown *)

Section Put_new_key.
Context {K V : Type} `{EqDecision K} `{Zero K} `{Zero V}.
Implicit Types d : hashMap K V.

(** Where [Put] links a key it did not find: the new entry becomes the head
    of bucket [hash % n], with [n] the number of buckets before the call,
    also when the call has doubled the bucket array in between. *)
Lemma Put_new_key_bucket d d' (k : K) (v : V) :
  Put d k v = Done (d', None) →
  ∃ slot head,
    at_ (buckets d') (Z.rem (hasher d k) (len (buckets d))) = Done slot
    ∧ at_ (entries d') slot
      = Done {| hash := hasher d k; key := k; value := v;
                next := head; alive := true |}.
Proof.
  unfold Put. intros Hrun.
  done_inv Hrun as idx Eidx. done_inv Hrun as [[[last i] item]|] Efind.
  { done_inv Hrun as es Ees. inversion Hrun. }
  done_inv Hrun as [bucket d1] Eslot. done_inv Hrun as d2 Elink.
  inversion Hrun; subst d2. clear Hrun.
  unfold index in Eidx. destruct (len (buckets d) =? 0); [done|].
  inversion Eidx; subst idx. clear Eidx.
  unfold link_new in Elink.
  done_inv Elink as head Ehead. done_inv Elink as es Ees. done_inv Elink as bs Ebs.
  inversion Elink; subst d'. clear Elink. cbn.
  apply upd_Done in Ees as [Hslot ->]. apply upd_Done in Ebs as [Hidx ->].
  exists bucket, head. split; apply at_Done; (split; [lia|]);
    apply list_lookup_insert_eq; unfold len in *; lia.
Qed.

End Put_new_key.

(** C6 at the 31 pairs [(n, 10n)], [n = 0..30], put in order into a new
    table of capacity 0 under [NumberHasher].  The keys are pairwise
    distinct and their hashes are not negative.  The last [Put] doubles the
    bucket array to 32 and then links the key 30 under the bucket index
    [30 % 16 = 14] computed before the doubling; [TryGet(30)] looks in
    bucket [30 % 32 = 30] and returns nothing. *)
Theorem TryGet_misses_key_put_during_growth :
  NoDup (pairs_upto 31).*1
  ∧ Forall (λ p, 0 ≤ NumberHasher p.1) (pairs_upto 31)
  ∧ (30, 300) ∈ pairs_upto 31
  ∧ ∃ d : hashMap Z Z,
      (d0 ← fresh_dict; PutAll d0 (pairs_upto 31)) = Done d
      ∧ len (buckets d) = 32
      ∧ TryGet d 29 = Done (Some 290)
      ∧ TryGet d 30 = Done None
      ∧ buckets d !! 14%nat = Some 30
      ∧ buckets d !! 30%nat = Some (-1).
Proof.
  split; [by apply (bool_decide_unpack _); vm_compute|].
  split; [by apply (bool_decide_unpack _); vm_compute|].
  split; [by apply (bool_decide_unpack _); vm_compute|].
  eexists. split; [vm_compute; reflexivity|].
  repeat split; vm_compute; reflexivity.
Qed.

(** * Removal after the bucket array has grown *)

(** C7 on a table built by [Put]s only.  The keys 0..30 are put (the key 30
    during the doubling to 32 buckets, so it is linked under bucket 14);
    [Put(30, 301)] does not find it and adds a second entry for the key 30;
    the keys 31..61 follow, the last one doubling the bucket array to 64,
    which brings both entries for the key 30 into bucket 30.  Then
    [Contains(30)] is true, [Remove(30)] returns [Some 301], and afterwards
    [Contains(30)] is still true and [TryGet(30)] returns the older value
    300.  Earlier, right after the 31 first [Put]s, [Remove(30)] returns
    [None] for a key that was put and never removed. *)
Theorem Remove_leaves_key_present :
  ∃ d31 d d' : hashMap Z Z,
    dict_after (put_range 0 31) = Done d31
    ∧ (30, 300) ∈ live_pairs d31
    ∧ Remove d31 30 = Done (d31, None)
    ∧ dict_after (put_range 0 31 ++ [OpPut 30 301] ++ put_range 31 31) = Done d
    ∧ Contains d 30 = Done true
    ∧ TryGet d 30 = Done (Some 301)
    ∧ Remove d 30 = Done (d', Some 301)
    ∧ Contains d' 30 = Done true
    ∧ TryGet d' 30 = Done (Some 300).
Proof.
  do 3 eexists. split; [vm_compute; reflexivity|].
  split; [by apply (bool_decide_unpack _); vm_compute|].
  split; [vm_compute; reflexivity|].
  split; [vm_compute; reflexivity|].
  do 2 (split; [vm_compute; reflexivity|]).
  split; [vm_compute; reflexivity|].
  split; vm_compute; reflexivity.
Qed.

(** * Fields an operation leaves alone *)

Section Fields.
Context {K V : Type} `{EqDecision K} `{Zero K} `{Zero V}.
Implicit Types d : hashMap K V.

Lemma grow_fields d d' (newSize : Z) :
  grow d newSize = Done d' →
  appendCount d' = appendCount d ∧ freeCount d' = freeCount d
  ∧ freeSize d' = freeSize d ∧ hasher d' = hasher d
  ∧ loadFactor d' = loadFactor d.
Proof.
  unfold grow. intros Hrun. done_inv Hrun as d1 Ed1.
  assert (appendCount d1 = appendCount d ∧ freeCount d1 = freeCount d
          ∧ freeSize d1 = freeSize d ∧ hasher d1 = hasher d
          ∧ loadFactor d1 = loadFactor d) as (?&?&?&?&?).
  { destruct (len (buckets d) =? 0); [done|].
    destruct (loadFactor d <? _).
    - done_inv Ed1 as nb0 Emk. done_inv Ed1 as [es nb] Ere.
      by inversion Ed1; subst d1.
    - by inversion Ed1; subst d1. }
  destruct (len (entries d) <? newSize).
  - done_inv Hrun as ne Ene. by inversion Hrun; subst d'.
  - by inversion Hrun; subst d'.
Qed.

Lemma take_slot_fields d d' (bucket : Z) :
  take_slot d = Done (bucket, d') →
  hasher d' = hasher d ∧ loadFactor d' = loadFactor d
  ∧ appendCount d' - freeSize d' = appendCount d - freeSize d + 1.
Proof.
  unfold take_slot. destruct (0 <? freeSize d); intros Hrun.
  - done_inv Hrun as e Ee. inversion Hrun; subst. cbn. repeat split; lia.
  - done_inv Hrun as d1 Ed1. inversion Hrun; subst. cbn.
    apply grow_fields in Ed1 as (-> & _ & -> & -> & ->). repeat split; lia.
Qed.

Lemma link_new_fields d d' (idx bucket h : Z) (k : K) (v : V) :
  link_new d idx bucket h k v = Done d' →
  hasher d' = hasher d ∧ loadFactor d' = loadFactor d
  ∧ appendCount d' = appendCount d ∧ freeSize d' = freeSize d
  ∧ freeCount d' = freeCount d.
Proof.
  unfold link_new. intros Hrun.
  done_inv Hrun as hd Ehd. done_inv Hrun as es Ees. done_inv Hrun as bs Ebs.
  by inversion Hrun; subst d'.
Qed.

Lemma Put_fields d d' (k : K) (v : V) (r : option V) :
  Put d k v = Done (d', r) →
  hasher d' = hasher d ∧ loadFactor d' = loadFactor d
  ∧ Size d' = Size d + (if r is Some _ then 0 else 1).
Proof.
  unfold Put, Size. intros Hrun.
  done_inv Hrun as idx Eidx. done_inv Hrun as [[[last i] item]|] Efind.
  - done_inv Hrun as es Ees. inversion Hrun; subst. cbn. repeat split; lia.
  - done_inv Hrun as [bucket d1] Eslot. done_inv Hrun as d2 Elink.
    inversion Hrun; subst.
    apply take_slot_fields in Eslot as (Hh & Hl & Hs).
    apply link_new_fields in Elink as (-> & -> & -> & -> & _).
    repeat split; try done. lia.
Qed.

Lemma Remove_fields d d' (k : K) (r : option V) :
  Remove d k = Done (d', r) →
  hasher d' = hasher d ∧ loadFactor d' = loadFactor d
  ∧ appendCount d' = appendCount d ∧ freeSize d' = freeSize d
  ∧ len (entries d') = len (entries d).
Proof.
  unfold Remove. intros Hrun.
  done_inv Hrun as idx Eidx. done_inv Hrun as [[[last i] item]|] Efind.
  - done_inv Hrun as d1 Ed1. done_inv Hrun as es Ees.
    inversion Hrun; subst. cbn. apply upd_length in Ees.
    assert (hasher d1 = hasher d ∧ loadFactor d1 = loadFactor d
            ∧ appendCount d1 = appendCount d ∧ freeSize d1 = freeSize d
            ∧ length (entries d1) = length (entries d)) as (?&?&?&?&?).
    { destruct (last <? 0).
      - done_inv Ed1 as e Ee. done_inv Ed1 as bs Ebs. by inversion Ed1; subst.
      - done_inv Ed1 as e1 Ee1. done_inv Ed1 as e Ee. done_inv Ed1 as es1 Ees1.
        inversion Ed1; subst. cbn. apply upd_length in Ees1. by repeat split. }
    repeat split; try done. unfold len. congruence.
  - by inversion Hrun; subst.
Qed.

End Fields.

(** * What the operations report and how they compose *)

Section Compose.
Context {K V : Type} `{EqDecision K} `{Zero K} `{Zero V}.
Implicit Types d : hashMap K V.

(** [Put] returns as previous value exactly what [TryGet] returns before
    the call. *)
Lemma Put_reports_TryGet d d' (k : K) (v : V) (r : option V) :
  Put d k v = Done (d', r) → TryGet d k = Done r.
Proof.
  unfold Put, TryGet. intros Hrun.
  done_inv Hrun as idx Eidx. rewrite Eidx. cbn.
  done_inv Hrun as [[[last i] item]|] Efind; rewrite Efind; cbn.
  - done_inv Hrun as es Ees. by inversion Hrun.
  - done_inv Hrun as [bucket d1] Eslot. done_inv Hrun as d2 Elink.
    by inversion Hrun.
Qed.

(** [GetAndPut] is [TryGet] followed by [Put] of the value the function
    computes from what [TryGet] returned, panics included. *)
Lemma GetAndPut_is_TryGet_then_Put d (k : K) (set : option V → V) :
  GetAndPut d k (pure_callback set)
  = (r ← TryGet d k;
     '(d', prev) ← Put d k (set r);
     Done (d', (set r, prev))).
Proof.
  unfold GetAndPut, TryGet, Put.
  destruct (index d (hasher d k)) as [idx| |]; cbn; [|done..].
  destruct (lookup_chain d (hasher d k) k idx) as [[[[last i] item]|]| |];
    cbn; [| |done..].
  - by destruct (upd (entries d) i _).
  - destruct (take_slot d) as [[bucket d1]| |]; cbn; [|done..].
    by destruct (link_new d1 idx bucket (hasher d k) k (set None)).
Qed.

(** [Size()] goes up by one when [Put] does not find the key and stays as
    it is when [Put] finds it; [Remove] and [Clear] never change it. *)
Lemma Size_counts_new_keys_only d :
  (∀ d' k v r, Put d k v = Done (d', r) →
       Size d' = Size d + (if r is Some _ then 0 else 1))
  ∧ (∀ d' k r, Remove d k = Done (d', r) → Size d' = Size d)
  ∧ Size (Clear d) = Size d.
Proof.
  split; [|split].
  - intros d' k v r Hrun. by apply Put_fields in Hrun as (_ & _ & ?).
  - intros d' k r Hrun. apply Remove_fields in Hrun as (_ & _ & Ha & Hf & _).
    unfold Size. by rewrite Ha, Hf.
  - done.
Qed.

End Compose.

(** * Reads after writes on slices *)

Lemma at_upd_eq {A : Type} (l l' : list A) (i : Z) (x : A) :
  upd l i x = Done l' → at_ l' i = Done x.
Proof.
  intros [Hi ->]%upd_Done. apply at_Done. split; [lia|].
  apply list_lookup_insert_eq. unfold len in Hi. lia.
Qed.

Lemma at_upd_ne {A : Type} (l l' : list A) (i j : Z) (x : A) :
  upd l i x = Done l' → j ≠ i → at_ l' j = at_ l j.
Proof.
  intros [Hi ->]%upd_Done Hne. unfold at_.
  destruct (Z.ltb_spec j 0); [done|].
  rewrite list_lookup_insert_ne by lia. done.
Qed.

Lemma at_insert_eq {A : Type} (l : list A) (i : Z) (x : A) :
  0 ≤ i < len l → at_ (<[Z.to_nat i := x]> l) i = Done x.
Proof. intros Hi. eapply at_upd_eq. by apply upd_in_range. Qed.

Lemma at_insert_ne {A : Type} (l : list A) (i j : Z) (x : A) :
  0 ≤ i → j ≠ i → at_ (<[Z.to_nat i := x]> l) j = at_ l j.
Proof.
  intros Hi Hne. unfold at_. destruct (Z.ltb_spec j 0); [done|].
  rewrite list_lookup_insert_ne by lia. done.
Qed.

Lemma at_replicate {A : Type} (n : nat) (x : A) (i : Z) :
  0 ≤ i < Z.of_nat n → at_ (replicate n x) i = Done x.
Proof.
  intros Hi. apply at_Done. split; [lia|]. apply lookup_replicate. split; [done|lia].
Qed.

(** * Updating the value of a key that is found *)

Section Update.
Context {K V : Type} `{EqDecision K} `{Zero K} `{Zero V}.
Implicit Types d : hashMap K V.

Lemma chain_find_set_value (fuel : nat) (es : list (entry K V)) (i : Z)
    (item : entry K V) (v : V) (h : Z) (k : K) (last j : Z) :
  at_ es i = Done item →
  chain_find fuel (<[Z.to_nat i := set_value item v]> es) h k last j
  = match chain_find fuel es h k last j with
    | Done r => Done (with_value i v r)
    | Panic => Panic
    | Diverge => Diverge
    end.
Proof.
  intros Hi. pose proof (at_range _ _ _ Hi) as Hrange.
  revert last j. induction fuel as [|fuel IH]; intros last j;
    cbn [chain_find]; destruct (j <? 0); try done.
  destruct (decide (j = i)) as [->|Hne].
  - rewrite at_insert_eq, Hi by done. cbn.
    destruct (_ && _); [|apply IH].
    cbn. by rewrite decide_True.
  - rewrite at_insert_ne by lia. destruct (at_ es j) as [e| |]; cbn; [|done..].
    destruct (_ && _); [|apply IH].
    cbn. by rewrite decide_False.
Qed.

(** [Put] on a key that [TryGet] finds: the old value is returned, the key
    then has the new value, every other key is looked up as before, and the
    buckets, the links and the bookkeeping are not written. *)
Lemma Put_existing_key d (k : K) (v old : V) :
  TryGet d k = Done (Some old) →
  ∃ d', Put d k v = Done (d', Some old)
        ∧ TryGet d' k = Done (Some v)
        ∧ (∀ k', k' ≠ k → TryGet d' k' = TryGet d k')
        ∧ buckets d' = buckets d
        ∧ len (entries d') = len (entries d)
        ∧ appendCount d' = appendCount d
        ∧ Size d' = Size d.
Proof.
  unfold TryGet, Put. intros Hget.
  done_inv Hget as idx Eidx. done_inv Hget as [[[last i] item]|] Efind; [|done].
  inversion Hget; subst old. clear Hget.
  rewrite Eidx. cbn. rewrite Efind. cbn.
  pose proof Efind as Efind0.
  unfold lookup_chain in Efind. done_inv Efind as head Ehead.
  apply chain_find_Some in Efind as (Hat & Hhash & Hkey & _).
  pose proof (at_range _ _ _ Hat) as Hi.
  rewrite upd_in_range by done. cbn.
  eexists. split; [done|].
  assert (∀ k' idx',
    lookup_chain (set_entries d (<[Z.to_nat i:=set_value item v]> (entries d)))
      (hasher d k') k' idx'
    = match lookup_chain d (hasher d k') k' idx' with
      | Done r => Done (with_value i v r)
      | Panic => Panic
      | Diverge => Diverge
      end) as Hlook.
  { intros k' idx'. unfold lookup_chain. cbn [entries buckets set_entries].
    destruct (at_ (buckets d) idx') as [hd| |]; [|done..].
    change (Done hd ≫= ?f) with (f hd). cbv beta.
    rewrite length_insert. by apply chain_find_set_value. }
  split; [|split; [|by repeat split; cbn; rewrite ?len_insert]].
  - unfold index in *. cbn. destruct (len (buckets d) =? 0); [done|].
    inversion Eidx; subst idx. cbn.
    rewrite Hlook, Efind0. cbn. by rewrite decide_True.
  - intros k' Hne. unfold index. cbn.
    destruct (len (buckets d) =? 0); [done|]. cbn.
    rewrite Hlook.
    destruct (lookup_chain d (hasher d k') k' _)
      as [[[[last' i'] item']|]| |] eqn:Efind'; cbn; try done.
    unfold lookup_chain in Efind'. done_inv Efind' as head' Ehead'.
    apply chain_find_Some in Efind' as (Hat' & _ & Hkey' & _).
    destruct (decide (i' = i)) as [->|]; [|done].
    congruence.
Qed.

(** [Put] on a key that [TryGet] does not find: when the key's bucket index
    is the same before and after the call (in particular when the call has
    not grown the bucket array), the key is then found with its value. *)
Lemma Put_new_key_found d d' (k : K) (v : V) :
  Put d k v = Done (d', None) →
  Z.rem (hasher d k) (len (buckets d')) = Z.rem (hasher d k) (len (buckets d)) →
  TryGet d' k = Done (Some v).
Proof.
  intros Hput Hidx.
  pose proof (Put_fields _ _ _ _ _ Hput) as (Hh & _).
  unfold Put in Hput.
  done_inv Hput as idx Eidx. done_inv Hput as [[[last i] item]|] Efind.
  { done_inv Hput as es Ees. inversion Hput. }
  done_inv Hput as [bucket d1] Eslot. done_inv Hput as d2 Elink.
  inversion Hput; subst d2. clear Hput.
  unfold index in Eidx. destruct (len (buckets d) =? 0); [done|].
  inversion Eidx; subst idx. clear Eidx.
  unfold link_new in Elink.
  done_inv Elink as head Ehead. done_inv Elink as es Ees. done_inv Elink as bs Ebs.
  inversion Elink; subst d'. clear Elink. cbn in *.
  pose proof (at_upd_eq _ _ _ _ Ees) as Hslot.
  pose proof (at_upd_eq _ _ _ _ Ebs) as Hbucket.
  pose proof (at_range _ _ _ Hslot) as Hs.
  pose proof (at_range _ _ _ Hbucket) as Hb.
  unfold TryGet, index, lookup_chain. cbn.
  destruct (Z.eqb_spec (len bs) 0); [lia|]. cbn.
  rewrite Hh, Hidx, Hbucket. cbn.
  destruct (Z.ltb_spec bucket 0); [lia|].
  rewrite Hslot. cbn. rewrite Z.eqb_refl, bool_decide_eq_true_2 by done.
  done.
Qed.

End Update.

(** * Chains *)

Section Chain_facts.
Context {K V : Type} `{EqDecision K} `{Zero K} `{Zero V}.
Implicit Types d : hashMap K V.
Implicit Types es : list (entry K V).

Lemma is_chain_elem es (h : Z) (l : list Z) (i : Z) :
  is_chain es h l → i ∈ l → ∃ e, at_ es i = Done e ∧ alive e = true.
Proof.
  induction 1 as [|j e l Hat Halive _ IH]; intros Hin.
  - by apply elem_of_nil in Hin.
  - apply elem_of_cons in Hin as [->|Hin]; [by exists e | by apply IH].
Qed.

(** A chain only depends on the slots it visits. *)
Lemma is_chain_frame es es' (h : Z) (l : list Z) :
  is_chain es h l → (∀ i, i ∈ l → at_ es' i = at_ es i) → is_chain es' h l.
Proof.
  induction 1 as [|j e l Hat Halive _ IH]; intros Hsame.
  - by constructor.
  - econstructor; [|done|].
    + rewrite Hsame; [done | by left].
    + apply IH. intros i Hi. apply Hsame. by right.
Qed.

Lemma is_chain_head es (h : Z) (i : Z) (l : list Z) :
  is_chain es h (i :: l) →
  h = i ∧ ∃ e, at_ es i = Done e ∧ alive e = true ∧ is_chain es (next e) l.
Proof. inversion 1; subst. split; [done|]. eauto. Qed.

(** The walk of the code along a chain. *)
Lemma chain_find_is_chain es (j : Z) (l : list Z) (fuel : nat)
    (h : Z) (k : K) (last : Z) :
  is_chain es j l → (length l ≤ fuel)%nat →
  chain_find fuel es h k last j = Done (find_in es h k last l).
Proof.
  intros Hchain. revert fuel last.
  induction Hchain as [j Hj|j e l Hat Halive _ IH]; intros fuel last Hfuel.
  - destruct fuel; cbn [chain_find find_in];
      by destruct (Z.ltb_spec j 0); [|lia].
  - cbn [length] in Hfuel. destruct fuel as [|fuel]; [lia|].
    pose proof (at_range _ _ _ Hat).
    cbn [chain_find find_in]. destruct (Z.ltb_spec j 0); [lia|].
    rewrite Hat. cbn. destruct (_ && _); [done|].
    apply IH. lia.
Qed.

(** Where [find_in] stops. *)
Lemma find_in_Some es (h : Z) (k : K) (last0 : Z) (l : list Z)
    (last i : Z) (e : entry K V) :
  find_in es h k last0 l = Some (last, i, e) →
  ∃ l1 l2, l = l1 ++ i :: l2
           ∧ at_ es i = Done e ∧ hash e = h ∧ key e = k
           ∧ last = last0
           ∧ ∀ j ej, j ∈ l1 → at_ es j = Done ej → ¬ (hash ej = h ∧ key ej = k).
Proof.
  induction l as [|j l IH]; intros Hfind; cbn [find_in] in Hfind.
  - done.
  - destruct (at_ es j) as [ej| |] eqn:Hat; try done.
    destruct (Z.eqb_spec (hash ej) h) as [Hh|Hh]; cbn [andb] in Hfind.
    + destruct (bool_decide_reflect (key ej = k)) as [Hk|Hk].
      * inversion Hfind; subst. exists [], l. repeat split; try done.
        intros j0 ej0 Hin. by apply elem_of_nil in Hin.
      * apply IH in Hfind as (l1 & l2 & -> & Hi & Hhash & Hkey & Hlast & Hnot).
        exists (j :: l1), l2. repeat split; try done.
        intros j0 ej0 [->|Hin]%elem_of_cons Hj0; [|by eapply Hnot].
        intros [_ Hk0]. congruence.
    + apply IH in Hfind as (l1 & l2 & -> & Hi & Hhash & Hkey & Hlast & Hnot).
      exists (j :: l1), l2. repeat split; try done.
      intros j0 ej0 [->|Hin]%elem_of_cons Hj0; [|by eapply Hnot].
      intros [Hh0 _]. congruence.
Qed.

Lemma find_in_None es (h : Z) (k : K) (last0 : Z) (l : list Z) (j0 : Z) :
  is_chain es j0 l → find_in es h k last0 l = None →
  ∀ j ej, j ∈ l → at_ es j = Done ej → ¬ (hash ej = h ∧ key ej = k).
Proof.
  intros Hchain. revert last0.
  induction Hchain as [j1 Hj1|j1 e l Hat Halive _ IH]; intros last0 Hfind x ex Hin Hx.
  - by apply elem_of_nil in Hin.
  - cbn [find_in] in Hfind. rewrite Hat in Hfind.
    destruct (Z.eqb_spec (hash e) h) as [Hh|Hh]; cbn [andb] in Hfind.
    + destruct (bool_decide_reflect (key e = k)) as [Hk|Hk]; [done|].
      apply elem_of_cons in Hin as [->|Hin]; [|by eapply IH].
      intros [_ Hk0]. congruence.
    + apply elem_of_cons in Hin as [->|Hin]; [|by eapply IH].
      intros [Hh0 _]. congruence.
Qed.

(** A list of distinct slots of a slice is not longer than the slice. *)
Lemma NoDup_slots_length es (l : list Z) :
  NoDup l → (∀ i, i ∈ l → 0 ≤ i < len es) → (length l ≤ length es)%nat.
Proof.
  intros Hnd Hin.
  assert (l ⊆+ seqZ 0 (len es)) as Hsub.
  { apply NoDup_submseteq; [done|]. intros i Hi. apply elem_of_seqZ.
    specialize (Hin i Hi). lia. }
  apply submseteq_length in Hsub. rewrite length_seqZ in Hsub.
  unfold len in Hsub. lia.
Qed.

Lemma is_chain_length es (h : Z) (l : list Z) :
  is_chain es h l → NoDup l → (length l ≤ length es)%nat.
Proof.
  intros Hchain Hnd. apply NoDup_slots_length; [done|].
  intros i Hi. destruct (is_chain_elem _ _ _ _ Hchain Hi) as (e & He & _).
  by eapply at_range.
Qed.

(** The part of a chain after the slot [i] starts at the link of [i]. *)
Lemma is_chain_after es (h : Z) (l1 : list Z) (i : Z) (l2 : list Z)
    (e : entry K V) :
  is_chain es h (l1 ++ i :: l2) → at_ es i = Done e → is_chain es (next e) l2.
Proof.
  revert h. induction l1 as [|p l1 IH]; intros h Hchain Hi; cbn [app] in Hchain;
    apply is_chain_head in Hchain as (-> & e0 & He0 & _ & Hrest).
  - by assert (e0 = e) as -> by congruence.
  - by eapply IH.
Qed.

End Chain_facts.

(** * The shape of a table under the operations *)

Lemma bind_Done_l {A B : Type} (a : A) (f : A → outcome B) :
  (Done a ≫= f) = f a.
Proof. reflexivity. Qed.

Lemma at_in_range {A : Type} (l : list A) (i : Z) :
  0 ≤ i < len l → ∃ x, at_ l i = Done x.
Proof.
  intros Hi. destruct (lookup_lt_is_Some_2 l (Z.to_nat i)) as [x Hx].
  { unfold len in Hi. lia. }
  exists x. apply at_Done. split; [lia | done].
Qed.

Lemma at_app_l {A : Type} (l1 l2 : list A) (i : Z) :
  i < len l1 → at_ (l1 ++ l2) i = at_ l1 i.
Proof.
  intros Hi. unfold at_. destruct (Z.ltb_spec i 0); [done|].
  rewrite lookup_app_l; [done|]. unfold len in Hi. lia.
Qed.

Lemma at_app_zero {A : Type} (l : list A) (n : nat) (x y : A) (i : Z) :
  at_ (l ++ replicate n x) i = Done y → at_ l i = Done y ∨ y = x.
Proof.
  intros [Hi Hl]%at_Done. apply lookup_app_Some in Hl as [Hl|[_ Hl]].
  - left. by apply at_Done.
  - right. by apply lookup_replicate in Hl as [-> _].
Qed.

Section Shape_facts.
Context {K V : Type} `{EqDecision K} `{Zero K} `{Zero V}.
Implicit Types d : hashMap K V.
Implicit Types es : list (entry K V).
Implicit Types ch : Z → list Z.

Lemma shape_index d ch (h : Z) :
  shape d ch → 0 ≤ h →
  index d h = Done (Z.rem h (len (buckets d)))
  ∧ 0 ≤ Z.rem h (len (buckets d)) < len (buckets d).
Proof.
  intros Hs Hh. pose proof (shape_buckets _ _ Hs) as Hb.
  unfold index. destruct (Z.eqb_spec (len (buckets d)) 0); [lia|].
  split; [done|]. apply Z.rem_bound_pos; lia.
Qed.

Lemma shape_chain_length d ch (b : Z) :
  shape d ch → (length (ch b) ≤ length (entries d))%nat.
Proof.
  intros Hs. destruct (decide (0 ≤ b < len (buckets d))) as [Hb|Hb].
  - destruct (at_in_range _ _ Hb) as (head & Hhead).
    eapply is_chain_length; [by eapply shape_chain | by eapply shape_nodup].
  - rewrite (shape_range _ _ Hs b Hb). cbn. lia.
Qed.

(** On a well-shaped table the walk returns, and finds the first matching
    slot of the bucket's chain. *)
Lemma shape_lookup d ch (h : Z) (k : K) (idx : Z) :
  shape d ch → 0 ≤ idx < len (buckets d) →
  lookup_chain d h k idx = Done (find_in (entries d) h k (-1) (ch idx)).
Proof.
  intros Hs Hidx. unfold lookup_chain.
  destruct (at_in_range _ _ Hidx) as (head & Hhead).
  rewrite Hhead, bind_Done_l.
  apply chain_find_is_chain; [by eapply shape_chain|].
  pose proof (shape_chain_length d ch idx Hs). lia.
Qed.

Lemma shape_TryGet d ch (k : K) :
  shape d ch → 0 ≤ hasher d k →
  TryGet d k
  = Done (match find_in (entries d) (hasher d k) k (-1)
                  (ch (Z.rem (hasher d k) (len (buckets d)))) with
          | Some (_, _, item) => Some (value item)
          | None => None
          end).
Proof.
  intros Hs Hh. destruct (shape_index d ch _ Hs Hh) as [Hidx Hrange].
  unfold TryGet. rewrite Hidx. cbn. rewrite (shape_lookup d ch) by done. cbn.
  by destruct (find_in _ _ _ _ _) as [[[? ?] ?]|].
Qed.

Lemma shape_MakeHashDict (hasher0 : K → Z) (capacity : Z) d :
  MakeHashDict hasher0 capacity = Done d → shape d (λ _, []).
Proof.
  intros Hmk.
  destruct (Z.le_gt_cases capacity (2 ^ 62)) as [Hcap|Hcap].
  2: { rewrite MakeHashDict_large in Hmk by lia. done. }
  destruct (MakeHashDict_Done (V:=V) hasher0 capacity Hcap)
    as (d0 & Hmk0 & Hleast & Hbs & Hes & Hac & Hfc & Hfs & Hh & Hlf).
  assert (d0 = d) as -> by congruence.
  destruct (least_bucket_count_pow2 _ _ Hleast) as [_ H16].
  split; try done.
  - lia.
  - rewrite Hac, Hes, len_replicate; lia.
  - intros b head [Hb Hhead]%at_Done. apply Hbs in Hhead as ->.
    by constructor.
  - intros i e [Hi He]%at_Done. rewrite Hes in He.
    by apply lookup_replicate in He as [-> _].
  - intros b. constructor.
  - intros b1 b2 i Hin. by apply elem_of_nil in Hin.
Qed.

Lemma shape_Clear d ch : shape d ch → shape (Clear d) (λ _, []).
Proof.
  intros Hs. destruct Hs as [Hb Ha Hf Hl _ _ _ _ _].
  split; cbn; try done.
  - unfold len in *. by rewrite length_replicate.
  - unfold len in *. by rewrite length_replicate.
  - intros b head [_ Hhead]%at_Done.
    apply lookup_replicate in Hhead as [-> _]. by constructor.
  - intros i e [_ He]%at_Done. by apply lookup_replicate in He as [-> _].
  - intros b. constructor.
  - intros b1 b2 i Hin. by apply elem_of_nil in Hin.
Qed.

(** A chain survives every rewrite of its slots that keeps their links and
    their liveness. *)
Lemma is_chain_links es es' (h : Z) (l : list Z) :
  is_chain es h l →
  (∀ i e, i ∈ l → at_ es i = Done e →
          ∃ e', at_ es' i = Done e' ∧ next e' = next e ∧ alive e' = alive e) →
  is_chain es' h l.
Proof.
  induction 1 as [|j e l Hat Halive _ IH]; intros Hsame.
  - by constructor.
  - destruct (Hsame j e) as (e' & He' & Hn & Ha); [by left|done|].
    econstructor; [done|congruence|].
    rewrite Hn. apply IH. intros i ei Hi. apply Hsame. by right.
Qed.

Lemma shape_set_value d ch (i : Z) (item : entry K V) (v : V) :
  shape d ch → at_ (entries d) i = Done item →
  shape (set_entries d (<[Z.to_nat i := set_value item v]> (entries d))) ch.
Proof.
  intros Hs Hi. pose proof (at_range _ _ _ Hi) as Hrange.
  destruct Hs as [Hb Ha Hf Hl Hc Hr Hlive Hnd Hdj].
  split; cbn; try done.
  - by rewrite len_insert.
  - intros b head Hhead. eapply is_chain_links; [by eapply Hc|].
    intros j e _ Hj. destruct (decide (j = i)) as [->|Hne].
    + rewrite at_insert_eq by done. eexists. split; [done|].
      assert (e = item) as -> by congruence. done.
    + rewrite at_insert_ne by lia. by exists e.
  - intros j e Hj Halive. destruct (decide (j = i)) as [->|Hne].
    + rewrite at_insert_eq in Hj by done. inversion Hj; subst e.
      by apply (Hlive i item).
    + rewrite at_insert_ne in Hj by lia. by apply (Hlive j e).
Qed.

Lemma shape_extend d ch (n : nat) :
  shape d ch → shape (set_entries d (entries d ++ replicate n zero)) ch.
Proof.
  intros Hs. destruct Hs as [Hb Ha Hf Hl Hc Hr Hlive Hnd Hdj].
  split; cbn; try done.
  - rewrite len_app. pose proof (len_nonneg (replicate n (zero : entry K V))). lia.
  - intros b head Hhead. eapply is_chain_frame; [by eapply Hc|].
    intros i Hi. destruct (is_chain_elem _ _ _ _ (Hc _ _ Hhead) Hi) as (e & He & _).
    apply at_app_l. by eapply at_range.
  - intros i e Hi Halive. apply at_app_zero in Hi as [Hi| ->]; [|done].
    by apply (Hlive i e).
Qed.

End Shape_facts.

(** * Growth keeps the shape *)

Section Grow_shape.
Context {K V : Type} `{EqDecision K} `{Zero K} `{Zero V}.
Implicit Types d : hashMap K V.
Implicit Types es : list (entry K V).
Implicit Types ch : Z → list Z.

Lemma rehashed_weaken es (nb : list Z) ch (i : Z) :
  rehashed es nb ch i → rehashed es nb ch (i + 1).
Proof.
  intros [Hc Hr Hb Hnd Hdj]. split; try done.
  intros b j Hj. specialize (Hb b j Hj). lia.
Qed.

(** One round of the rehash loop on a live slot. *)
Lemma rehashed_push es (nb : list Z) ch (i : Z) (v : entry K V) (bucket head : Z) :
  rehashed es nb ch i →
  at_ es i = Done v → alive v = true →
  at_ nb bucket = Done head →
  rehashed (<[Z.to_nat i := set_next v head]> es) (<[Z.to_nat bucket := i]> nb)
           (<[bucket := i :: ch bucket]> ch) (i + 1).
Proof.
  intros [Hc Hr Hb Hnd Hdj] Hv Halive Hhead.
  pose proof (at_range _ _ _ Hv) as Hi.
  pose proof (at_range _ _ _ Hhead) as Hbucket.
  assert (∀ b j, j ∈ ch b → at_ (<[Z.to_nat i := set_next v head]> es) j = at_ es j)
    as Hframe.
  { intros b j Hj. specialize (Hb b j Hj). apply at_insert_ne; lia. }
  split.
  - intros b hd Hhd. destruct (decide (b = bucket)) as [->|Hne].
    + rewrite at_insert_eq in Hhd by done. inversion Hhd; subst hd.
      rewrite fn_lookup_insert. econstructor.
      * by apply at_insert_eq.
      * done.
      * cbn. eapply is_chain_frame; [by apply Hc|]. intros j Hj. by eapply Hframe.
    + rewrite at_insert_ne in Hhd by lia.
      rewrite fn_lookup_insert_ne by done.
      eapply is_chain_frame; [by apply Hc|]. intros j Hj. by eapply Hframe.
  - intros b Hout. rewrite len_insert in Hout.
    rewrite fn_lookup_insert_ne by (intros ->; lia). by apply Hr.
  - intros b j. destruct (decide (b = bucket)) as [->|Hne].
    + rewrite fn_lookup_insert. intros [->|Hj]%elem_of_cons; [lia|].
      specialize (Hb _ _ Hj). lia.
    + rewrite fn_lookup_insert_ne by done. intros Hj.
      specialize (Hb _ _ Hj). lia.
  - intros b. destruct (decide (b = bucket)) as [->|Hne].
    + rewrite fn_lookup_insert. apply list.NoDup_cons. split; [|done].
      intros Hj. specialize (Hb _ _ Hj). lia.
    + by rewrite fn_lookup_insert_ne.
  - intros b1 b2 j.
    destruct (decide (b1 = bucket)) as [->|Hne1];
      destruct (decide (b2 = bucket)) as [->|Hne2]; try done;
      rewrite ?fn_lookup_insert, ?fn_lookup_insert_ne by done.
    + intros [->|Hj1]%elem_of_cons Hj2; [|by eapply Hdj].
      specialize (Hb _ _ Hj2). lia.
    + intros Hj1 [->|Hj2]%elem_of_cons; [|by eapply Hdj].
      specialize (Hb _ _ Hj1). lia.
    + apply Hdj.
Qed.

(** The rehash loop returns, given hashes that are not negative, and leaves
    chains over all the live slots; only links are rewritten. *)
Lemma rehash_rehashed (n : nat) (i size : Z) es (nb : list Z) ch :
  0 ≤ i → i + Z.of_nat n = len es → len nb = size → 0 < size →
  (∀ j e, at_ es j = Done e → alive e = true → 0 ≤ hash e) →
  rehashed es nb ch i →
  ∃ es' nb' ch',
    rehash n i size es nb = Done (es', nb')
    ∧ rehashed es' nb' ch' (len es)
    ∧ len nb' = size ∧ len es' = len es
    ∧ (∀ j e', at_ es' j = Done e' → ∃ e, at_ es j = Done e ∧ same_payload e e').
Proof.
  revert i es nb ch.
  induction n as [|n IH]; intros i es nb ch Hi Hn Hnb Hsize Hhash Hre.
  - exists es, nb, ch. cbn [rehash]. replace (len es) with i by lia.
    split; [done|]. split; [done|]. split; [done|]. split; [done|].
    intros j e' He'. exists e'. by repeat split.
  - cbn [rehash].
    destruct (at_in_range es i) as (v & Hv); [lia|]. rewrite Hv, bind_Done_l.
    destruct (alive v) eqn:Halive.
    + pose proof (Hhash _ _ Hv Halive) as Hh.
      assert (0 ≤ Z.rem (hash v) size < size) as Hbucket
        by (apply Z.rem_bound_pos; lia).
      destruct (at_in_range nb (Z.rem (hash v) size)) as (head & Hhead); [lia|].
      rewrite Hhead, bind_Done_l.
      rewrite (upd_in_range es), bind_Done_l by lia.
      rewrite (upd_in_range nb), bind_Done_l by lia.
      destruct (IH (i + 1) (<[Z.to_nat i := set_next v head]> es)
                  (<[Z.to_nat (Z.rem (hash v) size) := i]> nb)
                  (<[Z.rem (hash v) size := i :: ch (Z.rem (hash v) size)]> ch))
        as (es' & nb' & ch' & Hrun & Hre' & Hnb' & Hes' & Hpay).
      * lia.
      * rewrite len_insert. lia.
      * by rewrite len_insert.
      * done.
      * intros j e Hj Ha. destruct (decide (j = i)) as [->|Hne].
        -- rewrite at_insert_eq in Hj by lia. inversion Hj; subst e. done.
        -- rewrite at_insert_ne in Hj by lia. by eapply Hhash.
      * by apply rehashed_push.
      * rewrite len_insert in *. exists es', nb', ch'.
        split; [done|]. split; [done|]. split; [done|]. split; [done|].
        intros j e' He'. destruct (Hpay j e' He') as (e & He & Hp).
        destruct (decide (j = i)) as [->|Hne].
        -- rewrite at_insert_eq in He by lia. inversion He; subst e.
           exists v. split; [done|]. destruct Hp as (?&?&?&?). by repeat split.
        -- rewrite at_insert_ne in He by lia. by exists e.
    + destruct (IH (i + 1) es nb ch) as (es' & nb' & ch' & Hrun & Hrest);
        try done; try lia.
      * by apply rehashed_weaken.
      * by exists es', nb', ch'.
Qed.

Lemma shape_of_rehashed d es (nb : list Z) ch ch' :
  shape d ch → rehashed es nb ch' (len es) →
  0 < len nb → len es = len (entries d) →
  (∀ j e', at_ es j = Done e' →
           ∃ e, at_ (entries d) j = Done e ∧ same_payload e e') →
  shape (set_buckets (set_entries d es) nb) ch'.
Proof.
  intros [Hb Ha Hf Hl _ _ Hlive _ _] [Hc Hr _ Hnd Hdj] Hnb Hes Hpay.
  split; cbn; try done.
  - by rewrite Hes.
  - intros i e' Hi Halive. destruct (Hpay i e' Hi) as (e & He & Hh & _ & _ & Hal).
    rewrite Hh. apply (Hlive i e He). congruence.
Qed.

(** [grow] returns on a well-shaped table and keeps it well-shaped. *)
Lemma shape_grow d ch (newSize : Z) :
  shape d ch → ∃ d1 ch1, grow d newSize = Done d1 ∧ shape d1 ch1.
Proof.
  intros Hs. pose proof (shape_buckets _ _ Hs) as Hb.
  unfold grow.
  assert (∃ d1 ch1,
    (if len (buckets d) =? 0 then Panic
     else if loadFactor d <? Z.quot newSize (len (buckets d)) then
       newBuckets ← make (len (buckets d) * 2) (-1);
       '(es, nb) ← rehash (length (entries d)) 0 (len (buckets d) * 2)
                     (entries d) newBuckets;
       Done (set_buckets (set_entries d es) nb)
     else Done d) = Done d1
    ∧ shape d1 ch1 ∧ len (entries d1) = len (entries d))
    as (d1 & ch1 & -> & Hs1 & Hlen).
  { destruct (Z.eqb_spec (len (buckets d)) 0); [lia|].
    destruct (loadFactor d <? _); [|by exists d, ch].
    unfold make. destruct (Z.ltb_spec (len (buckets d) * 2) 0); [lia|].
    rewrite bind_Done_l.
    destruct (rehash_rehashed (length (entries d)) 0 (len (buckets d) * 2)
                (entries d) (replicate (Z.to_nat (len (buckets d) * 2)) (-1))
                (λ _, []))
      as (es' & nb' & ch' & Hrun & Hre & Hnb & Hes & Hpay).
    - lia.
    - unfold len. lia.
    - apply len_replicate. lia.
    - lia.
    - intros j e Hj Halive. by apply (shape_live _ _ Hs j e).
    - split.
      + intros b head [_ Hhead]%at_Done.
        apply lookup_replicate in Hhead as [-> _]. by constructor.
      + done.
      + intros b j Hj. by apply elem_of_nil in Hj.
      + intros b. constructor.
      + intros b1 b2 j Hj. by apply elem_of_nil in Hj.
    - rewrite Hrun, bind_Done_l. exists (set_buckets (set_entries d es') nb'), ch'.
      split; [done|]. split; [|done].
      rewrite <- Hes in Hre.
      apply (shape_of_rehashed d es' nb' ch ch'); try done. lia. }
  rewrite bind_Done_l.
  destruct (Z.ltb_spec (len (entries d)) newSize).
  - unfold make. pose proof (len_nonneg (entries d)).
    rewrite Z.shiftl_mul_pow2 by lia.
    destruct (Z.ltb_spec (len (entries d) + len (entries d) * 2 ^ 1) 0); [lia|].
    rewrite bind_Done_l. eexists _, ch1. split; [done|].
    rewrite copy_longer by (unfold len in *; lia).
    by apply shape_extend.
  - by exists d1, ch1.
Qed.

End Grow_shape.

(** * [Put] and [Remove] keep the shape *)

Section Put_shape.
Context {K V : Type} `{EqDecision K} `{Zero K} `{Zero V}.
Implicit Types d : hashMap K V.
Implicit Types es : list (entry K V).
Implicit Types ch : Z → list Z.

Lemma shape_link_new d ch (idx h : Z) (k : K) (v : V) :
  shape d ch → 0 ≤ idx < len (buckets d) → 0 ≤ h →
  appendCount d + 1 < len (entries d) →
  ∃ head,
    at_ (buckets d) idx = Done head
    ∧ link_new (set_appendCount d (appendCount d + 1)) idx (appendCount d) h k v
      = Done (linked d idx head h k v)
    ∧ shape (linked d idx head h k v) (<[idx := appendCount d :: ch idx]> ch).
Proof.
  intros Hs Hidx Hh Hroom.
  destruct (at_in_range _ _ Hidx) as (head & Hhead). exists head.
  split; [done|].
  destruct Hs as [Hb Ha Hf Hl Hc Hr Hlive Hnd Hdj].
  split.
  { unfold link_new. cbn [buckets entries set_appendCount].
    rewrite Hhead, bind_Done_l.
    rewrite (upd_in_range (entries d)), bind_Done_l by lia.
    rewrite (upd_in_range (buckets d)), bind_Done_l by lia. done. }
  assert (∀ b j, j ∈ ch b → j < appendCount d) as Hbelow.
  { intros b j Hj. destruct (decide (0 ≤ b < len (buckets d))) as [Hin|Hout].
    - destruct (at_in_range _ _ Hin) as (hd & Hhd).
      destruct (is_chain_elem _ _ _ _ (Hc _ _ Hhd) Hj) as (e & He & Halive).
      by apply (Hlive j e).
    - rewrite (Hr b Hout) in Hj. by apply elem_of_nil in Hj. }
  assert (∀ b j, j ∈ ch b →
            at_ (<[Z.to_nat (appendCount d) :=
                     {| hash := h; key := k; value := v; next := head; alive := true |}]>
                   (entries d)) j = at_ (entries d) j) as Hframe.
  { intros b j Hj. specialize (Hbelow b j Hj). apply at_insert_ne; lia. }
  split; cbn; try done.
  - by rewrite len_insert.
  - rewrite len_insert. lia.
  - intros b hd Hhd. destruct (decide (b = idx)) as [->|Hne].
    + rewrite at_insert_eq in Hhd by done. inversion Hhd; subst hd.
      rewrite fn_lookup_insert. econstructor.
      * apply at_insert_eq. lia.
      * done.
      * cbn. eapply is_chain_frame; [by apply Hc|]. intros j Hj. by eapply Hframe.
    + rewrite at_insert_ne in Hhd by lia. rewrite fn_lookup_insert_ne by done.
      eapply is_chain_frame; [by apply Hc|]. intros j Hj. by eapply Hframe.
  - intros b Hout. rewrite len_insert in Hout.
    rewrite fn_lookup_insert_ne by (intros ->; lia). by apply Hr.
  - intros j e Hj Halive. destruct (decide (j = appendCount d)) as [->|Hne].
    + rewrite at_insert_eq in Hj by lia. inversion Hj; subst e. cbn. lia.
    + rewrite at_insert_ne in Hj by lia. destruct (Hlive j e Hj Halive). lia.
  - intros b. destruct (decide (b = idx)) as [->|Hne].
    + rewrite fn_lookup_insert. apply list.NoDup_cons. split; [|done].
      intros Hj. specialize (Hbelow _ _ Hj). lia.
    + by rewrite fn_lookup_insert_ne.
  - intros b1 b2 j.
    destruct (decide (b1 = idx)) as [->|Hne1];
      destruct (decide (b2 = idx)) as [->|Hne2]; try done;
      rewrite ?fn_lookup_insert, ?fn_lookup_insert_ne by done.
    + intros [->|Hj1]%elem_of_cons Hj2; [|by eapply Hdj].
      specialize (Hbelow _ _ Hj2). lia.
    + intros Hj1 [->|Hj2]%elem_of_cons; [|by eapply Hdj].
      specialize (Hbelow _ _ Hj1). lia.
    + apply Hdj.
Qed.

(** [Put] on a key that is not found, in terms of the table [grow] leaves. *)
Lemma Put_new_slot d ch (k : K) (v : V) :
  shape d ch → 0 ≤ hasher d k →
  find_in (entries d) (hasher d k) k (-1)
    (ch (Z.rem (hasher d k) (len (buckets d)))) = None →
  ∃ d1 head,
    grow d (Size d + 1) = Done d1
    ∧ at_ (buckets d1) (Z.rem (hasher d k) (len (buckets d))) = Done head
    ∧ appendCount d1 + 1 < len (entries d1)
    ∧ Put d k v
      = Done (linked d1 (Z.rem (hasher d k) (len (buckets d))) head
                (hasher d k) k v, None)
    ∧ ∀ ch1, shape d1 ch1 →
        shape (linked d1 (Z.rem (hasher d k) (len (buckets d))) head
                 (hasher d k) k v)
              (<[Z.rem (hasher d k) (len (buckets d))
                 := appendCount d1 :: ch1 (Z.rem (hasher d k) (len (buckets d)))]> ch1).
Proof.
  intros Hs Hh Hfind.
  destruct (shape_index d ch _ Hs Hh) as [Hidx Hrange].
  destruct (shape_grow d ch (Size d + 1) Hs) as (d1 & ch1 & Hgrow & Hs1).
  pose proof (grow_fields _ _ _ Hgrow) as (Hac & _ & Hfs & _ & _).
  pose proof (grow_entries _ _ _ Hgrow) as (Hlen & _ & _).
  pose proof (grow_buckets _ _ _ Hgrow) as Hsd.
  pose proof (shape_append _ _ Hs) as Ha.
  pose proof (shape_free _ _ Hs) as Hf.
  pose proof (shape_buckets _ _ Hs) as Hb.
  assert (appendCount d1 + 1 < len (entries d1)) as Hroom.
  { unfold Size in Hlen. rewrite Hac.
    destruct (Z.ltb_spec (len (entries d)) (appendCount d - freeSize d + 1 + 1)); lia. }
  assert (0 ≤ Z.rem (hasher d k) (len (buckets d)) < len (buckets d1)) as Hrange1.
  { destruct Hsd as [->| ->]; lia. }
  destruct (shape_link_new d1 ch1 _ (hasher d k) k v Hs1 Hrange1 Hh Hroom)
    as (head & Hhead & Hlink & _).
  exists d1, head. split; [done|]. split; [done|]. split; [done|]. split.
  - unfold Put. rewrite Hidx, bind_Done_l.
    rewrite (shape_lookup d ch) by done. rewrite bind_Done_l, Hfind.
    unfold take_slot. rewrite Hf. cbn [Z.ltb Z.compare].
    rewrite Hgrow, !bind_Done_l. rewrite Hlink. done.
  - intros ch1' Hs1'.
    by destruct (shape_link_new d1 ch1' _ (hasher d k) k v Hs1' Hrange1 Hh Hroom)
      as (head' & Hhead' & _ & Hshape); assert (head' = head) as -> by congruence.
Qed.

(** [Put] on a key that is found. *)
Lemma Put_found d ch (k : K) (v : V) (last i : Z) (item : entry K V) :
  shape d ch → 0 ≤ hasher d k →
  find_in (entries d) (hasher d k) k (-1)
    (ch (Z.rem (hasher d k) (len (buckets d)))) = Some (last, i, item) →
  at_ (entries d) i = Done item
  ∧ Put d k v
    = Done (set_entries d (<[Z.to_nat i := set_value item v]> (entries d)),
            Some (value item)).
Proof.
  intros Hs Hh Hfind.
  destruct (shape_index d ch _ Hs Hh) as [Hidx Hrange].
  pose proof Hfind as Hfind0.
  apply find_in_Some in Hfind as (l1 & l2 & _ & Hi & _).
  pose proof (at_range _ _ _ Hi).
  split; [done|].
  unfold Put. rewrite Hidx, bind_Done_l.
  rewrite (shape_lookup d ch) by done. rewrite bind_Done_l, Hfind0.
  by rewrite upd_in_range, bind_Done_l.
Qed.

(** [Put] returns on a well-shaped table when the hash of the key is not
    negative, and keeps the table well-shaped. *)
Lemma shape_Put d ch (k : K) (v : V) :
  shape d ch → 0 ≤ hasher d k →
  ∃ d' r, Put d k v = Done (d', r) ∧ well_shaped d'.
Proof.
  intros Hs Hh.
  destruct (find_in (entries d) (hasher d k) k (-1)
              (ch (Z.rem (hasher d k) (len (buckets d)))))
    as [[[last i] item]|] eqn:Hfind.
  - destruct (Put_found d ch k v _ _ _ Hs Hh Hfind) as [Hi Hput].
    eexists _, _. split; [done|]. exists ch. by apply shape_set_value.
  - destruct (Put_new_slot d ch k v Hs Hh Hfind)
      as (d1 & head & Hgrow & _ & _ & Hput & Hshape).
    destruct (shape_grow d ch (Size d + 1) Hs) as (d1' & ch1 & Hgrow' & Hs1).
    assert (d1' = d1) as -> by congruence.
    eexists _, None. split; [done|]. eexists. by apply Hshape.
Qed.

End Put_shape.

Section Remove_shape.
Context {K V : Type} `{EqDecision K} `{Zero K} `{Zero V}.
Implicit Types d : hashMap K V.
Implicit Types es : list (entry K V).
Implicit Types ch : Z → list Z.

(** The slots of the table [Remove] leaves. *)
Lemma after_Remove_entries d (idx : Z) (i : Z) (item : entry K V) :
  at_ (entries d) i = Done item →
  len (entries (after_Remove d idx i item)) = len (entries d)
  ∧ at_ (entries (after_Remove d idx i item)) i
    = Done {| hash := 0; key := zero; value := zero;
              next := freeCount d; alive := false |}
  ∧ (∀ j, j ≠ i → at_ (entries (after_Remove d idx i item)) j = at_ (entries d) j).
Proof.
  intros Hi. pose proof (at_range _ _ _ Hi) as Hirange.
  unfold after_Remove. cbn [entries set_entries set_freeCount set_buckets].
  split; [by rewrite !len_insert|].
  split; [by apply at_insert_eq|].
  intros j Hji. apply at_insert_ne; lia.
Qed.

(** [Remove] on a key that is found after the slots [l1] of its chain:
    the chain of the bucket is cut down to the slots [l2] that follow the
    slot of the key. *)
Lemma Remove_found d ch (k : K) (last i : Z) (item : entry K V) :
  shape d ch → 0 ≤ hasher d k →
  find_in (entries d) (hasher d k) k (-1)
    (ch (Z.rem (hasher d k) (len (buckets d)))) = Some (last, i, item) →
  ∃ l1 l2,
    ch (Z.rem (hasher d k) (len (buckets d))) = l1 ++ i :: l2
    ∧ at_ (entries d) i = Done item ∧ key item = k
    ∧ (∀ j ej, j ∈ l1 → at_ (entries d) j = Done ej →
               ¬ (hash ej = hasher d k ∧ key ej = k))
    ∧ Remove d k
      = Done (after_Remove d (Z.rem (hasher d k) (len (buckets d))) i item,
              Some (value item))
    ∧ shape (after_Remove d (Z.rem (hasher d k) (len (buckets d))) i item)
            (<[Z.rem (hasher d k) (len (buckets d)) := l2]> ch).
Proof.
  intros Hs Hh Hfind.
  destruct (shape_index d ch _ Hs Hh) as [Hidx Hrange].
  set (idx := Z.rem (hasher d k) (len (buckets d))) in *.
  pose proof Hfind as Hfind0.
  apply find_in_Some in Hfind as (l1 & l2 & Hch & Hi & _ & Hkey & -> & Hnot).
  exists l1, l2. split; [done|]. split; [done|]. split; [done|]. split; [done|].
  pose proof (at_range _ _ _ Hi) as Hirange.
  pose proof (shape_nodup _ _ Hs idx) as Hnd. rewrite Hch in Hnd.
  destruct (at_in_range _ _ Hrange) as (head & Hhead).
  pose proof (shape_chain _ _ Hs _ _ Hhead) as Hchain. rewrite Hch in Hchain.
  destruct (after_Remove_entries d idx i item Hi) as (Hlen & Hati & Hother).
  apply list.NoDup_app in Hnd as (_ & _ & Hnd2).
  apply list.NoDup_cons in Hnd2 as [Hi2 Hnd2].
  split.
  - unfold Remove. rewrite Hidx, bind_Done_l.
    rewrite (shape_lookup d ch) by done. rewrite bind_Done_l, Hfind0.
    change (-1 <? 0) with true. cbn match.
    rewrite Hi, bind_Done_l.
    rewrite (upd_in_range (buckets d)), !bind_Done_l by done.
    cbn [entries set_buckets].
    rewrite upd_in_range, bind_Done_l by done.
    done.
  - assert (∀ b j, b ≠ idx → j ∈ ch b →
              at_ (entries (after_Remove d idx i item)) j = at_ (entries d) j)
      as Hframe.
    { intros b j Hb Hj. apply Hother.
      intros ->. apply Hb. apply (shape_disjoint _ _ Hs b idx i); [done|].
      rewrite Hch. apply elem_of_app. right. by left. }
    assert (buckets (after_Remove d idx i item)
            = <[Z.to_nat idx := next item]> (buckets d)) as Hbs by done.
    assert (len (buckets (after_Remove d idx i item)) = len (buckets d)) as Hblen.
    { by rewrite Hbs, len_insert. }
    destruct Hs as [Hb Ha Hf Hl Hc Hr Hlive Hnd0 Hdj].
    split.
    + by rewrite Hblen.
    + by rewrite Hlen.
    + done.
    + done.
    + intros b hd Hhd. destruct (decide (b = idx)) as [->|Hne].
      * rewrite fn_lookup_insert.
        assert (hd = next item) as ->.
        { rewrite Hbs, at_insert_eq in Hhd by done. congruence. }
        eapply is_chain_frame; [by eapply is_chain_after|].
        intros j Hj. apply Hother. by intros ->.
      * rewrite fn_lookup_insert_ne by done.
        assert (at_ (buckets d) b = Done hd) as Hhd0.
        { by rewrite Hbs, at_insert_ne in Hhd by lia. }
        eapply is_chain_frame; [by apply Hc|]. intros j Hj. by eapply Hframe.
    + intros b Hout. rewrite Hblen in Hout.
      rewrite fn_lookup_insert_ne by (intros ->; lia). by apply Hr.
    + intros j e' Hj Halive.
      destruct (decide (j = i)) as [->|Hji].
      { rewrite Hati in Hj. by inversion Hj; subst e'. }
      rewrite Hother in Hj by done. by apply (Hlive j e').
    + intros b. destruct (decide (b = idx)) as [->|Hne].
      * by rewrite fn_lookup_insert.
      * by rewrite fn_lookup_insert_ne.
    + assert (∀ j, j ∈ l2 → j ∈ ch idx) as Hsub.
      { intros j Hj. rewrite Hch. apply elem_of_app. right. by right. }
      intros b1 b2 j.
      destruct (decide (b1 = idx)) as [->|Hne1];
        destruct (decide (b2 = idx)) as [->|Hne2]; try done;
        rewrite ?fn_lookup_insert, ?fn_lookup_insert_ne by done.
      * intros Hj1 Hj2. apply (Hdj idx b2 j); [by apply Hsub | done].
      * intros Hj1 Hj2. apply (Hdj b1 idx j); [done | by apply Hsub].
      * apply Hdj.
Qed.

(** [Remove] returns on a well-shaped table when the hash of the key is not
    negative, and keeps the table well-shaped. *)
Lemma shape_Remove d ch (k : K) :
  shape d ch → 0 ≤ hasher d k →
  ∃ d' r, Remove d k = Done (d', r) ∧ well_shaped d'.
Proof.
  intros Hs Hh.
  destruct (find_in (entries d) (hasher d k) k (-1)
              (ch (Z.rem (hasher d k) (len (buckets d)))))
    as [[[last i] item]|] eqn:Hfind.
  - destruct (Remove_found d ch k _ _ _ Hs Hh Hfind)
      as (l1 & l2 & _ & _ & _ & _ & Hrm & Hshape).
    eexists _, _. split; [done|]. by eexists.
  - destruct (shape_index d ch _ Hs Hh) as [Hidx Hrange].
    exists d, None. split; [|by exists ch].
    unfold Remove. rewrite Hidx, bind_Done_l.
    rewrite (shape_lookup d ch) by done. by rewrite bind_Done_l, Hfind.
Qed.

End Remove_shape.

(** * Sequences of operations never panic *)

Section Run_shape.
Context {K V : Type} `{EqDecision K} `{Zero K} `{Zero V}.
Implicit Types d : hashMap K V.
Implicit Types ch : Z → list Z.

Lemma shape_GetAndPut d ch (k : K) (set : option V → V) :
  shape d ch → 0 ≤ hasher d k →
  ∃ d' r, GetAndPut d k (pure_callback set) = Done (d', r) ∧ well_shaped d'
          ∧ hasher d' = hasher d.
Proof.
  intros Hs Hh. rewrite GetAndPut_is_TryGet_then_Put.
  rewrite (shape_TryGet d ch) by done. rewrite bind_Done_l.
  destruct (shape_Put d ch k (set (match find_in (entries d) (hasher d k) k (-1)
              (ch (Z.rem (hasher d k) (len (buckets d)))) with
            | Some (_, _, item) => Some (value item) | None => None end)) Hs Hh)
    as (d' & r & Hput & Hs').
  rewrite Hput, bind_Done_l. eexists _, _. split; [done|]. split; [done|].
  by apply Put_fields in Hput as (? & _).
Qed.

Lemma shape_step d (o : op K V) :
  well_shaped d → op_hash_nonneg (hasher d) o →
  ∃ d', step d o = Done d' ∧ well_shaped d' ∧ hasher d' = hasher d.
Proof.
  intros [ch Hs] Ho. destruct o as [k v|k set|k|]; cbn [step op_hash_nonneg] in *.
  - destruct (shape_Put d ch k v Hs Ho) as (d' & r & Hput & Hs').
    rewrite Hput, bind_Done_l. exists d'. split; [done|]. split; [done|].
    by apply Put_fields in Hput as (? & _).
  - destruct (shape_GetAndPut d ch k set Hs Ho) as (d' & r & Hput & Hs' & Hh).
    rewrite Hput, bind_Done_l. by exists d'.
  - destruct (shape_Remove d ch k Hs Ho) as (d' & r & Hrm & Hs').
    rewrite Hrm, bind_Done_l. exists d'. split; [done|]. split; [done|].
    by apply Remove_fields in Hrm as (? & _).
  - exists (Clear d). split; [reflexivity|]. split; [|reflexivity].
    exists (λ _, []). by eapply shape_Clear.
Qed.

Lemma shape_run (ops : list (op K V)) d :
  well_shaped d → Forall (op_hash_nonneg (hasher d)) ops →
  ∃ d', run d ops = Done d' ∧ well_shaped d' ∧ hasher d' = hasher d.
Proof.
  revert d. induction ops as [|o ops IH]; intros d Hs Hops.
  - by exists d.
  - apply list.Forall_cons in Hops as [Ho Hops]. cbn [run].
    destruct (shape_step d o Hs Ho) as (d1 & -> & Hs1 & Hh1).
    rewrite bind_Done_l. rewrite <- Hh1 in Hops.
    destruct (IH d1 Hs1 Hops) as (d' & Hrun & Hs' & Hh').
    exists d'. split; [done|]. split; [done|]. congruence.
Qed.

Lemma shape_Contains d ch (k : K) :
  shape d ch → 0 ≤ hasher d k → ∃ b, Contains d k = Done b.
Proof.
  intros Hs Hh. unfold Contains. rewrite (shape_TryGet d ch) by done.
  rewrite bind_Done_l. by eexists.
Qed.

(** On a table made by [MakeHashDict], every sequence of [Put],
    [GetAndPut], [Remove] and [Clear] on keys whose hash is not negative
    returns: no index is out of range and no walk runs forever.  The
    lookups on the table it leaves return as well. *)
Lemma operations_never_panic (hasher0 : K → Z) (capacity : Z)
    (ops : list (op K V)) :
  capacity ≤ 2 ^ 62 →
  Forall (op_hash_nonneg hasher0) ops →
  ∃ d0 d,
    MakeHashDict hasher0 capacity = Done d0
    ∧ run d0 ops = Done d
    ∧ ∀ k, 0 ≤ hasher0 k →
        (∃ r, TryGet d k = Done r) ∧ (∃ b, Contains d k = Done b)
        ∧ (∃ d' r, Remove d k = Done (d', r))
        ∧ (∀ v, ∃ d' r, Put d k v = Done (d', r)).
Proof.
  intros Hcap Hops.
  destruct (MakeHashDict_Done (V:=V) hasher0 capacity Hcap)
    as (d0 & Hmk & _ & _ & _ & _ & _ & _ & Hh0 & _).
  pose proof (shape_MakeHashDict _ _ _ Hmk) as Hs0.
  rewrite <- Hh0 in Hops.
  destruct (shape_run ops d0) as (d & Hrun & [ch Hs] & Hh); [by eexists|done|].
  exists d0, d. split; [done|]. split; [done|].
  intros k Hk. rewrite <- Hh0, <- Hh in Hk.
  split; [|split; [|split]].
  - rewrite (shape_TryGet d ch) by done. by eexists.
  - by eapply shape_Contains.
  - destruct (shape_Remove d ch k Hs Hk) as (d' & r & Hrm & _). by exists d', r.
  - intros v. destruct (shape_Put d ch k v Hs Hk) as (d' & r & Hput & _).
    by exists d', r.
Qed.

End Run_shape.

(** * The reference dictionary *)

Section Reference_facts.
Context {K V : Type} `{EqDecision K}.
Implicit Types m : list (K * V).

Lemma ref_get_absent m (k : K) : k ∉ m.*1 → ref_get m k = None.
Proof.
  induction m as [|[k' v'] m IH]; intros Hk; cbn [ref_get]; [done|].
  rewrite fmap_cons, not_elem_of_cons in Hk. destruct Hk as [Hne Hk].
  rewrite decide_False by (cbn in Hne; congruence). by apply IH.
Qed.

Lemma ref_get_middle m1 m2 (k : K) (v : V) :
  k ∉ m1.*1 → ref_get (m1 ++ (k, v) :: m2) k = Some v.
Proof.
  induction m1 as [|[k' v'] m1 IH]; intros Hk; cbn [ref_get app].
  - by rewrite decide_True.
  - rewrite fmap_cons, not_elem_of_cons in Hk. destruct Hk as [Hne Hk].
    rewrite decide_False by (cbn in Hne; congruence). by apply IH.
Qed.

Lemma ref_put_absent m (k : K) (v : V) :
  k ∉ m.*1 → ref_put m k v = m ++ [(k, v)].
Proof.
  induction m as [|[k' v'] m IH]; intros Hk; cbn [ref_put app]; [done|].
  rewrite fmap_cons, not_elem_of_cons in Hk. destruct Hk as [Hne Hk].
  rewrite decide_False by (cbn in Hne; congruence). by rewrite IH.
Qed.

Lemma ref_put_middle m1 m2 (k : K) (old v : V) :
  k ∉ m1.*1 → ref_put (m1 ++ (k, old) :: m2) k v = m1 ++ (k, v) :: m2.
Proof.
  induction m1 as [|[k' v'] m1 IH]; intros Hk; cbn [ref_put app].
  - by rewrite decide_True.
  - rewrite fmap_cons, not_elem_of_cons in Hk. destruct Hk as [Hne Hk].
    rewrite decide_False by (cbn in Hne; congruence). by rewrite IH.
Qed.

Lemma ref_remove_absent m (k : K) : k ∉ m.*1 → ref_remove m k = m.
Proof.
  unfold ref_remove. induction m as [|[k' v'] m IH]; intros Hk; [done|].
  rewrite fmap_cons, not_elem_of_cons in Hk. destruct Hk as [Hne Hk].
  rewrite filter_cons_True by (cbn in *; congruence). by rewrite IH.
Qed.

Lemma ref_remove_middle m1 m2 (k : K) (v : V) :
  k ∉ m1.*1 → k ∉ m2.*1 → ref_remove (m1 ++ (k, v) :: m2) k = m1 ++ m2.
Proof.
  intros H1 H2. unfold ref_remove.
  rewrite list.filter_app, filter_cons_False by (cbn; intros Hne; by apply Hne).
  fold (ref_remove m1 k). fold (ref_remove m2 k).
  by rewrite !ref_remove_absent.
Qed.

(** The keys of a list with distinct keys, around one of its pairs. *)
Lemma NoDup_keys_middle m1 m2 (k : K) (v : V) :
  NoDup (m1 ++ (k, v) :: m2).*1 →
  (k ∉ m1.*1) ∧ (k ∉ m2.*1) ∧ NoDup (m1 ++ m2).*1.
Proof.
  rewrite !fmap_app, fmap_cons. cbn. intros Hnd.
  apply list.NoDup_app in Hnd as (Hn1 & Hnot & Hn2).
  apply list.NoDup_cons in Hn2 as [Hk2 Hn2].
  split; [|split; [done|]].
  - intros Hk1. apply (Hnot k Hk1). by left.
  - apply list.NoDup_app. split; [done|]. split; [|done].
    intros x Hx1 Hx2. apply (Hnot x Hx1). by right.
Qed.

(** The reference dictionary behaves as a dictionary. *)
Lemma ref_get_put m (k k' : K) (v : V) :
  ref_get (ref_put m k v) k' = if decide (k' = k) then Some v else ref_get m k'.
Proof.
  induction m as [|[k0 v0] m IH]; cbn [ref_put ref_get].
  - destruct (decide (k = k')) as [->|Hne].
    + by rewrite decide_True.
    + by rewrite decide_False by congruence.
  - destruct (decide (k0 = k)) as [->|Hne0]; cbn [ref_get].
    + destruct (decide (k = k')) as [->|Hne].
      * by rewrite decide_True.
      * by rewrite decide_False by congruence.
    + destruct (decide (k0 = k')) as [->|Hne].
      * by rewrite decide_False.
      * apply IH.
Qed.


End Reference_facts.

(** * The live pairs of a slice *)

Section Live_pairs.
Context {K V : Type} `{EqDecision K} `{Zero K} `{Zero V}.
Implicit Types d : hashMap K V.
Implicit Types es : list (entry K V).

Lemma live_pairs_app d es1 es2 :
  live_pairs (set_entries d (es1 ++ es2))
  = live_pairs (set_entries d es1) ++ live_pairs (set_entries d es2).
Proof. unfold live_pairs. cbn. by rewrite list.filter_app, map_app. Qed.

Lemma live_pairs_dead d es :
  (∀ e, e ∈ es → alive e = false) → live_pairs (set_entries d es) = [].
Proof.
  unfold live_pairs. cbn. induction es as [|e es IH]; intros Hdead; [done|].
  rewrite filter_cons_False.
  - apply IH. intros e' He'. apply Hdead. by right.
  - rewrite (Hdead e) by (by left). done.
Qed.

Lemma live_pairs_set_entries d es :
  es = entries d → live_pairs (set_entries d es) = live_pairs d.
Proof. by intros ->. Qed.

(** The live pairs around slot [n]. *)
Lemma live_pairs_split d es (n : nat) (e : entry K V) :
  es !! n = Some e →
  live_pairs (set_entries d es)
  = live_pairs (set_entries d (take n es))
    ++ live_pairs (set_entries d [e])
    ++ live_pairs (set_entries d (drop (S n) es)).
Proof.
  intros Hn. rewrite <- !live_pairs_app. cbn [app].
  by rewrite (take_drop_middle es n e).
Qed.

Lemma live_pairs_insert d es (n : nat) (e : entry K V) :
  (n < length es)%nat →
  live_pairs (set_entries d (<[n := e]> es))
  = live_pairs (set_entries d (take n es))
    ++ live_pairs (set_entries d [e])
    ++ live_pairs (set_entries d (drop (S n) es)).
Proof.
  intros Hn. rewrite <- !live_pairs_app. cbn [app].
  by rewrite insert_take_drop.
Qed.

Lemma live_pairs_one_live d (e : entry K V) :
  alive e = true → live_pairs (set_entries d [e]) = [(key e, value e)].
Proof.
  intros Ha. unfold live_pairs. cbn [entries set_entries].
  by rewrite filter_cons_True.
Qed.

Lemma live_pairs_one_dead d (e : entry K V) :
  alive e = false → live_pairs (set_entries d [e]) = [].
Proof. intros Ha. apply live_pairs_dead. by intros e' ->%list_elem_of_singleton. Qed.

(** Rewriting a link does not change the live pairs. *)
Lemma live_pairs_set_next d es (n : nat) (e : entry K V) (x : Z) :
  es !! n = Some e →
  live_pairs (set_entries d (<[n := set_next e x]> es))
  = live_pairs (set_entries d es).
Proof.
  intros Hn. rewrite live_pairs_insert by (by eapply lookup_lt_Some).
  rewrite (live_pairs_split d es n e Hn). f_equal. f_equal.
  destruct (alive e) eqn:Ha.
  - by rewrite !live_pairs_one_live.
  - by rewrite !live_pairs_one_dead.
Qed.

(** A pair of the live pairs comes from a live slot. *)
Lemma live_pairs_elem d (k : K) :
  k ∈ (live_pairs d).*1 →
  ∃ i e, at_ (entries d) i = Done e ∧ alive e = true ∧ key e = k.
Proof.
  unfold live_pairs. rewrite <- list_fmap_compose.
  intros (e & -> & He)%list_elem_of_fmap.
  apply list_elem_of_filter in He as [Ha He].
  apply list_elem_of_lookup in He as (n & Hn).
  exists (Z.of_nat n), e. split; [|done].
  apply at_Done. split; [lia|]. by rewrite Nat2Z.id.
Qed.

End Live_pairs.

(** * Tables that refine the reference dictionary *)

Section Refines.
Context {K V : Type} `{EqDecision K} `{Zero K} `{Zero V}.
Implicit Types d : hashMap K V.
Implicit Types es : list (entry K V).
Implicit Types ch : Z → list Z.
Implicit Types m : list (K * V).

(** A key that the walk does not find is not in the dictionary. *)
Lemma refines_absent d ch m (k : K) :
  refines d ch m → 0 ≤ hasher d k →
  find_in (entries d) (hasher d k) k (-1)
    (ch (Z.rem (hasher d k) (len (buckets d)))) = None →
  k ∉ m.*1.
Proof.
  intros [Hs Hbucket Hcomplete Hkeys Hpairs] Hh Hfind Hk.
  rewrite <- Hpairs in Hk.
  apply live_pairs_elem in Hk as (i & e & Hi & Halive & Hkey).
  pose proof (Hcomplete i e Hi Halive) as Hin.
  destruct (Hbucket _ i e Hin Hi) as [Hhash _].
  rewrite Hkey in Hhash. rewrite Hhash in Hin.
  destruct (shape_index d ch _ Hs Hh) as [_ Hrange].
  destruct (at_in_range _ _ Hrange) as (head & Hhead).
  pose proof (shape_chain _ _ Hs _ _ Hhead) as Hchain.
  by apply (find_in_None _ _ _ _ _ _ Hchain Hfind i e Hin Hi).
Qed.

(** A key that the walk finds is in the dictionary, once, with the value of
    the slot found. *)
Lemma refines_found d ch m (k : K) (last i : Z) (item : entry K V) :
  refines d ch m → 0 ≤ hasher d k →
  find_in (entries d) (hasher d k) k (-1)
    (ch (Z.rem (hasher d k) (len (buckets d)))) = Some (last, i, item) →
  ∃ m1 m2,
    m = m1 ++ (k, value item) :: m2
    ∧ (k ∉ m1.*1) ∧ (k ∉ m2.*1) ∧ NoDup (m1 ++ m2).*1
    ∧ entries d !! Z.to_nat i = Some item ∧ 0 ≤ i ∧ alive item = true
    ∧ live_pairs (set_entries d (take (Z.to_nat i) (entries d))) = m1
    ∧ live_pairs (set_entries d (drop (S (Z.to_nat i)) (entries d))) = m2.
Proof.
  intros [Hs Hbucket Hcomplete Hkeys Hpairs] Hh Hfind.
  destruct (shape_index d ch _ Hs Hh) as [_ Hrange].
  destruct (at_in_range _ _ Hrange) as (head & Hhead).
  pose proof (shape_chain _ _ Hs _ _ Hhead) as Hchain.
  apply find_in_Some in Hfind as (l1 & l2 & Hch & Hi & _ & Hkey & _).
  destruct (is_chain_elem _ _ _ i Hchain) as (e & He & Halive).
  { rewrite Hch. apply elem_of_app. right. by left. }
  assert (e = item) as -> by congruence.
  apply at_Done in Hi as [Hi0 Hi].
  exists (live_pairs (set_entries d (take (Z.to_nat i) (entries d)))),
         (live_pairs (set_entries d (drop (S (Z.to_nat i)) (entries d)))).
  assert (m = live_pairs (set_entries d (take (Z.to_nat i) (entries d)))
              ++ (k, value item)
              :: live_pairs (set_entries d (drop (S (Z.to_nat i)) (entries d))))
    as Hm.
  { rewrite <- Hpairs, <- (live_pairs_set_entries d (entries d)) by done.
    rewrite (live_pairs_split d _ _ _ Hi), live_pairs_one_live by done.
    by rewrite Hkey. }
  rewrite Hm in Hkeys. apply NoDup_keys_middle in Hkeys as (? & ? & ?).
  by repeat split.
Qed.

(** On a table that refines [m], [TryGet] returns what [m] holds. *)
Lemma refines_TryGet d ch m (k : K) :
  refines d ch m → 0 ≤ hasher d k → TryGet d k = Done (ref_get m k).
Proof.
  intros Hr Hh. rewrite (shape_TryGet d ch) by (done || apply Hr).
  destruct (find_in _ _ _ _ _) as [[[last i] item]|] eqn:Hfind.
  - destruct (refines_found d ch m k _ _ _ Hr Hh Hfind) as (m1 & m2 & -> & Hk1 & _).
    by rewrite ref_get_middle.
  - by rewrite ref_get_absent by (by eapply refines_absent).
Qed.

Lemma refines_MakeHashDict (hasher0 : K → Z) (capacity : Z) d :
  MakeHashDict hasher0 capacity = Done d → refines d (λ _, []) [].
Proof.
  intros Hmk. pose proof (shape_MakeHashDict _ _ _ Hmk) as Hs.
  destruct (Z.le_gt_cases capacity (2 ^ 62)) as [Hcap|Hcap].
  2: { rewrite MakeHashDict_large in Hmk by lia. done. }
  destruct (MakeHashDict_Done (V:=V) hasher0 capacity Hcap)
    as (d0 & Hmk0 & _ & _ & Hes & _).
  assert (d0 = d) as -> by congruence.
  split; try done.
  - intros b i e Hin. by apply elem_of_nil in Hin.
  - intros i e [_ Hi]%at_Done. rewrite Hes in Hi.
    by apply lookup_replicate in Hi as [-> _].
  - constructor.
  - rewrite <- (live_pairs_set_entries d (entries d)) by done.
    apply live_pairs_dead. intros e He. rewrite Hes in He.
    by apply elem_of_replicate in He as [-> _].
Qed.

Lemma refines_Clear d ch m : refines d ch m → refines (Clear d) (λ _, []) [].
Proof.
  intros [Hs _ _ _ _]. split.
  - by eapply shape_Clear.
  - intros b i e Hin. by apply elem_of_nil in Hin.
  - intros i e [_ Hi]%at_Done. cbn in Hi.
    by apply lookup_replicate in Hi as [-> _].
  - constructor.
  - apply live_pairs_Clear.
Qed.

Lemma refines_extend d ch m (n : nat) :
  refines d ch m →
  refines (set_entries d (entries d ++ replicate n zero)) ch m.
Proof.
  intros [Hs Hbucket Hcomplete Hkeys Hpairs]. split.
  - by apply shape_extend.
  - intros b i e Hin Hi. cbn in *.
    destruct (decide (0 ≤ b < len (buckets d))) as [Hb|Hb].
    + destruct (at_in_range _ _ Hb) as (head & Hhead).
      destruct (is_chain_elem _ _ _ i (shape_chain _ _ Hs _ _ Hhead) Hin)
        as (e0 & He0 & _).
      rewrite at_app_l in Hi by (by eapply at_range).
      by apply (Hbucket b i e).
    + rewrite (shape_range _ _ Hs b Hb) in Hin. by apply elem_of_nil in Hin.
  - intros i e Hi Halive. cbn in *. apply at_app_zero in Hi as [Hi| ->]; [|done].
    by apply (Hcomplete i e).
  - done.
  - rewrite live_pairs_app, live_pairs_set_entries, Hpairs by done.
    rewrite live_pairs_dead, app_nil_r; [done|].
    by intros e [-> _]%elem_of_replicate.
Qed.

(** [Put] on a key that is found replaces its value in the dictionary. *)
Lemma refines_Put_found d ch m (k : K) (v : V) (last i : Z) (item : entry K V) :
  refines d ch m → 0 ≤ hasher d k →
  find_in (entries d) (hasher d k) k (-1)
    (ch (Z.rem (hasher d k) (len (buckets d)))) = Some (last, i, item) →
  refines (set_entries d (<[Z.to_nat i := set_value item v]> (entries d)))
          ch (ref_put m k v).
Proof.
  intros Hr Hh Hfind.
  destruct (refines_found d ch m k _ _ _ Hr Hh Hfind)
    as (m1 & m2 & -> & Hk1 & Hk2 & Hnd & Hi & Hi0 & Halive & Hm1 & Hm2).
  pose proof Hfind as Hfind0.
  apply find_in_Some in Hfind as (_ & _ & _ & Hati & _ & Hkey & _).
  pose proof (at_range _ _ _ Hati) as Hrange.
  destruct Hr as [Hs Hbucket Hcomplete Hkeys Hpairs].
  rewrite ref_put_middle by done. split.
  - by apply shape_set_value.
  - intros b j e Hin Hj. cbn in *. destruct (decide (j = i)) as [->|Hne].
    + rewrite at_insert_eq in Hj by done. inversion Hj; subst e. cbn.
      by apply (Hbucket b i item).
    + rewrite at_insert_ne in Hj by lia. by apply (Hbucket b j e).
  - intros j e Hj Ha. cbn in *. destruct (decide (j = i)) as [->|Hne].
    + rewrite at_insert_eq in Hj by done. inversion Hj; subst e. cbn.
      by apply (Hcomplete i item).
    + rewrite at_insert_ne in Hj by lia. by apply (Hcomplete j e).
  - rewrite fmap_app, fmap_cons in *. done.
  - change (live_pairs (set_entries d (<[Z.to_nat i := set_value item v]> (entries d)))
            = m1 ++ (k, v) :: m2).
    rewrite live_pairs_insert by (by eapply lookup_lt_Some).
    rewrite Hm1, Hm2, live_pairs_one_live by done. cbn. by rewrite Hkey.
Qed.

End Refines.

Section Refines_steps.
Context {K V : Type} `{EqDecision K} `{Zero K} `{Zero V}.
Implicit Types d : hashMap K V.
Implicit Types es : list (entry K V).
Implicit Types ch : Z → list Z.
Implicit Types m : list (K * V).

(** [grow] when the bucket array keeps its length: the buckets are not
    written and the entry store is at most extended with zero slots. *)
Lemma grow_no_rehash d d1 (newSize : Z) :
  0 < len (buckets d) → grow d newSize = Done d1 →
  len (buckets d1) = len (buckets d) →
  ∃ n, d1 = set_entries d (entries d ++ replicate n zero).
Proof.
  intros Hb Hgrow Hlen. unfold grow in Hgrow. done_inv Hgrow as dm Edm.
  assert (dm = d ∨ len (buckets dm) = len (buckets d) * 2) as Hdm.
  { destruct (len (buckets d) =? 0); [done|].
    destruct (loadFactor d <? _); [|left; by inversion Edm].
    done_inv Edm as nb0 Emk. done_inv Edm as [es nb] Ere.
    inversion Edm; subst dm. right. cbn.
    apply make_Done in Emk as [Hpos ->].
    apply rehash_length in Ere as [_ Hnb].
    unfold len in *. rewrite Hnb, length_replicate. lia. }
  assert (len (buckets d1) = len (buckets dm)) as Hsame.
  { destruct (len (entries d) <? newSize).
    - done_inv Hgrow as ne Ene. by inversion Hgrow; subst d1.
    - by inversion Hgrow; subst d1. }
  destruct Hdm as [->|Hdbl]; [|lia].
  destruct (Z.ltb_spec (len (entries d)) newSize).
  - done_inv Hgrow as ne Ene. inversion Hgrow; subst d1.
    apply make_Done in Ene as [Hpos ->].
    pose proof (len_nonneg (entries d)).
    rewrite Z.shiftl_mul_pow2 in * by lia.
    rewrite copy_longer by (unfold len in *; lia). by eexists.
  - inversion Hgrow; subst d1. exists 0%nat. cbn. rewrite app_nil_r.
    by destruct d.
Qed.

(** Appending a key that is not in the dictionary. *)
Lemma refines_link d ch m (k : K) (v : V) (head : Z) :
  refines d ch m → k ∉ m.*1 → 0 ≤ hasher d k →
  appendCount d + 1 < len (entries d) →
  at_ (buckets d) (Z.rem (hasher d k) (len (buckets d))) = Done head →
  refines (linked d (Z.rem (hasher d k) (len (buckets d))) head (hasher d k) k v)
          (<[Z.rem (hasher d k) (len (buckets d))
             := appendCount d :: ch (Z.rem (hasher d k) (len (buckets d)))]> ch)
          (m ++ [(k, v)]).
Proof.
  intros [Hs Hbucket Hcomplete Hkeys Hpairs] Hk Hh Hroom Hhead.
  set (idx := Z.rem (hasher d k) (len (buckets d))) in *.
  pose proof (at_range _ _ _ Hhead) as Hrange.
  destruct (shape_link_new d ch idx (hasher d k) k v Hs Hrange Hh Hroom)
    as (head' & Hhead' & _ & Hshape).
  assert (head' = head) as -> by congruence.
  pose proof (shape_append _ _ Hs) as Ha.
  assert (∀ b j, j ∈ ch b → j < appendCount d) as Hbelow.
  { intros b j Hj. destruct (decide (0 ≤ b < len (buckets d))) as [Hin|Hout].
    - destruct (at_in_range _ _ Hin) as (hd & Hhd).
      destruct (is_chain_elem _ _ _ _ (shape_chain _ _ Hs _ _ Hhd) Hj)
        as (e & He & Halive).
      by apply (shape_live _ _ Hs j e).
    - rewrite (shape_range _ _ Hs b Hout) in Hj. by apply elem_of_nil in Hj. }
  split.
  - done.
  - intros b j e. cbn. rewrite len_insert. fold idx.
    destruct (decide (j = appendCount d)) as [->|Hne].
    + rewrite at_insert_eq by lia. intros Hin [= <-]. cbn. split; [done|].
      destruct (decide (b = idx)) as [->|Hb]; [done|].
      rewrite fn_lookup_insert_ne in Hin by done.
      specialize (Hbelow _ _ Hin). lia.
    + rewrite at_insert_ne by lia. intros Hin Hj.
      apply (Hbucket b j e); [|done].
      destruct (decide (b = idx)) as [->|Hb].
      * rewrite fn_lookup_insert in Hin.
        by apply elem_of_cons in Hin as [?|?].
      * by rewrite fn_lookup_insert_ne in Hin.
  - intros j e. cbn. rewrite len_insert. fold idx.
    destruct (decide (j = appendCount d)) as [->|Hne].
    + rewrite at_insert_eq by lia. intros [= <-] _. cbn. fold idx.
      rewrite fn_lookup_insert. by left.
    + rewrite at_insert_ne by lia. intros Hj Halive.
      pose proof (Hcomplete j e Hj Halive) as Hin.
      destruct (decide (Z.rem (hash e) (len (buckets d)) = idx)) as [Heq|Hneq].
      * rewrite Heq, fn_lookup_insert. right. by rewrite <- Heq.
      * by rewrite fn_lookup_insert_ne.
  - rewrite fmap_app. cbn. apply list.NoDup_app. split; [done|].
    split; [|apply NoDup_singleton].
    intros x Hx ->%list_elem_of_singleton. done.
  - change (live_pairs (set_entries d (<[Z.to_nat (appendCount d) :=
              {| hash := hasher d k; key := k; value := v; next := head;
                 alive := true |}]> (entries d))) = m ++ [(k, v)]).
    destruct (at_in_range (entries d) (appendCount d)) as (e0 & He0); [lia|].
    apply at_Done in He0 as [_ He0].
    assert (∀ e, e ∈ drop (Z.to_nat (appendCount d)) (entries d) →
                 alive e = false) as Hdead.
    { intros e (n & Hn)%list_elem_of_lookup. rewrite lookup_drop in Hn.
      destruct (alive e) eqn:Halive; [|done].
      assert (at_ (entries d) (Z.of_nat (Z.to_nat (appendCount d) + n)) = Done e)
        as Hat by (apply at_Done; split; [lia | by rewrite Nat2Z.id]).
      destruct (shape_live _ _ Hs _ _ Hat Halive). lia. }
    assert (live_pairs (set_entries d (take (Z.to_nat (appendCount d)) (entries d)))
            = m) as Htake.
    { rewrite <- Hpairs.
      transitivity (live_pairs (set_entries d
                      (take (Z.to_nat (appendCount d)) (entries d)
                       ++ drop (Z.to_nat (appendCount d)) (entries d)))).
      - by rewrite live_pairs_app, (live_pairs_dead _ (drop _ _)), app_nil_r.
      - rewrite take_drop. by apply live_pairs_set_entries. }
    rewrite live_pairs_insert by (by eapply lookup_lt_Some).
    rewrite Htake, live_pairs_one_live by done. cbn [key value app]. do 2 f_equal.
    rewrite live_pairs_dead; [done|].
    intros e He. apply Hdead.
    apply list_elem_of_lookup in He as (n & Hn). rewrite lookup_drop in Hn.
    apply list_elem_of_lookup. exists (S n). rewrite lookup_drop.
    by replace (Z.to_nat (appendCount d) + S n)%nat
      with (S (Z.to_nat (appendCount d)) + n)%nat by lia.
Qed.

(** [Put] refines the reference [ref_put] as long as the call does not grow
    the bucket array. *)
Lemma refines_Put d d' ch m (k : K) (v : V) (r : option V) :
  refines d ch m → 0 ≤ hasher d k →
  Put d k v = Done (d', r) → len (buckets d') = len (buckets d) →
  r = ref_get m k ∧ ∃ ch', refines d' ch' (ref_put m k v).
Proof.
  intros Hr Hh Hput Hlen. pose proof (refines_shape _ _ _ Hr) as Hs.
  split.
  { apply Put_reports_TryGet in Hput.
    rewrite (refines_TryGet d ch m) in Hput by done. congruence. }
  destruct (find_in (entries d) (hasher d k) k (-1)
              (ch (Z.rem (hasher d k) (len (buckets d)))))
    as [[[last i] item]|] eqn:Hfind.
  - destruct (Put_found d ch k v _ _ _ Hs Hh Hfind) as [_ Hput'].
    rewrite Hput' in Hput. inversion Hput; subst d' r.
    exists ch. by eapply refines_Put_found.
  - pose proof (refines_absent d ch m k Hr Hh Hfind) as Hk.
    destruct (Put_new_slot d ch k v Hs Hh Hfind)
      as (d1 & head & Hgrow & Hhead & Hroom & Hput' & _).
    rewrite Hput' in Hput. inversion Hput; subst d' r. clear Hput.
    assert (len (buckets d1) = len (buckets d)) as Hlen1.
    { cbn in Hlen. by rewrite len_insert in Hlen. }
    destruct (grow_no_rehash d d1 _ (shape_buckets _ _ Hs) Hgrow Hlen1) as (n & ->).
    pose proof (refines_extend d ch m n Hr) as Hr1.
    rewrite ref_put_absent by done.
    eexists. by apply (refines_link _ ch m k v head Hr1).
Qed.

(** A live slot contributes its key to the live pairs. *)
Lemma live_pairs_key d (i : Z) (e : entry K V) :
  at_ (entries d) i = Done e → alive e = true → key e ∈ (live_pairs d).*1.
Proof.
  intros [_ Hi]%at_Done Halive. unfold live_pairs. rewrite <- list_fmap_compose.
  apply list_elem_of_fmap. exists e. split; [done|].
  apply list_elem_of_filter. split; [done|]. by eapply list_elem_of_lookup_2.
Qed.

(** [Remove] refines the reference [ref_remove] when the key is alone in
    its bucket: it is then the head of its chain, which is the one case in
    which pointing the bucket at the link of the removed slot loses no
    other key. *)
Lemma refines_Remove d d' ch m (k : K) (r : option V) :
  refines d ch m → 0 ≤ hasher d k →
  alone_in_bucket (hasher d) (len (buckets d)) m.*1 k →
  Remove d k = Done (d', r) →
  r = ref_get m k ∧ ∃ ch', refines d' ch' (ref_remove m k).
Proof.
  intros Hr Hh Halone Hrm. pose proof (refines_shape _ _ _ Hr) as Hs.
  destruct (shape_index d ch _ Hs Hh) as [Hidx Hrange].
  destruct (find_in (entries d) (hasher d k) k (-1)
              (ch (Z.rem (hasher d k) (len (buckets d)))))
    as [[[last i] item]|] eqn:Hfind.
  - destruct (refines_found d ch m k _ _ _ Hr Hh Hfind)
      as (m1 & m2 & -> & Hk1 & Hk2 & Hnd & Hi & Hi0 & Halive & Hm1 & Hm2).
    destruct (Remove_found d ch k _ _ _ Hs Hh Hfind)
      as (l1 & l2 & Hch & Hati & Hkey & Hnot & Hrm' & Hshape).
    rewrite Hrm' in Hrm. inversion Hrm; subst d' r. clear Hrm.
    split; [by rewrite ref_get_middle|].
    rewrite ref_remove_middle by done.
    set (idx := Z.rem (hasher d k) (len (buckets d))) in *.
    destruct (after_Remove_entries d idx i item Hati) as (Hlen & Hdead & Hother).
    destruct (at_in_range _ _ Hrange) as (head & Hhead).
    pose proof (shape_chain _ _ Hs _ _ Hhead) as Hchain. rewrite Hch in Hchain.
    pose proof (shape_nodup _ _ Hs idx) as Hndl. rewrite Hch in Hndl.
    destruct Hr as [_ Hbucket Hcomplete Hkeys Hpairs].
    assert (l1 = []) as ->.
    { destruct l1 as [|j l1]; [done|]. exfalso.
      destruct (is_chain_elem _ _ _ j Hchain) as (ej & Hej & Halj); [by left|].
      destruct (Hbucket idx j ej) as [Hhj Hbj]; [rewrite Hch; by left | done |].
      pose proof (live_pairs_key d j ej Hej Halj) as Hin. rewrite Hpairs in Hin.
      unfold alone_in_bucket in Halone. rewrite list.Forall_forall in Halone.
      destruct (Halone _ Hin) as [Heq|Hne].
      - apply (Hnot j ej); [by left | done |]. split; [|done]. by rewrite Hhj, Heq.
      - apply Hne. by rewrite <- Hhj. }
    cbn [app] in *.
    assert (hasher (after_Remove d idx i item) = hasher d
            ∧ len (buckets (after_Remove d idx i item)) = len (buckets d))
      as [Hhd Hbl].
    { unfold after_Remove. cbn. by rewrite len_insert. }
    exists (<[idx := l2]> ch). split.
    + done.
    + intros b j e' Hin Hj. rewrite Hhd, Hbl.
      assert (j ∈ ch b ∧ j ≠ i) as [Hin0 Hji].
      { destruct (decide (b = idx)) as [->|Hb].
        - rewrite fn_lookup_insert in Hin. rewrite Hch. split; [by right|].
          intros ->. by apply list.NoDup_cons in Hndl as [? _].
        - rewrite fn_lookup_insert_ne in Hin by done. split; [done|].
          intros ->. apply Hb. apply (shape_disjoint _ _ Hs b idx i); [done|].
          rewrite Hch. by left. }
      rewrite Hother in Hj by done. by apply (Hbucket b j e').
    + intros j e' Hj Ha'. rewrite Hbl.
      destruct (decide (j = i)) as [->|Hji].
      { rewrite Hdead in Hj. by inversion Hj; subst e'. }
      rewrite Hother in Hj by done.
      pose proof (Hcomplete j e' Hj Ha') as Hin.
      destruct (decide (Z.rem (hash e') (len (buckets d)) = idx)) as [Heq|Hneq].
      * rewrite Heq, fn_lookup_insert. rewrite Heq, Hch in Hin.
        by apply elem_of_cons in Hin as [?|?].
      * by rewrite fn_lookup_insert_ne.
    + done.
    + unfold after_Remove.
      change (live_pairs (set_entries d
                (<[Z.to_nat i := {| hash := 0; key := zero; value := zero;
                                    next := freeCount d; alive := false |}]>
                   (entries d))) = m1 ++ m2).
      rewrite live_pairs_insert by (by eapply lookup_lt_Some).
      by rewrite Hm1, Hm2, live_pairs_one_dead.
  - rewrite (ref_get_absent m k), (ref_remove_absent m k)
      by (by eapply refines_absent).
    unfold Remove in Hrm. rewrite Hidx, bind_Done_l in Hrm.
    rewrite (shape_lookup d ch) in Hrm by done.
    rewrite bind_Done_l, Hfind in Hrm. inversion Hrm; subst.
    split; [done|]. by exists ch.
Qed.

End Refines_steps.

(** * Keys of the reference dictionary *)

Section Reference_keys.
Context {K V : Type} `{EqDecision K}.
Implicit Types m : list (K * V).

Lemma ref_put_keys m (k k' : K) (v : V) :
  k' ∈ (ref_put m k v).*1 ↔ k' = k ∨ k' ∈ m.*1.
Proof.
  induction m as [|[k0 v0] m IH]; cbn [ref_put].
  - rewrite fmap_cons. cbn. rewrite elem_of_cons. done.
  - destruct (decide (k0 = k)) as [->|Hne]; rewrite !fmap_cons; cbn;
      rewrite !elem_of_cons.
    + tauto.
    + rewrite IH. tauto.
Qed.

Lemma ref_run_puts_keys (l : list K) (f : K → V) m (k : K) :
  k ∈ (foldl ref_step m (map (λ x, OpPut x (f x)) l)).*1 ↔ k ∈ m.*1 ∨ k ∈ l.
Proof.
  revert m. induction l as [|x l IH]; intros m; cbn [map foldl ref_step].
  - rewrite elem_of_nil. tauto.
  - rewrite IH, ref_put_keys, elem_of_cons. tauto.
Qed.

End Reference_keys.

(** * Runs that do not grow the bucket array *)

Section Refines_runs.
Context {K V : Type} `{EqDecision K} `{Zero K} `{Zero V}.
Implicit Types d : hashMap K V.
Implicit Types ch : Z → list Z.
Implicit Types m : list (K * V).

Lemma ref_step_keys m (o : op K V) (k : K) :
  k ∈ (ref_step m o).*1 → k ∈ m.*1 ∨ k ∈ op_keys [o].
Proof.
  destruct o as [k0 v|k0 set|k0|]; unfold op_keys; cbn [ref_step omap list_omap].
  - rewrite ref_put_keys, list_elem_of_singleton. tauto.
  - rewrite ref_put_keys, list_elem_of_singleton. tauto.
  - unfold ref_remove. intros ([k1 v1] & -> & Hin)%list_elem_of_fmap.
    apply list_elem_of_filter in Hin as [_ Hin]. left.
    apply list_elem_of_fmap. by exists (k1, v1).
  - rewrite fmap_nil, elem_of_nil. tauto.
Qed.

Lemma alone_in_bucket_weaken (h : K → Z) (n : Z) (keys keys' : list K) (k : K) :
  (∀ k', k' ∈ keys' → k' ∈ keys) →
  alone_in_bucket h n keys k → alone_in_bucket h n keys' k.
Proof.
  unfold alone_in_bucket. rewrite !list.Forall_forall. intros Hsub Hall k' Hk'.
  apply Hall. by apply Hsub.
Qed.

Lemma refines_step d d' ch m (o : op K V) :
  refines d ch m → op_hash_nonneg (hasher d) o →
  (∀ k, o = OpRemove k →
        alone_in_bucket (hasher d) (len (buckets d)) m.*1 k) →
  step d o = Done d' → len (buckets d') = len (buckets d) →
  ∃ ch', refines d' ch' (ref_step m o).
Proof.
  intros Hr Ho Halone Hstep Hlen.
  destruct o as [k v|k set|k|]; cbn [step op_hash_nonneg ref_step] in *.
  - done_inv Hstep as [d1 r] Hput. inversion Hstep; subst d1.
    by destruct (refines_Put d d' ch m k v r Hr Ho Hput Hlen).
  - done_inv Hstep as [d1 r] Hput. inversion Hstep; subst d1.
    rewrite GetAndPut_is_TryGet_then_Put in Hput.
    rewrite (refines_TryGet d ch m) in Hput by done.
    rewrite bind_Done_l in Hput. done_inv Hput as [d2 prev] Hput2.
    inversion Hput; subst d2.
    by destruct (refines_Put d d' ch m k _ prev Hr Ho Hput2 Hlen).
  - done_inv Hstep as [d1 r] Hrm. inversion Hstep; subst d1.
    by destruct (refines_Remove d d' ch m k r Hr Ho (Halone k eq_refl) Hrm).
  - inversion Hstep; subst d'. eexists. by eapply refines_Clear.
Qed.

Lemma step_hasher d d' (o : op K V) :
  step d o = Done d' → hasher d' = hasher d.
Proof.
  destruct o as [k v|k set|k|]; cbn [step]; intros Hstep.
  - done_inv Hstep as [d1 r] Hput. inversion Hstep; subst d1.
    by apply Put_fields in Hput as (? & _).
  - done_inv Hstep as [d1 r] Hput. inversion Hstep; subst d1.
    rewrite GetAndPut_is_TryGet_then_Put in Hput.
    done_inv Hput as r0 Hget. done_inv Hput as [d2 prev] Hput2.
    inversion Hput; subst d2. by apply Put_fields in Hput2 as (? & _).
  - done_inv Hstep as [d1 r] Hrm. inversion Hstep; subst d1.
    by apply Remove_fields in Hrm as (? & _).
  - by inversion Hstep.
Qed.

Lemma step_buckets_le d d' (o : op K V) :
  step d o = Done d' → len (buckets d) ≤ len (buckets d').
Proof.
  intros Hstep. apply step_buckets in Hstep as [->| ->]; [lia|].
  pose proof (len_nonneg (buckets d)). lia.
Qed.

Lemma run_buckets_le (ops : list (op K V)) d d' :
  run d ops = Done d' → len (buckets d) ≤ len (buckets d').
Proof.
  revert d. induction ops as [|o ops IH]; intros d Hrun; cbn [run] in Hrun.
  - inversion Hrun. lia.
  - done_inv Hrun as d1 Hstep. apply step_buckets_le in Hstep.
    apply IH in Hrun. lia.
Qed.

Lemma refines_run (ops : list (op K V)) (keys : list K) d d' ch m :
  refines d ch m → Forall (op_hash_nonneg (hasher d)) ops →
  (∀ k, k ∈ m.*1 → k ∈ keys) → (∀ k, k ∈ op_keys ops → k ∈ keys) →
  removes_alone (hasher d) (len (buckets d)) keys ops →
  run d ops = Done d' → len (buckets d') = len (buckets d) →
  ∃ ch', refines d' ch' (foldl ref_step m ops).
Proof.
  revert d ch m. induction ops as [|o ops IH];
    intros d ch m Hr Hops Hm Hkeys Hrem Hrun Hlen; cbn [run foldl] in *.
  - inversion Hrun; subst d'. by exists ch.
  - apply list.Forall_cons in Hops as [Ho Hops].
    apply list.Forall_cons in Hrem as [Hro Hrem].
    done_inv Hrun as d1 Hstep.
    pose proof (step_buckets_le _ _ _ Hstep).
    pose proof (run_buckets_le _ _ _ Hrun).
    assert (len (buckets d1) = len (buckets d)) as Hlen1 by lia.
    destruct (refines_step d d1 ch m o Hr Ho) as (ch1 & Hr1); [|done|done|].
    { intros k ->. by eapply alone_in_bucket_weaken. }
    pose proof (step_hasher _ _ _ Hstep) as Hh1.
    rewrite <- Hh1 in Hops. rewrite <- Hh1, <- Hlen1 in Hrem.
    eapply IH; [done|done| | |done|done|lia].
    + intros k [Hk|Hk]%ref_step_keys; [by apply Hm|].
      apply Hkeys. change (o :: ops) with ([o] ++ ops).
      unfold op_keys in *. rewrite omap_app. apply elem_of_app. by left.
    + intros k Hk. apply Hkeys. change (o :: ops) with ([o] ++ ops).
      unfold op_keys in *. rewrite omap_app. apply elem_of_app. by right.
Qed.

(** A sequence of [Put]s removes no key. *)
Lemma removes_alone_puts (h : K → Z) (n : Z) (keys : list K)
    (elements : list (K * V)) :
  removes_alone h n keys (map (λ p, OpPut p.1 p.2) elements).
Proof. unfold removes_alone. by induction elements; constructor. Qed.

(** A run on a new table that has not grown the bucket array, and in which
    every removed key is alone in its bucket: the table is then the
    dictionary the operations describe.  A full iteration yields its
    pairs, in order of first insertion, and [TryGet] returns what it
    holds. *)
Lemma run_without_bucket_growth_refines (hasher0 : K → Z) (capacity : Z)
    (ops : list (op K V)) d0 d :
  MakeHashDict hasher0 capacity = Done d0 →
  Forall (op_hash_nonneg hasher0) ops →
  removes_alone hasher0 (len (buckets d0)) (op_keys ops) ops →
  run d0 ops = Done d →
  len (buckets d) = len (buckets d0) →
  full_iteration d = Done (ref_run ops)
  ∧ NoDup (ref_run ops).*1
  ∧ ∀ k, 0 ≤ hasher0 k →
      TryGet d k = Done (ref_get (ref_run ops) k)
      ∧ Contains d k = Done (bool_decide (k ∈ (ref_run ops).*1)).
Proof.
  intros Hmk Hops Hrem Hrun Hlen.
  pose proof (refines_MakeHashDict _ _ _ Hmk) as Hr0.
  assert (hasher d0 = hasher0) as Hh0.
  { unfold MakeHashDict in Hmk. done_inv Hmk as n En. done_inv Hmk as bs Ebs.
    done_inv Hmk as es Ees. by inversion Hmk. }
  rewrite <- Hh0 in Hops, Hrem.
  destruct (refines_run ops (op_keys ops) d0 d _ _ Hr0 Hops) as (ch & Hr);
    [by intros k Hk%elem_of_nil|done..|].
  fold (ref_run ops) in Hr.
  assert (hasher d = hasher0) as Hh.
  { rewrite <- Hh0. clear -Hrun. revert d0 Hrun.
    induction ops as [|o ops IH]; intros d0 Hrun; cbn [run] in Hrun.
    - by inversion Hrun.
    - done_inv Hrun as d1 Hstep. rewrite (IH _ Hrun). by eapply step_hasher. }
  split; [|split].
  - rewrite full_iteration_live_pairs. by rewrite (refines_pairs _ _ _ Hr).
  - apply (refines_keys _ _ _ Hr).
  - intros k Hk. rewrite <- Hh in Hk.
    pose proof (refines_TryGet d ch _ k Hr Hk) as Hget.
    split; [done|]. unfold Contains. rewrite Hget, bind_Done_l. f_equal.
    destruct (decide (k ∈ (ref_run ops).*1)) as [Hin|Hout].
    + rewrite (bool_decide_eq_true_2 _ Hin).
      apply list_elem_of_fmap in Hin as ([k' v] & -> & Hin).
      apply list_elem_of_split in Hin as (m1 & m2 & Hm).
      pose proof (refines_keys _ _ _ Hr) as Hnd. rewrite Hm in Hnd.
      apply NoDup_keys_middle in Hnd as (Hk1 & _).
      rewrite Hm, ref_get_middle by done. by apply bool_decide_eq_true_2.
    + rewrite (bool_decide_eq_false_2 _ Hout), ref_get_absent by done.
      apply bool_decide_eq_false_2. by intros [? ?].
Qed.

End Refines_runs.

(** * When the bucket array does not grow *)

Section No_growth.
Context {K V : Type} `{EqDecision K} `{Zero K} `{Zero V}.
Implicit Types d : hashMap K V.
Implicit Types ch : Z → list Z.

(** [grow] leaves the bucket array alone as long as the requested size is
    below twice the number of buckets. *)
Lemma grow_small d d1 (newSize : Z) :
  loadFactor d = 1 → 0 ≤ newSize < 2 * len (buckets d) →
  grow d newSize = Done d1 → len (buckets d1) = len (buckets d).
Proof.
  intros Hl Hsize Hgrow. unfold grow in Hgrow. done_inv Hgrow as dm Edm.
  assert (dm = d) as ->.
  { destruct (len (buckets d) =? 0); [done|].
    rewrite Hl in Edm.
    destruct (Z.ltb_spec 1 (Z.quot newSize (len (buckets d)))) as [Hq|Hq];
      [|by inversion Edm].
    assert (Z.quot newSize (len (buckets d)) < 2); [|lia].
    apply Z.quot_lt_upper_bound; lia. }
  destruct (len (entries d) <? newSize).
  - done_inv Hgrow as ne Ene. by inversion Hgrow; subst d1.
  - by inversion Hgrow; subst d1.
Qed.

Lemma Put_small d d' ch (k : K) (v : V) (r : option V) :
  shape d ch → appendCount d + 2 < 2 * len (buckets d) →
  Put d k v = Done (d', r) →
  len (buckets d') = len (buckets d)
  ∧ appendCount d ≤ appendCount d' ≤ appendCount d + 1.
Proof.
  intros Hs Hsmall Hput.
  pose proof (shape_free _ _ Hs) as Hf. pose proof (shape_load _ _ Hs) as Hl.
  pose proof (shape_append _ _ Hs) as Ha.
  unfold Put in Hput.
  done_inv Hput as idx Eidx. done_inv Hput as [[[last i] item]|] Efind.
  - done_inv Hput as es Ees. inversion Hput; subst. cbn. lia.
  - done_inv Hput as [bucket d1] Eslot. done_inv Hput as d2 Elink.
    inversion Hput; subst d2 r. clear Hput.
    apply link_new_buckets in Elink as Hb2.
    apply link_new_fields in Elink as (_ & _ & Hac & _).
    unfold take_slot in Eslot. rewrite Hf in Eslot. cbn [Z.ltb Z.compare] in Eslot.
    done_inv Eslot as dg Hgrow. inversion Eslot; subst bucket d1. clear Eslot.
    pose proof (grow_fields _ _ _ Hgrow) as (Hacg & _).
    apply grow_small in Hgrow; [|done|unfold Size; lia].
    cbn in *. rewrite Hb2, Hac, Hacg, Hgrow. lia.
Qed.

Lemma step_small d d' ch (o : op K V) :
  shape d ch → appendCount d + 2 < 2 * len (buckets d) →
  step d o = Done d' →
  len (buckets d') = len (buckets d)
  ∧ appendCount d ≤ appendCount d' ≤ appendCount d + 1.
Proof.
  intros Hs Hsmall Hstep. destruct o as [k v|k set|k|]; cbn [step] in Hstep.
  - done_inv Hstep as [d1 r] Hput. inversion Hstep; subst d1.
    by eapply Put_small.
  - done_inv Hstep as [d1 r] Hput. inversion Hstep; subst d1.
    rewrite GetAndPut_is_TryGet_then_Put in Hput.
    done_inv Hput as r0 Hget. done_inv Hput as [d2 prev] Hput2.
    inversion Hput; subst d2. by eapply Put_small.
  - done_inv Hstep as [d1 r] Hrm. inversion Hstep; subst d1.
    pose proof (Remove_buckets _ _ _ _ Hrm).
    apply Remove_fields in Hrm as (_ & _ & -> & _). split; [done | lia].
  - inversion Hstep; subst d'. rewrite Clear_buckets. cbn. split; [done | lia].
Qed.

(** A run of [n] operations on a well-shaped table returns without growing
    the bucket array when [appendCount + n + 1] is below twice the number
    of buckets. *)
Lemma run_small (ops : list (op K V)) d :
  well_shaped d → Forall (op_hash_nonneg (hasher d)) ops →
  appendCount d + Z.of_nat (length ops) + 1 < 2 * len (buckets d) →
  ∃ d', run d ops = Done d' ∧ len (buckets d') = len (buckets d).
Proof.
  revert d. induction ops as [|o ops IH]; intros d Hs Hops Hsmall; cbn [run].
  - by exists d.
  - apply list.Forall_cons in Hops as [Ho Hops]. cbn [length] in Hsmall.
    destruct (shape_step d o Hs Ho) as (d1 & Hstep & Hs1 & Hh1).
    destruct Hs as [ch Hs].
    destruct (step_small d d1 ch o Hs) as [Hb1 Ha1]; [lia|done|].
    rewrite Hstep, bind_Done_l. rewrite <- Hh1 in Hops.
    destruct (IH d1 Hs1 Hops) as (d' & Hrun & Hb'); [lia|].
    exists d'. split; [done | lia].
Qed.

(** A run of fewer operations than twice the number of buckets minus one
    is exact: on a new table, every such sequence on keys whose hash is not
    negative, in which every removed key is alone in its bucket, returns
    and does not grow the bucket array; a full iteration then yields the
    pairs of the dictionary the operations describe, in order of first
    insertion, and [TryGet] returns what it holds. *)
Lemma short_run_refines (hasher0 : K → Z) (capacity : Z) (ops : list (op K V)) d0 :
  MakeHashDict hasher0 capacity = Done d0 →
  Forall (op_hash_nonneg hasher0) ops →
  removes_alone hasher0 (len (buckets d0)) (op_keys ops) ops →
  Z.of_nat (length ops) + 1 < 2 * len (buckets d0) →
  ∃ d,
    run d0 ops = Done d
    ∧ len (buckets d) = len (buckets d0)
    ∧ full_iteration d = Done (ref_run ops)
    ∧ ∀ k, 0 ≤ hasher0 k → TryGet d k = Done (ref_get (ref_run ops) k).
Proof.
  intros Hmk Hops Hrem Hshort.
  assert (hasher d0 = hasher0 ∧ appendCount d0 = 0) as [Hh0 Hac].
  { pose proof Hmk as Hmk'. unfold MakeHashDict in Hmk'.
    done_inv Hmk' as n En. done_inv Hmk' as bs Ebs. done_inv Hmk' as es Ees.
    by inversion Hmk'. }
  destruct (run_small ops d0) as (d & Hrun & Hb).
  - eexists. by eapply shape_MakeHashDict.
  - by rewrite Hh0.
  - lia.
  - exists d. split; [done|]. split; [done|].
    destruct (run_without_bucket_growth_refines hasher0 capacity ops d0 d)
      as (Hiter & _ & Hget); try done.
    split; [done|]. intros k Hk. by apply Hget.
Qed.

Lemma run_app (ops1 ops2 : list (op K V)) d :
  run d (ops1 ++ ops2) = (d1 ← run d ops1; run d1 ops2).
Proof.
  revert d. induction ops1 as [|o ops1 IH]; intros d; cbn [app run]; [done|].
  destruct (step d o) as [d1| |]; [|done..]. rewrite !bind_Done_l. apply IH.
Qed.

(** [HashDictOf] builds the dictionary of its elements: the table has
    room for every element, so no [Put] grows the bucket array.  A full
    iteration yields one pair per key, in order of first occurrence, with
    the last value given for the key, and [TryGet] returns that value. *)
Lemma HashDictOf_refines (hasher0 : K → Z) (elements : list (K * V)) :
  len elements ≤ 2 ^ 62 →
  Forall (λ p, 0 ≤ hasher0 p.1) elements →
  ∃ d0 d,
    MakeHashDict hasher0 (len elements) = Done d0
    ∧ HashDictOf hasher0 elements = Done d
    ∧ (∀ n d1, PutAll d0 (take n elements) = Done d1 →
               len (buckets d1) = len (buckets d0))
    ∧ full_iteration d = Done (ref_run (map (λ p, OpPut p.1 p.2) elements))
    ∧ ∀ k, 0 ≤ hasher0 k →
        TryGet d k
        = Done (ref_get (ref_run (map (λ p, OpPut p.1 p.2) elements)) k).
Proof.
  intros Hcap Hel. unfold HashDictOf, PutAll.
  destruct (MakeHashDict_Done (V:=V) hasher0 (len elements) Hcap)
    as (d0 & Hmk & Hleast & _ & _ & Hac & _ & _ & Hh0 & _).
  destruct Hleast as (j & Hj & Hlen & Hmax & _).
  assert (16 ≤ len (buckets d0)).
  { rewrite Hlen. change 16 with (2 ^ 4). apply Z.pow_le_mono_r; lia. }
  assert (Forall (op_hash_nonneg hasher0) (map (λ p, OpPut p.1 p.2) elements))
    as Hops.
  { clear -Hel. induction Hel as [|p l Hp _ IH]; cbn [map]; by constructor. }
  destruct (run_small (map (λ p, OpPut p.1 p.2) elements) d0) as (d & Hrun & Hb).
  - eexists. by eapply shape_MakeHashDict.
  - by rewrite Hh0.
  - rewrite length_map. unfold len in *. lia.
  - rewrite Hmk, bind_Done_l. exists d0, d. split; [done|]. split; [done|].
    split.
    { intros n d1 Hpre.
      rewrite <- (take_drop n elements), map_app, run_app, Hpre, bind_Done_l in Hrun.
      apply run_buckets_le in Hpre. apply run_buckets_le in Hrun. lia. }
    destruct (run_without_bucket_growth_refines hasher0 (len elements)
                (map (λ p, OpPut p.1 p.2) elements) d0 d)
      as (Hiter & _ & Hget); try done.
    { apply removes_alone_puts. }
    split; [done|]. intros k Hk. by apply Hget.
Qed.

End No_growth.

(** * The string hasher *)

Lemma fnv1a_step_range (h : Z) (c : Ascii.ascii) : 0 ≤ fnv1a_step h c < 2 ^ 32.
Proof. unfold fnv1a_step. apply Z.mod_pos_bound. lia. Qed.

Lemma StringHasher_range (t : string) : 0 ≤ StringHasher t < 2 ^ 32.
Proof.
  unfold StringHasher.
  assert (0 ≤ fnv_offset32 < 2 ^ 32) as Hinit by (unfold fnv_offset32; lia).
  revert Hinit. generalize fnv_offset32.
  induction (String.list_ascii_of_string t) as [|c l IH]; intros h0 Hh0; cbn [fold_left].
  - done.
  - apply IH. apply fnv1a_step_range.
Qed.

(** * More on single operations *)

Section Single_ops.
Context {K V : Type} `{EqDecision K} `{Zero K} `{Zero V}.
Implicit Types d : hashMap K V.

Lemma Remove_reports_TryGet d d' (k : K) (r : option V) :
  Remove d k = Done (d', r) → TryGet d k = Done r.
Proof.
  unfold Remove, TryGet. intros Hrun.
  done_inv Hrun as idx Eidx. rewrite Eidx, bind_Done_l.
  done_inv Hrun as [[[last i] item]|] Efind; rewrite Efind, bind_Done_l.
  - done_inv Hrun as d1 Ed1. done_inv Hrun as es Ees. by inversion Hrun.
  - by inversion Hrun.
Qed.

Lemma Clear_lookup d (k : K) :
  0 < len (buckets d) → 0 ≤ hasher d k →
  lookup_chain (Clear d) (hasher d k) k (Z.rem (hasher d k) (len (buckets d)))
  = Done None.
Proof.
  intros Hb Hh. unfold lookup_chain. cbn [buckets entries Clear set_entries set_buckets].
  rewrite at_replicate, bind_Done_l.
  - done.
  - assert (0 ≤ Z.rem (hasher d k) (len (buckets d)) < len (buckets d))
      by (apply Z.rem_bound_pos; lia).
    unfold len in *. lia.
Qed.

Lemma ToSlice_Done d :
  0 ≤ Size d →
  ToSlice d = Done (replicate (Z.to_nat (Size d)) (zero, zero) ++ live_pairs d).
Proof.
  intros Hsize. unfold ToSlice, make.
  destruct (Z.ltb_spec (Size d) 0); [lia|].
  by rewrite bind_Done_l, full_iteration_live_pairs, bind_Done_l.
Qed.

End Single_ops.

(** * The set adapter over any table *)

Section Set_facts.
Context {T : Type} `{Table T}.
Implicit Types a : HashSet T.

Lemma HashSet_ContainsAll_true a (elements : list T) :
  HashSet_ContainsAll a elements = Done true
  ↔ Forall (λ e, HashSet_Contains a e = Done true) elements.
Proof.
  induction elements as [|x l IH]; cbn [HashSet_ContainsAll].
  - split; [by constructor | done].
  - rewrite list.Forall_cons, <- IH.
    destruct (HashSet_Contains a x) as [[|]| |]; cbn.
    + split; [intros Hl; by split | by intros [_ ?]].
    + split; [done | by intros [? _]].
    + split; [done | by intros [? _]].
    + split; [done | by intros [? _]].
Qed.

Lemma HashSet_ContainsAll_first_miss a (l1 l2 : list T) (x : T) :
  Forall (λ e, HashSet_Contains a e = Done true) l1 →
  HashSet_Contains a x = Done false →
  HashSet_ContainsAll a (l1 ++ x :: l2) = Done false.
Proof.
  intros Hl1 Hx. induction Hl1 as [|y l1 Hy _ IH]; cbn [HashSet_ContainsAll app].
  - by rewrite Hx.
  - by rewrite Hy.
Qed.

(** The loop over the set's iterator is the loop over the table's
    iterator, with each pair replaced by its key. *)
Lemma HashSet_drain_keys (fuel : nat) (it : table_iterator) a :
  HashSet_drain fuel it a
  = (l ← table_drain fuel it (inner a); Done (l.*1)).
Proof.
  revert it. induction fuel as [|fuel IH]; intros it;
    cbn [HashSet_drain table_drain]; unfold hashSetIterator_Next;
    destruct (table_Next (inner a) it) as [[it' [p|]]| |]; try done.
  rewrite !bind_Done_l. cbn. rewrite IH.
  by destruct (table_drain fuel it' (inner a)).
Qed.

End Set_facts.

(** The loop over the iterator of the table of [dict/hash_dict.go]. *)
Lemma table_drain_HashDict {T : Type} `{EqDecision T} `{Zero T}
    (fuel : nat) (index : Z) (d : hashMap T unit) :
  @table_drain T HashDict_Table fuel index d = drain fuel index d.
Proof.
  revert index. induction fuel as [|fuel IH]; intros index;
    cbn [table_drain drain table_Next HashDict_Table];
    destruct (Next index d) as [[index' [p|]]| |]; try done;
    rewrite !bind_Done_l; by rewrite IH.
Qed.

(** * Tables reached from a new table *)

Section Reached.
Context {K V : Type} `{EqDecision K} `{Zero K} `{Zero V}.
Implicit Types d : hashMap K V.

Lemma MakeHashDict_hasher (hasher0 : K → Z) (capacity : Z) d :
  MakeHashDict hasher0 capacity = Done d → hasher d = hasher0.
Proof.
  unfold MakeHashDict. intros Hmk. done_inv Hmk as n En.
  done_inv Hmk as bs Ebs. done_inv Hmk as es Ees. by inversion Hmk.
Qed.

Lemma run_hasher (ops : list (op K V)) d d' :
  run d ops = Done d' → hasher d' = hasher d.
Proof.
  revert d. induction ops as [|o ops IH]; intros d Hrun; cbn [run] in Hrun.
  - by inversion Hrun.
  - done_inv Hrun as d1 Hstep. rewrite (IH _ Hrun). by eapply step_hasher.
Qed.

Lemma step_Size d d' (o : op K V) :
  step d o = Done d' → Size d ≤ Size d' ≤ Size d + 1.
Proof.
  destruct o as [k v|k set|k|]; cbn [step]; intros Hstep.
  - done_inv Hstep as [d1 r] Hput. inversion Hstep; subst d1.
    apply Put_fields in Hput as (_ & _ & ->). destruct r; lia.
  - done_inv Hstep as [d1 r] Hput. inversion Hstep; subst d1.
    rewrite GetAndPut_is_TryGet_then_Put in Hput.
    done_inv Hput as r0 Hget. done_inv Hput as [d2 prev] Hput2.
    inversion Hput; subst d2.
    apply Put_fields in Hput2 as (_ & _ & ->). destruct prev; lia.
  - done_inv Hstep as [d1 r] Hrm. inversion Hstep; subst d1.
    apply Remove_fields in Hrm as (_ & _ & Ha & Hf & _).
    unfold Size. rewrite Ha, Hf. lia.
  - inversion Hstep; subst d'. cbn. unfold Size. cbn. lia.
Qed.

Lemma run_Size (ops : list (op K V)) d d' :
  run d ops = Done d' → Size d ≤ Size d' ≤ Size d + Z.of_nat (length ops).
Proof.
  revert d. induction ops as [|o ops IH]; intros d Hrun; cbn [run length] in *.
  - inversion Hrun. lia.
  - done_inv Hrun as d1 Hstep. apply step_Size in Hstep. apply IH in Hrun. lia.
Qed.

Lemma reached_shape (hasher0 : K → Z) (capacity : Z) (ops : list (op K V)) d0 d :
  MakeHashDict hasher0 capacity = Done d0 →
  Forall (op_hash_nonneg hasher0) ops →
  run d0 ops = Done d → well_shaped d ∧ hasher d = hasher0.
Proof.
  intros Hmk Hops Hrun.
  pose proof (MakeHashDict_hasher _ _ _ Hmk) as Hh0. rewrite <- Hh0 in Hops.
  destruct (shape_run ops d0) as (d' & Hrun' & Hs & Hh);
    [eexists; by eapply shape_MakeHashDict | done |].
  assert (d' = d) as -> by congruence. split; [done | congruence].
Qed.

Lemma reached_refines (hasher0 : K → Z) (capacity : Z) (ops : list (op K V)) d0 d :
  MakeHashDict hasher0 capacity = Done d0 →
  Forall (op_hash_nonneg hasher0) ops →
  removes_alone hasher0 (len (buckets d0)) (op_keys ops) ops →
  run d0 ops = Done d → len (buckets d) = len (buckets d0) →
  ∃ ch, refines d ch (ref_run ops).
Proof.
  intros Hmk Hops Hrem Hrun Hlen.
  pose proof (MakeHashDict_hasher _ _ _ Hmk) as Hh0. rewrite <- Hh0 in Hops, Hrem.
  eapply (refines_run ops (op_keys ops));
    [by eapply refines_MakeHashDict | done | by intros k Hk%elem_of_nil | done..].
Qed.

End Reached.

(** * Further properties of the code *)

Section Properties.
Context {K V : Type} `{EqDecision K} `{Zero K} `{Zero V}.
Implicit Types d : hashMap K V.

(** X2. [Put] returns as previous value exactly what [TryGet] returns just
    before the call, on every table. *)
Theorem Put_returns_what_TryGet_finds d d' (k : K) (v : V) (r : option V) :
  Put d k v = Done (d', r) → TryGet d k = Done r.
Proof. apply Put_reports_TryGet. Qed.

(** X3. [Put] on a key that [TryGet] finds, on every table: the old value
    is returned, the key then has the new value, every other key is looked
    up as before, and the buckets, the number of slots, [appendCount] and
    [Size()] are unchanged. *)
Theorem Put_overwrites_found_key d (k : K) (v old : V) :
  TryGet d k = Done (Some old) →
  ∃ d', Put d k v = Done (d', Some old)
        ∧ TryGet d' k = Done (Some v)
        ∧ (∀ k', k' ≠ k → TryGet d' k' = TryGet d k')
        ∧ buckets d' = buckets d
        ∧ len (entries d') = len (entries d)
        ∧ appendCount d' = appendCount d
        ∧ Size d' = Size d.
Proof. apply Put_existing_key. Qed.

(** X4. [Put] on a key that is not found, on every table: when the key's
    bucket index is the same before and after the call (as when the call
    has not grown the bucket array), [TryGet] then finds the key with the
    value put. *)
Theorem Put_then_TryGet_same_index d d' (k : K) (v : V) :
  Put d k v = Done (d', None) →
  Z.rem (hasher d k) (len (buckets d')) = Z.rem (hasher d k) (len (buckets d)) →
  TryGet d' k = Done (Some v).
Proof. apply Put_new_key_found. Qed.

(** X5. With a callback that is a function of the previous value alone,
    one that does not read the table and that returns, [GetAndPut] is
    [TryGet] followed by [Put] of the value the callback computes from
    what [TryGet] returned; it returns that value and the previous one,
    and it panics where they panic. *)
Theorem GetAndPut_composes_TryGet_Put d (k : K) (set : option V → V) :
  GetAndPut d k (pure_callback set)
  = (r ← TryGet d k;
     '(d', prev) ← Put d k (set r);
     Done (d', (set r, prev))).
Proof. apply GetAndPut_is_TryGet_then_Put. Qed.

(** X6. [Size()] goes up by one when [Put] does not find the key and is
    unchanged when [Put] finds it; [Remove] and [Clear] never change it. *)
Theorem Size_grows_only_on_new_keys d :
  (∀ d' k v r, Put d k v = Done (d', r) →
       Size d' = Size d + (if r is Some _ then 0 else 1))
  ∧ (∀ d' k r, Remove d k = Done (d', r) → Size d' = Size d)
  ∧ Size (Clear d) = Size d.
Proof. apply Size_counts_new_keys_only. Qed.

(** X7. On every table a full iteration from a new iterator returns, and
    yields the pair of each live slot once, in ascending slot order, and
    nothing else. *)
Theorem iteration_yields_live_slots_in_order d :
  full_iteration d
  = Done (map (λ e, (key e, value e))
            (filter (λ e, alive e = true) (entries d))).
Proof. apply full_iteration_live_pairs. Qed.

(** X8. [ToSlice] returns [Size()] zero pairs followed by the pairs of the
    iteration: the slice it makes has length [Size()] instead of capacity
    [Size()]. *)
Theorem ToSlice_starts_with_zero_pairs d :
  0 ≤ Size d →
  ToSlice d = Done (replicate (Z.to_nat (Size d)) (zero, zero) ++ live_pairs d).
Proof. apply ToSlice_Done. Qed.

(** X9. After [Clear], on every table with buckets, every key whose hash
    is not negative is absent: [TryGet] returns nothing, [Contains] is
    false, [Remove] changes nothing, and an iteration yields nothing. *)
Theorem Clear_makes_every_lookup_miss d (k : K) :
  0 < len (buckets d) → 0 ≤ hasher d k →
  TryGet (Clear d) k = Done None
  ∧ Contains (Clear d) k = Done false
  ∧ Remove (Clear d) k = Done (Clear d, None)
  ∧ full_iteration (Clear d) = Done [].
Proof.
  intros Hb Hh.
  pose proof (Clear_lookup d k Hb Hh) as Hlook.
  assert (index (Clear d) (hasher d k)
          = Done (Z.rem (hasher d k) (len (buckets d)))) as Hidx.
  { unfold index. rewrite Clear_buckets.
    destruct (Z.eqb_spec (len (buckets d)) 0); [lia | done]. }
  assert (TryGet (Clear d) k = Done None) as Hget.
  { unfold TryGet. cbn [hasher Clear set_entries set_buckets].
    by rewrite Hidx, bind_Done_l, Hlook. }
  split; [done|]. split; [|split].
  - unfold Contains. by rewrite Hget.
  - unfold Remove. cbn [hasher Clear set_entries set_buckets].
    by rewrite Hidx, bind_Done_l, Hlook.
  - by rewrite full_iteration_live_pairs, live_pairs_Clear.
Qed.

(** X10. [Remove] agrees with [TryGet] on every table: it returns what
    [TryGet] returns; a key that [TryGet] does not find leaves the table
    exactly as it was; a key that [TryGet] finds is removed with its value
    and without a panic. *)
Theorem Remove_agrees_with_TryGet d (k : K) :
  (∀ d' r, Remove d k = Done (d', r) → TryGet d k = Done r)
  ∧ (TryGet d k = Done None → Remove d k = Done (d, None))
  ∧ (∀ v, TryGet d k = Done (Some v) → ∃ d', Remove d k = Done (d', Some v)).
Proof.
  split; [|apply Remove_found_or_absent].
  intros d' r. apply Remove_reports_TryGet.
Qed.

(** X13. On a table made by [MakeHashDict], every sequence of [Put],
    [GetAndPut], [Remove] and [Clear] on keys whose hash is not negative
    returns: no index is out of range and no chain walk runs forever.
    The operations on the table it leaves return as well. *)
Theorem sequences_never_panic (hasher0 : K → Z) (capacity : Z)
    (ops : list (op K V)) :
  capacity ≤ 2 ^ 62 →
  Forall (op_hash_nonneg hasher0) ops →
  ∃ d0 d,
    MakeHashDict hasher0 capacity = Done d0
    ∧ run d0 ops = Done d
    ∧ ∀ k, 0 ≤ hasher0 k →
        (∃ r, TryGet d k = Done r) ∧ (∃ b, Contains d k = Done b)
        ∧ (∃ d' r, Remove d k = Done (d', r))
        ∧ (∀ v, ∃ d' r, Put d k v = Done (d', r)).
Proof. apply operations_never_panic. Qed.

(** X14. A run on a new table that has not grown the bucket array, in
    which every key that is removed shares its bucket with no other key of
    the run, leaves the dictionary its operations describe: a full
    iteration yields its pairs, one per key, in order of first insertion,
    and [TryGet] and [Contains] answer from it. *)
Theorem table_refines_dictionary_without_bucket_growth (hasher0 : K → Z)
    (capacity : Z) (ops : list (op K V)) d0 d :
  MakeHashDict hasher0 capacity = Done d0 →
  Forall (op_hash_nonneg hasher0) ops →
  removes_alone hasher0 (len (buckets d0)) (op_keys ops) ops →
  run d0 ops = Done d →
  len (buckets d) = len (buckets d0) →
  full_iteration d = Done (ref_run ops)
  ∧ NoDup (ref_run ops).*1
  ∧ ∀ k, 0 ≤ hasher0 k →
      TryGet d k = Done (ref_get (ref_run ops) k)
      ∧ Contains d k = Done (bool_decide (k ∈ (ref_run ops).*1)).
Proof. apply run_without_bucket_growth_refines. Qed.

(** X15. The first operations on a new table are exact.  A new table has
    at least 16 buckets, and a sequence of fewer operations than twice the
    number of buckets minus one (so every sequence of at most 30
    operations), on keys whose hash is not negative and in which every key
    that is removed shares its bucket with no other key of the sequence,
    returns, leaves the bucket array at the length it was made with, and
    leaves the dictionary the operations describe. *)
Theorem first_operations_are_exact (hasher0 : K → Z) (capacity : Z)
    (ops : list (op K V)) d0 :
  MakeHashDict hasher0 capacity = Done d0 →
  Forall (op_hash_nonneg hasher0) ops →
  removes_alone hasher0 (len (buckets d0)) (op_keys ops) ops →
  Z.of_nat (length ops) + 1 < 2 * len (buckets d0) →
  16 ≤ len (buckets d0)
  ∧ ∃ d,
      run d0 ops = Done d
      ∧ len (buckets d) = len (buckets d0)
      ∧ full_iteration d = Done (ref_run ops)
      ∧ ∀ k, 0 ≤ hasher0 k → TryGet d k = Done (ref_get (ref_run ops) k).
Proof.
  intros Hmk Hops Hrem Hshort. split; [|by apply (short_run_refines _ capacity)].
  destruct (Z.le_gt_cases capacity (2 ^ 62)) as [Hcap|Hcap].
  - destruct (MakeHashDict_Done (V:=V) hasher0 capacity Hcap)
      as (d0' & Hmk' & (j & Hj & Hlen & _) & _).
    assert (d0' = d0) as -> by congruence.
    rewrite Hlen. change 16 with (2 ^ 4). apply Z.pow_le_mono_r; lia.
  - rewrite (MakeHashDict_large (V:=V) hasher0 capacity) in Hmk by lia. done.
Qed.

(** X16. [HashDictOf] builds the dictionary of its elements, for elements
    whose keys have a hash that is not negative: the table is made with
    room for all of them, so that no [Put] grows the bucket array (after
    every prefix of the elements it has the length it was made with); an
    iteration yields one pair per key in order of first occurrence with
    the last value given, and [TryGet] returns that value. *)
Theorem HashDictOf_builds_dictionary (hasher0 : K → Z) (elements : list (K * V)) :
  len elements ≤ 2 ^ 62 →
  Forall (λ p, 0 ≤ hasher0 p.1) elements →
  ∃ d0 d,
    MakeHashDict hasher0 (len elements) = Done d0
    ∧ HashDictOf hasher0 elements = Done d
    ∧ (∀ n d1, PutAll d0 (take n elements) = Done d1 →
               len (buckets d1) = len (buckets d0))
    ∧ full_iteration d = Done (ref_run (map (λ p, OpPut p.1 p.2) elements))
    ∧ ∀ k, 0 ≤ hasher0 k →
        TryGet d k
        = Done (ref_get (ref_run (map (λ p, OpPut p.1 p.2) elements)) k).
Proof. apply HashDictOf_refines. Qed.


(** X18. [Put] after a run that has not grown the bucket array and in
    which every key that is removed shares its bucket with no other key of
    the run, when the call does not grow the bucket array either: it
    returns the value the dictionary held for the key, after which the key
    has the new value, the iteration is that of the updated dictionary,
    and every other key is looked up as before. *)
Theorem Put_then_present (hasher0 : K → Z) (capacity : Z)
    (ops : list (op K V)) d0 d d' (k : K) (v : V) (r : option V) :
  MakeHashDict hasher0 capacity = Done d0 →
  Forall (op_hash_nonneg hasher0) ops →
  removes_alone hasher0 (len (buckets d0)) (op_keys ops) ops →
  run d0 ops = Done d →
  len (buckets d) = len (buckets d0) →
  0 ≤ hasher0 k →
  Put d k v = Done (d', r) →
  len (buckets d') = len (buckets d) →
  r = ref_get (ref_run ops) k
  ∧ TryGet d' k = Done (Some v)
  ∧ full_iteration d' = Done (ref_put (ref_run ops) k v)
  ∧ ∀ k', 0 ≤ hasher0 k' → k' ≠ k → TryGet d' k' = TryGet d k'.
Proof.
  intros Hmk Hops Hrem Hrun Hlen Hk Hput Hlen'.
  destruct (reached_refines _ _ _ _ _ Hmk Hops Hrem Hrun Hlen) as (ch & Hr).
  destruct (reached_shape _ _ _ _ _ Hmk Hops Hrun) as [_ Hh].
  rewrite <- Hh in Hk.
  destruct (refines_Put d d' ch _ k v r Hr Hk Hput Hlen') as [-> [ch' Hr']].
  pose proof (Put_fields _ _ _ _ _ Hput) as (Hh' & _).
  split; [done|]. split; [|split].
  - rewrite (refines_TryGet d' ch' _ k) by (done || by rewrite Hh').
    by rewrite ref_get_put, decide_True.
  - by rewrite full_iteration_live_pairs, (refines_pairs _ _ _ Hr').
  - intros k' Hk' Hne. rewrite <- Hh in Hk'.
    rewrite (refines_TryGet d' ch' _ k') by (done || by rewrite Hh').
    rewrite (refines_TryGet d ch _ k') by done.
    by rewrite ref_get_put, decide_False.
Qed.

(** X19. [grow] on the entry store: when the requested size is above the
    number of slots the store becomes three times as long, otherwise it
    keeps its length; every slot stays at its index with its hash, key,
    value and liveness, and is unchanged altogether when the bucket array
    did not grow. *)
Theorem grow_keeps_slots_in_place d d' (newSize : Z) :
  grow d newSize = Done d' →
  (if len (entries d) <? newSize
   then len (entries d') = 3 * len (entries d)
   else len (entries d') = len (entries d))
  ∧ (∀ j e, entries d !! j = Some e →
            ∃ e', entries d' !! j = Some e' ∧ same_payload e e')
  ∧ (len (buckets d') = len (buckets d) →
     take (length (entries d)) (entries d') = entries d).
Proof. apply grow_entries. Qed.

(** X20. Above [2^62] the doubling of [bucketsSizeFor] wraps around to 0
    and the loop never ends, whatever the number of rounds it is given:
    [MakeHashDict] does not return for such a capacity. *)
Theorem MakeHashDict_above_limit_diverges (hasher0 : K → Z) (capacity : Z) :
  2 ^ 62 < capacity →
  (∀ fuel, bucketsSizeFor_loop fuel 16 capacity = Diverge)
  ∧ MakeHashDict (V:=V) hasher0 capacity = Diverge.
Proof.
  intros Hcap. split; [|by apply MakeHashDict_large].
  intros fuel. apply bucketsSizeFor_loop_diverges; [|done].
  left. exists 4. split; [lia | done].
Qed.

(** X21. The free list is never in use: on every table reached from a new
    one by operations on keys whose hash is not negative, [freeSize] is 0,
    so that every new key is appended and no freed slot is taken again.
    [Size()] is [appendCount + 1], which is at most the number of
    operations plus one; a slot is left for the next append, and every
    live slot is below [appendCount]. *)
Theorem free_list_never_used (hasher0 : K → Z) (capacity : Z)
    (ops : list (op K V)) d0 d :
  MakeHashDict hasher0 capacity = Done d0 →
  Forall (op_hash_nonneg hasher0) ops →
  run d0 ops = Done d →
  freeSize d = 0
  ∧ Size d = appendCount d + 1
  ∧ 0 ≤ appendCount d ≤ Z.of_nat (length ops)
  ∧ appendCount d < len (entries d)
  ∧ ∀ i e, at_ (entries d) i = Done e → alive e = true → i < appendCount d.
Proof.
  intros Hmk Hops Hrun.
  destruct (reached_shape _ _ _ _ _ Hmk Hops Hrun) as [[ch Hs] _].
  pose proof (shape_free _ _ Hs) as Hf. pose proof (shape_append _ _ Hs) as Ha.
  pose proof (run_Size _ _ _ Hrun) as HS.
  destruct (Size_MakeHashDict _ _ _ Hmk) as [HS0 _].
  split; [done|]. split; [unfold Size; lia|].
  split; [unfold Size in HS at 2 3; lia|]. split; [lia|].
  intros i e Hi Halive. by apply (shape_live _ _ Hs i e).
Qed.

(** X30. [Remove] never writes the link of another slot.  When it finds
    the key in slot [i] it points the bucket of the key at the link of
    slot [i], clears slot [i] and sets [freeCount] to [i + 1], and that is
    all it changes, wherever slot [i] is in its chain: [last] is never
    assigned, so the branch that would re-link the slot before [i] is
    never taken.  On a table whose buckets head proper chains, the chain
    of the bucket is thereby cut down to the slots after slot [i]; the
    slots before it stay live and unchanged, outside every chain. *)
Theorem Remove_repoints_bucket d d' (k : K) (v : V) :
  Remove d k = Done (d', Some v) →
  ∃ i item,
    at_ (entries d) i = Done item
    ∧ hash item = hasher d k ∧ key item = k ∧ value item = v
    ∧ d' = after_Remove d (Z.rem (hasher d k) (len (buckets d))) i item
    ∧ ∀ ch, shape d ch →
        ∃ l1 l2,
          ch (Z.rem (hasher d k) (len (buckets d))) = l1 ++ i :: l2
          ∧ shape d' (<[Z.rem (hasher d k) (len (buckets d)) := l2]> ch)
          ∧ ∀ j, j ∈ l1 →
              (∃ e, at_ (entries d) j = Done e ∧ at_ (entries d') j = Done e
                    ∧ alive e = true)
              ∧ ∀ b, j ∉ (<[Z.rem (hasher d k) (len (buckets d)) := l2]> ch) b.
Proof.
  intros Hrm. pose proof Hrm as Hrm0. unfold Remove in Hrm.
  done_inv Hrm as idx Eidx. done_inv Hrm as [[[last i] item]|] Efind;
    [|by inversion Hrm].
  pose proof Efind as Efind0. unfold lookup_chain in Efind.
  done_inv Efind as head Ehead.
  apply chain_find_Some in Efind as (Hat & Hhash & Hkey & ->).
  change (-1 <? 0) with true in Hrm. cbn match in Hrm.
  done_inv Hrm as d1 Ed1. done_inv Hrm as es Ees.
  inversion Hrm; subst d' v. clear Hrm.
  done_inv Ed1 as e Ee. assert (e = item) as -> by congruence.
  done_inv Ed1 as bs Ebs. inversion Ed1; subst d1. clear Ed1.
  apply upd_Done in Ebs as [Hidx ->]. cbn [entries set_buckets] in Ees.
  apply upd_Done in Ees as [Hi ->].
  unfold index in Eidx. destruct (len (buckets d) =? 0); [done|].
  inversion Eidx; subst idx. clear Eidx.
  set (idx := Z.rem (hasher d k) (len (buckets d))) in *.
  exists i, item. split; [done|]. split; [done|]. split; [done|]. split; [done|].
  split; [done|].
  intros ch Hs.
  assert (find_in (entries d) (hasher d k) k (-1) (ch idx) = Some (-1, i, item))
    as Hfind.
  { pose proof (shape_lookup d ch (hasher d k) k _ Hs Hidx) as Hlook.
    rewrite Efind0 in Hlook. by inversion Hlook. }
  pose proof (shape_chain _ _ Hs _ _ Ehead) as Hchain.
  pose proof (shape_nodup _ _ Hs idx) as Hnd.
  assert (0 ≤ hasher d k) as Hh.
  { destruct (find_in_Some _ _ _ _ _ _ _ _ Hfind) as (l1 & l2 & Hch & _).
    destruct (is_chain_elem _ _ _ i Hchain) as (e & He & Halive).
    { rewrite Hch. apply elem_of_app. right. by left. }
    assert (e = item) as -> by congruence.
    destruct (shape_live _ _ Hs i item Hat Halive) as [_ Hpos]. by rewrite <- Hhash. }
  destruct (Remove_found d ch k _ _ _ Hs Hh Hfind)
    as (l1 & l2 & Hch & _ & _ & _ & _ & Hshape).
  fold idx in Hch, Hshape.
  exists l1, l2. split; [done|]. split; [done|].
  rewrite Hch in Hchain, Hnd.
  apply list.NoDup_app in Hnd as (_ & Hnot & _).
  intros j Hj. split.
  - destruct (is_chain_elem _ _ _ j Hchain) as (e & He & Halive).
    { apply elem_of_app. by left. }
    exists e. split; [done|]. split; [|done].
    cbn [entries after_Remove set_freeCount set_entries set_buckets].
    rewrite at_insert_ne; [done | lia |]. intros ->.
    apply (Hnot i Hj). by left.
  - intros b Hin. destruct (decide (b = idx)) as [->|Hb].
    + rewrite fn_lookup_insert in Hin. apply (Hnot j Hj). by right.
    + rewrite fn_lookup_insert_ne in Hin by done.
      apply Hb. apply (shape_disjoint _ _ Hs b idx j); [done|].
      rewrite Hch. apply elem_of_app. by left.
Qed.

End Properties.

Section Set_properties.
Context {T : Type} `{EqDecision T} `{Zero T}.
Implicit Types a : HashSet T.

(** X11. The answers of the set are those of [Contains] just before the
    call: [HashSet.Put] returns true exactly when the element was already
    contained, and [HashSet.Remove] returns true exactly when it was
    contained. *)
Theorem HashSet_answers_are_Contains a a' (element : T) (b : bool) :
  (HashSet_Put a element = Done (a', b) → HashSet_Contains a element = Done b)
  ∧ (HashSet_Remove a element = Done (a', b) →
     HashSet_Contains a element = Done b).
Proof.
  unfold HashSet_Put, HashSet_Remove, HashSet_Contains.
  cbn [table_Put table_Remove table_Contains HashDict_Table].
  unfold Contains. split; intros Hrun.
  - done_inv Hrun as [d r] Hput. inversion Hrun; subst.
    by rewrite (Put_reports_TryGet _ _ _ _ _ Hput).
  - done_inv Hrun as [d r] Hrm. inversion Hrun; subst.
    by rewrite (Remove_reports_TryGet _ _ _ _ Hrm).
Qed.

End Set_properties.

Section Set_properties_any_table.
Context {T : Type} `{Table T}.
Implicit Types a : HashSet T.

(** X12. [ContainsAll] returns true exactly when [Contains] returns true
    for every element, and returns false at the first element that is not
    contained, without looking at the elements after it. *)
Theorem ContainsAll_stops_at_first_miss a :
  (∀ elements : list T,
     HashSet_ContainsAll a elements = Done true
     ↔ Forall (λ e, HashSet_Contains a e = Done true) elements)
  ∧ (∀ (l1 : list T) (x : T) (l2 : list T),
       Forall (λ e, HashSet_Contains a e = Done true) l1 →
       HashSet_Contains a x = Done false →
       HashSet_ContainsAll a (l1 ++ x :: l2) = Done false).
Proof.
  split.
  - apply HashSet_ContainsAll_true.
  - intros l1 x l2. apply HashSet_ContainsAll_first_miss.
Qed.

(** X23. Whatever the table, a loop over the iterator of a set yields the
    keys of the pairs that the same loop over the iterator of its table
    yields, in the same order, and it ends, panics or runs on exactly as
    that loop does: [hashSetIterator.Next] passes on the first component
    of each pair and the end of the iteration. *)
Theorem HashSet_iteration_is_keys (fuel : nat) (it : table_iterator) a :
  HashSet_drain fuel it a
  = (l ← table_drain fuel it (inner a); Done (l.*1)).
Proof. apply HashSet_drain_keys. Qed.

End Set_properties_any_table.

(** X1. The string hasher never returns a negative hash (its result is
    below [2^32]), so that a dictionary with string keys never panics:
    every sequence of operations on a table made by [MakeStringDict]
    returns, and so does every lookup on the table it leaves. *)
Theorem string_dict_never_panics {V : Type} `{Zero V} (capacity : Z)
    (ops : list (op string V)) :
  capacity ≤ 2 ^ 62 →
  (∀ t, 0 ≤ StringHasher t < 2 ^ 32)
  ∧ ∃ d0 d,
      MakeStringDict capacity = Done d0
      ∧ run d0 ops = Done d
      ∧ ∀ k, ∃ r, TryGet d k = Done r.
Proof.
  intros Hcap. split; [apply StringHasher_range|].
  assert (Forall (op_hash_nonneg StringHasher) ops) as Hops.
  { apply Forall_forall. intros o _. destruct o; cbn; try done;
      apply StringHasher_range. }
  destruct (operations_never_panic StringHasher capacity ops Hcap Hops)
    as (d0 & d & Hmk & Hrun & Hall).
  exists d0, d. split; [done|]. split; [done|].
  intros k. apply Hall. apply StringHasher_range.
Qed.

Section More_properties.
Context {K V : Type} `{EqDecision K} `{Zero K} `{Zero V}.
Implicit Types d : hashMap K V.

(** X24. [IsEmpty] is never true: on a new table, and after every sequence
    of operations that returns, [Size()] is at least 1 (and at most 1 plus
    the number of operations), so [IsEmpty] is false, also when no key is
    left. *)
Theorem IsEmpty_never_true (hasher0 : K → Z) (capacity : Z)
    (ops : list (op K V)) d0 d :
  MakeHashDict hasher0 capacity = Done d0 →
  run d0 ops = Done d →
  1 ≤ Size d ≤ 1 + Z.of_nat (length ops) ∧ IsEmpty d = false.
Proof.
  intros Hmk Hrun.
  destruct (Size_MakeHashDict _ _ _ Hmk) as [HS0 _].
  pose proof (run_Size _ _ _ Hrun) as HS.
  split; [lia|]. unfold IsEmpty. apply Z.eqb_neq. lia.
Qed.

(** X25. [Get] after a run that has not grown the bucket array and in
    which every key that is removed shares its bucket with no other key of
    the run returns the value the dictionary holds for the key, and panics
    when the dictionary has no such key. *)
Theorem Get_returns_value_or_panics (hasher0 : K → Z) (capacity : Z)
    (ops : list (op K V)) d0 d (k : K) :
  MakeHashDict hasher0 capacity = Done d0 →
  Forall (op_hash_nonneg hasher0) ops →
  removes_alone hasher0 (len (buckets d0)) (op_keys ops) ops →
  run d0 ops = Done d →
  len (buckets d) = len (buckets d0) →
  0 ≤ hasher0 k →
  Get d k = match ref_get (ref_run ops) k with
            | Some v => Done v
            | None => Panic
            end.
Proof.
  intros Hmk Hops Hrem Hrun Hlen Hk.
  destruct (reached_refines _ _ _ _ _ Hmk Hops Hrem Hrun Hlen) as (ch & Hr).
  destruct (reached_shape _ _ _ _ _ Hmk Hops Hrun) as [_ Hh].
  rewrite <- Hh in Hk. unfold Get.
  by rewrite (refines_TryGet d ch _ k Hr Hk), bind_Done_l.
Qed.

End More_properties.

Section More_set_properties.
Context {T : Type} `{EqDecision T} `{Zero T}.
Implicit Types a : HashSet T.

(** X26. [HashSet.ToSlice] returns [Size()] zero values followed by the
    elements of the iteration. *)
Theorem HashSet_ToSlice_starts_with_zeros a :
  0 ≤ HashSet_Size a →
  HashSet_ToSlice a
  = Done (replicate (Z.to_nat (HashSet_Size a)) zero ++ (live_pairs (inner a)).*1).
Proof.
  intros Hsize. unfold HashSet_ToSlice, make.
  destruct (Z.ltb_spec (HashSet_Size a) 0); [lia|].
  unfold HashSet_full_iteration. rewrite bind_Done_l, HashSet_drain_keys.
  cbn [table_fuel table_Iter HashDict_Table]. rewrite table_drain_HashDict.
  fold (full_iteration (inner a)).
  by rewrite full_iteration_live_pairs, !bind_Done_l.
Qed.

End More_set_properties.

(** X28. [StringDictOf] builds the dictionary of its elements, whatever
    the keys: it returns, an iteration yields one pair per key in order of
    first occurrence with the last value given, and [TryGet] returns that
    value. *)
Theorem StringDictOf_builds_dictionary {V : Type} `{Zero V}
    (elements : list (string * V)) :
  len elements ≤ 2 ^ 62 →
  ∃ d,
    StringDictOf elements = Done d
    ∧ full_iteration d = Done (ref_run (map (λ p, OpPut p.1 p.2) elements))
    ∧ ∀ k, TryGet d k
           = Done (ref_get (ref_run (map (λ p, OpPut p.1 p.2) elements)) k).
Proof.
  intros Hlen.
  destruct (HashDictOf_refines StringHasher elements Hlen)
    as (d0 & d & _ & Hof & _ & Hit & Hget).
  { apply Forall_forall. intros p _. apply StringHasher_range. }
  exists d. split; [done|]. split; [done|].
  intros k. apply Hget. apply StringHasher_range.
Qed.

(** * The properties at concrete tables *)

Ltac by_computation := vm_compute; first [reflexivity | discriminate].

Ltac hashes_nonneg :=
  unfold colliding_ops;
  repeat first [apply Forall_nil_2 | apply Forall_cons_2];
  first [exact I | by_computation].

Ltac keys_alone :=
  unfold removes_alone, alone_in_bucket, op_keys, colliding_ops;
  cbn [omap list_omap fmap list_fmap];
  repeat first [apply Forall_nil_2 | apply Forall_cons_2];
  first [exact I | left; reflexivity | right; by_computation].

Lemma Put_returns_what_TryGet_finds_witness :
  ∃ d d' : hashMap Z Z,
    fresh_dict = Done d
    ∧ Put d 1 10 = Done (d', None)
    ∧ TryGet d 1 = Done None.
Proof.
  do 2 eexists. split; [vm_compute; reflexivity|].
  split; [vm_compute; reflexivity|].
  eapply (Put_returns_what_TryGet_finds _ _ 1 10 None).
  vm_compute; reflexivity.
Defined.

Lemma Put_overwrites_found_key_witness :
  ∃ d : hashMap Z Z,
    dict_after [OpPut 1 10; OpPut 2 20] = Done d
    ∧ TryGet d 1 = Done (Some 10)
    ∧ ∃ d', Put d 1 11 = Done (d', Some 10)
            ∧ TryGet d' 1 = Done (Some 11)
            ∧ (∀ k', k' ≠ 1 → TryGet d' k' = TryGet d k')
            ∧ buckets d' = buckets d
            ∧ len (entries d') = len (entries d)
            ∧ appendCount d' = appendCount d
            ∧ Size d' = Size d.
Proof.
  eexists. split; [vm_compute; reflexivity|].
  split; [vm_compute; reflexivity|].
  eapply (Put_overwrites_found_key _ 1 11 10).
  vm_compute; reflexivity.
Defined.

Lemma Put_then_TryGet_same_index_witness :
  ∃ d d' : hashMap Z Z,
    fresh_dict = Done d
    ∧ Put d 1 10 = Done (d', None)
    ∧ Z.rem (hasher d 1) (len (buckets d')) = Z.rem (hasher d 1) (len (buckets d))
    ∧ TryGet d' 1 = Done (Some 10).
Proof.
  do 2 eexists. split; [vm_compute; reflexivity|].
  lazymatch goal with
  | |- Put ?d0 _ _ = _ ∧ _ =>
      split; [vm_compute; reflexivity|];
      split; [vm_compute; reflexivity|];
      apply (Put_then_TryGet_same_index d0 _ 1 10); vm_compute; reflexivity
  end.
Defined.

Lemma ToSlice_starts_with_zero_pairs_witness :
  ∃ d : hashMap Z Z,
    dict_after [OpPut 1 10] = Done d
    ∧ 0 ≤ Size d
    ∧ ToSlice d = Done (replicate (Z.to_nat (Size d)) (zero, zero) ++ live_pairs d).
Proof.
  eexists. split; [vm_compute; reflexivity|].
  split; [vm_compute; discriminate|].
  apply ToSlice_starts_with_zero_pairs. vm_compute; discriminate.
Defined.

Lemma Clear_makes_every_lookup_miss_witness :
  ∃ d : hashMap Z Z,
    dict_after [OpPut 1 10] = Done d
    ∧ 0 < len (buckets d) ∧ 0 ≤ hasher d 1
    ∧ TryGet (Clear d) 1 = Done None
    ∧ Contains (Clear d) 1 = Done false
    ∧ Remove (Clear d) 1 = Done (Clear d, None)
    ∧ full_iteration (Clear d) = Done [].
Proof.
  eexists. split; [vm_compute; reflexivity|].
  split; [vm_compute; reflexivity|].
  split; [vm_compute; discriminate|].
  apply Clear_makes_every_lookup_miss.
  - vm_compute; reflexivity.
  - vm_compute; discriminate.
Defined.

Lemma sequences_never_panic_witness :
  0 ≤ 2 ^ 62
  ∧ Forall (op_hash_nonneg NumberHasher)
      [OpPut 1 10; OpGetAndPut 2 (λ _, 5); OpRemove 1; OpClear]
  ∧ ∃ d0 d : hashMap Z Z,
      MakeHashDict NumberHasher 0 = Done d0
      ∧ run d0 [OpPut 1 10; OpGetAndPut 2 (λ _, 5); OpRemove 1; OpClear] = Done d
      ∧ ∀ k, 0 ≤ NumberHasher k →
          (∃ r, TryGet d k = Done r) ∧ (∃ b, Contains d k = Done b)
          ∧ (∃ d' r, Remove d k = Done (d', r))
          ∧ (∀ v, ∃ d' r, Put d k v = Done (d', r)).
Proof.
  split; [lia|]. split; [hashes_nonneg|].
  apply sequences_never_panic; [lia | hashes_nonneg].
Defined.

Lemma table_refines_dictionary_without_bucket_growth_witness :
  ∃ d0 d : hashMap Z Z,
    MakeHashDict NumberHasher 0 = Done d0
    ∧ Forall (op_hash_nonneg NumberHasher) colliding_ops
    ∧ removes_alone NumberHasher (len (buckets d0)) (op_keys colliding_ops)
        colliding_ops
    ∧ run d0 colliding_ops = Done d
    ∧ len (buckets d) = len (buckets d0)
    ∧ full_iteration d = Done (ref_run colliding_ops)
    ∧ NoDup (ref_run colliding_ops).*1
    ∧ ∀ k, 0 ≤ NumberHasher k →
        TryGet d k = Done (ref_get (ref_run colliding_ops) k)
        ∧ Contains d k = Done (bool_decide (k ∈ (ref_run colliding_ops).*1)).
Proof.
  do 2 eexists. split; [vm_compute; reflexivity|].
  split; [hashes_nonneg|].
  split; [keys_alone|].
  split; [vm_compute; reflexivity|].
  split; [vm_compute; reflexivity|].
  eapply (table_refines_dictionary_without_bucket_growth NumberHasher 0).
  - vm_compute; reflexivity.
  - hashes_nonneg.
  - keys_alone.
  - vm_compute; reflexivity.
  - vm_compute; reflexivity.
Defined.

Lemma first_operations_are_exact_witness :
  ∃ d0 : hashMap Z Z,
    MakeHashDict NumberHasher 0 = Done d0
    ∧ Forall (op_hash_nonneg NumberHasher) colliding_ops
    ∧ removes_alone NumberHasher (len (buckets d0)) (op_keys colliding_ops)
        colliding_ops
    ∧ Z.of_nat (length colliding_ops) + 1 < 2 * len (buckets d0)
    ∧ 16 ≤ len (buckets d0)
    ∧ ∃ d,
        run d0 colliding_ops = Done d
        ∧ len (buckets d) = len (buckets d0)
        ∧ full_iteration d = Done (ref_run colliding_ops)
        ∧ ∀ k, 0 ≤ NumberHasher k →
            TryGet d k = Done (ref_get (ref_run colliding_ops) k).
Proof.
  eexists. split; [vm_compute; reflexivity|].
  split; [hashes_nonneg|].
  split; [keys_alone|].
  split; [by_computation|].
  eapply (first_operations_are_exact NumberHasher 0).
  - vm_compute; reflexivity.
  - hashes_nonneg.
  - keys_alone.
  - by_computation.
Defined.

Lemma HashDictOf_builds_dictionary_witness :
  len [(1, 10); (17, 20); (1, 11)] ≤ 2 ^ 62
  ∧ Forall (λ p : Z * Z, 0 ≤ NumberHasher p.1) [(1, 10); (17, 20); (1, 11)]
  ∧ ∃ d0 d : hashMap Z Z,
      MakeHashDict NumberHasher (len [(1, 10); (17, 20); (1, 11)]) = Done d0
      ∧ HashDictOf NumberHasher [(1, 10); (17, 20); (1, 11)] = Done d
      ∧ (∀ n d1, PutAll d0 (take n [(1, 10); (17, 20); (1, 11)]) = Done d1 →
                 len (buckets d1) = len (buckets d0))
      ∧ full_iteration d
        = Done (ref_run (map (λ p, OpPut p.1 p.2) [(1, 10); (17, 20); (1, 11)]))
      ∧ ∀ k, 0 ≤ NumberHasher k →
          TryGet d k
          = Done (ref_get (ref_run (map (λ p, OpPut p.1 p.2)
                                      [(1, 10); (17, 20); (1, 11)])) k).
Proof.
  split; [by_computation|]. split; [hashes_nonneg|].
  apply HashDictOf_builds_dictionary; [by_computation | hashes_nonneg].
Defined.


Lemma Put_then_present_witness :
  ∃ d0 d d' : hashMap Z Z,
    MakeHashDict NumberHasher 0 = Done d0
    ∧ Forall (op_hash_nonneg NumberHasher) colliding_ops
    ∧ removes_alone NumberHasher (len (buckets d0)) (op_keys colliding_ops)
        colliding_ops
    ∧ run d0 colliding_ops = Done d
    ∧ len (buckets d) = len (buckets d0)
    ∧ 0 ≤ NumberHasher 16
    ∧ Put d 16 161 = Done (d', Some 160)
    ∧ len (buckets d') = len (buckets d)
    ∧ Some 160 = ref_get (ref_run colliding_ops) 16
    ∧ TryGet d' 16 = Done (Some 161)
    ∧ full_iteration d' = Done (ref_put (ref_run colliding_ops) 16 161)
    ∧ ∀ k', 0 ≤ NumberHasher k' → k' ≠ 16 → TryGet d' k' = TryGet d k'.
Proof.
  do 3 eexists. split; [vm_compute; reflexivity|].
  split; [hashes_nonneg|].
  split; [keys_alone|].
  split; [vm_compute; reflexivity|].
  split; [vm_compute; reflexivity|].
  split; [by_computation|].
  split; [vm_compute; reflexivity|].
  split; [vm_compute; reflexivity|].
  eapply (Put_then_present NumberHasher 0).
  - vm_compute; reflexivity.
  - hashes_nonneg.
  - keys_alone.
  - vm_compute; reflexivity.
  - vm_compute; reflexivity.
  - by_computation.
  - vm_compute; reflexivity.
  - vm_compute; reflexivity.
Defined.

Lemma grow_keeps_slots_in_place_witness :
  ∃ d d' : hashMap Z Z,
    dict_after [OpPut 1 10] = Done d
    ∧ grow d 11 = Done d'
    ∧ (if len (entries d) <? 11
       then len (entries d') = 3 * len (entries d)
       else len (entries d') = len (entries d))
    ∧ (∀ j e, entries d !! j = Some e →
              ∃ e', entries d' !! j = Some e' ∧ same_payload e e')
    ∧ (len (buckets d') = len (buckets d) →
       take (length (entries d)) (entries d') = entries d).
Proof.
  do 2 eexists. split; [vm_compute; reflexivity|].
  split; [vm_compute; reflexivity|].
  apply grow_keeps_slots_in_place. vm_compute; reflexivity.
Defined.

Lemma MakeHashDict_above_limit_diverges_witness :
  2 ^ 62 < 2 ^ 62 + 1
  ∧ (∀ fuel, bucketsSizeFor_loop fuel 16 (2 ^ 62 + 1) = Diverge)
  ∧ MakeHashDict (K:=Z) (V:=Z) NumberHasher (2 ^ 62 + 1) = Diverge.
Proof.
  split; [lia|]. apply MakeHashDict_above_limit_diverges. lia.
Defined.

Lemma free_list_never_used_witness :
  ∃ d0 d : hashMap Z Z,
    MakeHashDict NumberHasher 0 = Done d0
    ∧ Forall (op_hash_nonneg NumberHasher) [OpPut 1 10; OpRemove 1; OpPut 2 20]
    ∧ run d0 [OpPut 1 10; OpRemove 1; OpPut 2 20] = Done d
    ∧ freeSize d = 0
    ∧ Size d = appendCount d + 1
    ∧ 0 ≤ appendCount d ≤ Z.of_nat (length [OpPut 1 10; OpRemove 1; OpPut 2 20])
    ∧ appendCount d < len (entries d)
    ∧ ∀ i e, at_ (entries d) i = Done e → alive e = true → i < appendCount d.
Proof.
  do 2 eexists. split; [vm_compute; reflexivity|].
  split; [hashes_nonneg|].
  split; [vm_compute; reflexivity|].
  eapply (free_list_never_used NumberHasher 0).
  - vm_compute; reflexivity.
  - hashes_nonneg.
  - vm_compute; reflexivity.
Defined.

Lemma string_dict_never_panics_witness :
  0 ≤ 2 ^ 62
  ∧ (∀ t, 0 ≤ StringHasher t < 2 ^ 32)
  ∧ ∃ d0 d : hashMap string Z,
      MakeStringDict 0 = Done d0
      ∧ run d0 [OpPut "a"%string 1; OpRemove "b"%string] = Done d
      ∧ ∀ k, ∃ r, TryGet d k = Done r.
Proof.
  split; [lia|]. apply string_dict_never_panics. lia.
Defined.

Lemma Size_grows_only_on_new_keys_witness :
  ∃ d d' : hashMap Z Z,
    fresh_dict = Done d
    ∧ Put d 1 10 = Done (d', None)
    ∧ Size d' = Size d + 1.
Proof.
  do 2 eexists. split; [vm_compute; reflexivity|].
  lazymatch goal with
  | |- Put ?d0 _ _ = _ ∧ _ =>
      split; [vm_compute; reflexivity|];
      apply (proj1 (Size_grows_only_on_new_keys d0) _ 1 10 None);
      vm_compute; reflexivity
  end.
Defined.

Lemma Remove_agrees_with_TryGet_witness :
  ∃ d : hashMap Z Z,
    dict_after [OpPut 1 10] = Done d
    ∧ TryGet d 2 = Done None
    ∧ Remove d 2 = Done (d, None).
Proof.
  eexists. split; [vm_compute; reflexivity|].
  split; [vm_compute; reflexivity|].
  apply (proj1 (proj2 (Remove_agrees_with_TryGet _ 2))).
  vm_compute; reflexivity.
Defined.

Lemma HashSet_answers_are_Contains_witness :
  ∃ a a' : HashSet Z,
    HashSetOf NumberHasher [1] = Done a
    ∧ HashSet_Put a 1 = Done (a', true)
    ∧ HashSet_Contains a 1 = Done true.
Proof.
  do 2 eexists. split; [vm_compute; reflexivity|].
  split; [vm_compute; reflexivity|].
  eapply (proj1 (HashSet_answers_are_Contains _ _ 1 true)).
  vm_compute; reflexivity.
Defined.

Lemma ContainsAll_stops_at_first_miss_witness :
  ∃ a : HashSet Z,
    HashSetOf NumberHasher [1] = Done a
    ∧ Forall (λ e, HashSet_Contains a e = Done true) [1]
    ∧ HashSet_Contains a 2 = Done false
    ∧ HashSet_ContainsAll a ([1] ++ 2 :: [3]) = Done false.
Proof.
  eexists. split; [vm_compute; reflexivity|].
  split; [apply Forall_cons_2; [vm_compute; reflexivity | apply Forall_nil_2]|].
  split; [vm_compute; reflexivity|].
  apply (proj2 (ContainsAll_stops_at_first_miss _) [1] 2 [3]).
  - apply Forall_cons_2; [vm_compute; reflexivity | apply Forall_nil_2].
  - vm_compute; reflexivity.
Defined.

Lemma IsEmpty_never_true_witness :
  ∃ d0 d : hashMap Z Z,
    MakeHashDict NumberHasher 0 = Done d0
    ∧ run d0 [OpPut 1 10; OpRemove 1] = Done d
    ∧ 1 ≤ Size d ≤ 1 + Z.of_nat (length [OpPut 1 10; OpRemove (V:=Z) 1])
    ∧ IsEmpty d = false.
Proof.
  do 2 eexists. split; [vm_compute; reflexivity|].
  split; [vm_compute; reflexivity|].
  eapply (IsEmpty_never_true NumberHasher 0).
  - vm_compute; reflexivity.
  - vm_compute; reflexivity.
Defined.

Lemma Get_returns_value_or_panics_witness :
  ∃ d0 d : hashMap Z Z,
    MakeHashDict NumberHasher 0 = Done d0
    ∧ Forall (op_hash_nonneg NumberHasher) colliding_ops
    ∧ removes_alone NumberHasher (len (buckets d0)) (op_keys colliding_ops)
        colliding_ops
    ∧ run d0 colliding_ops = Done d
    ∧ len (buckets d) = len (buckets d0)
    ∧ 0 ≤ NumberHasher 16 ∧ 0 ≤ NumberHasher 1
    ∧ ref_get (ref_run colliding_ops) 16 = Some 160
    ∧ ref_get (ref_run colliding_ops) 1 = None
    ∧ Get d 16 = match ref_get (ref_run colliding_ops) 16 with
                 | Some v => Done v
                 | None => Panic
                 end
    ∧ Get d 1 = match ref_get (ref_run colliding_ops) 1 with
                | Some v => Done v
                | None => Panic
                end.
Proof.
  do 2 eexists. split; [vm_compute; reflexivity|].
  split; [hashes_nonneg|].
  split; [keys_alone|].
  split; [vm_compute; reflexivity|].
  split; [vm_compute; reflexivity|].
  split; [by_computation|]. split; [by_computation|].
  split; [vm_compute; reflexivity|]. split; [vm_compute; reflexivity|].
  split.
  - eapply (Get_returns_value_or_panics NumberHasher 0 colliding_ops).
    + vm_compute; reflexivity.
    + hashes_nonneg.
    + keys_alone.
    + vm_compute; reflexivity.
    + vm_compute; reflexivity.
    + by_computation.
  - eapply (Get_returns_value_or_panics NumberHasher 0 colliding_ops).
    + vm_compute; reflexivity.
    + hashes_nonneg.
    + keys_alone.
    + vm_compute; reflexivity.
    + vm_compute; reflexivity.
    + by_computation.
Defined.

Lemma HashSet_ToSlice_starts_with_zeros_witness :
  ∃ a : HashSet Z,
    HashSetOf NumberHasher [1] = Done a
    ∧ 0 ≤ HashSet_Size a
    ∧ HashSet_ToSlice a
      = Done (replicate (Z.to_nat (HashSet_Size a)) (zero : Z)
              ++ (live_pairs (inner a)).*1).
Proof.
  eexists. split; [vm_compute; reflexivity|].
  split; [by_computation|].
  apply HashSet_ToSlice_starts_with_zeros. by_computation.
Defined.

Lemma StringDictOf_builds_dictionary_witness :
  len [("a"%string, 1); ("b"%string, 2)] ≤ 2 ^ 62
  ∧ ∃ d : hashMap string Z,
      StringDictOf [("a"%string, 1); ("b"%string, 2)] = Done d
      ∧ full_iteration d
        = Done (ref_run (map (λ p, OpPut p.1 p.2) [("a"%string, 1); ("b"%string, 2)]))
      ∧ ∀ k, TryGet d k
             = Done (ref_get (ref_run (map (λ p, OpPut p.1 p.2)
                                         [("a"%string, 1); ("b"%string, 2)])) k).
Proof.
  split; [by_computation|].
  apply StringDictOf_builds_dictionary. by_computation.
Defined.

(** [Remove] of the key 0, which sits behind the key 16 in the chain of
    bucket 0: the bucket is pointed past both slots, and the key 16, still
    live in its slot and still yielded by an iteration, is not found any
    more. *)
Lemma Remove_repoints_bucket_witness :
  ∃ d d' : hashMap Z Z,
    dict_after [OpPut 0 0; OpPut 16 160] = Done d
    ∧ Remove d 0 = Done (d', Some 0)
    ∧ TryGet d 16 = Done (Some 160)
    ∧ TryGet d' 16 = Done None
    ∧ full_iteration d' = Done [(16, 160)]
    ∧ ∃ i item,
        at_ (entries d) i = Done item
        ∧ hash item = hasher d 0 ∧ key item = 0 ∧ value item = 0
        ∧ d' = after_Remove d (Z.rem (hasher d 0) (len (buckets d))) i item
        ∧ ∀ ch, shape d ch →
            ∃ l1 l2,
              ch (Z.rem (hasher d 0) (len (buckets d))) = l1 ++ i :: l2
              ∧ shape d' (<[Z.rem (hasher d 0) (len (buckets d)) := l2]> ch)
              ∧ ∀ j, j ∈ l1 →
                  (∃ e, at_ (entries d) j = Done e ∧ at_ (entries d') j = Done e
                        ∧ alive e = true)
                  ∧ ∀ b, j ∉ (<[Z.rem (hasher d 0) (len (buckets d)) := l2]> ch) b.
Proof.
  do 2 eexists. split; [vm_compute; reflexivity|].
  split; [vm_compute; reflexivity|].
  split; [vm_compute; reflexivity|].
  split; [vm_compute; reflexivity|].
  split; [vm_compute; reflexivity|].
  apply (Remove_repoints_bucket _ _ 0 0).
  vm_compute; reflexivity.
Defined.
